(** * GroupDivision: a shallow embedding of [GroupDivision.py]

    The development models the assignment-and-optimisation core of the
    program: [assign_students_to_groups], [balance_groups],
    [evaluate_friend_success], [run_smart_assignment] and [run_n_times],
    together with the small part of [load_students] and
    [export_assignments_to_excel] that the core touches.

    Conventions.
    - Python [int] is [Z]; [len] returns a [Z].
    - Python [str] is [string].
    - A Python [dict] is an association list in insertion order
      (module [Dict]); a dictionary proper has pairwise distinct keys,
      which is the predicate [Dict.wf].
    - Exceptions are values of [exn]; a computation that may raise has
      type [result A].  The third outcome [Timeout] only exists for the
      [while True] loop of [balance_groups], which is run on fuel.
    - [random.shuffle] is library code: it is a parameter of the model,
      a function on an explicit generator state that returns some
      permutation of its argument.
    - A Python [float] is the rational number it denotes.  Division
      and multiplication round to the nearest binary64 number, ties to
      even ([round_double]); the exponent range is not limited, since
      the only floats of the program are quotients of two list lengths
      and their products with 100. *)

From Stdlib Require Import List String Ascii ZArith QArith Qminmax Bool Lia Lqa.
From Stdlib Require Import Permutation.
From Stdlib Require Sorted.
From Stdlib Require DecimalString DecimalZ PrimFloat FloatOps SpecFloat Uint63.
Import ListNotations.

Local Open Scope string_scope.
Local Open Scope list_scope.
Local Open Scope Z_scope.

(** ** Python values and exceptions *)

Inductive exn : Type :=
| KeyError
| IndexError
| ZeroDivisionError
| AttributeError.

Inductive result (A : Type) : Type :=
| Ok (a : A)
| Raise (e : exn)
| Timeout.

Arguments Ok {A} a.
Arguments Raise {A} e.
Arguments Timeout {A}.

Definition bind {A B : Type} (m : result A) (k : A -> result B) : result B :=
  match m with
  | Ok a => k a
  | Raise e => Raise e
  | Timeout => Timeout
  end.

Notation "x <- m ;; k" := (bind m (fun x => k))
  (at level 61, m at next level, right associativity).
Notation "' p <- m ;; k" := (bind m (fun x => match x with p => k end))
  (at level 61, p pattern, m at next level, right associativity).

(** [len(l)] *)
Definition len {A : Type} (l : list A) : Z := Z.of_nat (List.length l).

(** [range(n)]: empty when [n <= 0]. *)
Definition range (n : Z) : list Z := map Z.of_nat (seq 0 (Z.to_nat n)).

(** [sum(...)] over integers. *)
Definition sum (l : list Z) : Z := fold_right Z.add 0 l.

(** [a // b] on integers: floor division, [ZeroDivisionError] on [b = 0]. *)
Definition floordiv (a b : Z) : result Z :=
  if b =? 0 then Raise ZeroDivisionError else Ok (a / b).

(** [l.pop()]: removes and returns the last element; [IndexError] on
    the empty list. *)
Definition pop {A : Type} (l : list A) : result (A * list A) :=
  match List.rev l with
  | [] => Raise IndexError
  | x :: r => Ok (x, List.rev r)
  end.

(** [x in l] for a list of strings. *)
Definition contains (l : list string) (x : string) : bool :=
  existsb (String.eqb x) l.

(** [str(z)], the decimal representation. *)
Definition str (z : Z) : string := DecimalString.NilZero.string_of_int (Z.to_int z).

(** A [for] loop whose body may raise. *)
Fixpoint foldM {A S : Type} (body : S -> A -> result S) (l : list A) (s : S)
  : result S :=
  match l with
  | [] => Ok s
  | x :: l' => s' <- body s x ;; foldM body l' s'
  end.

(** A list comprehension [[x for x in l if p x]] whose condition may
    raise. *)
Fixpoint comprehension {A : Type} (p : A -> result bool) (l : list A)
  : result (list A) :=
  match l with
  | [] => Ok []
  | x :: l' =>
      b <- p x ;;
      r <- comprehension p l' ;;
      Ok (if b then x :: r else r)
  end.

(** [any(p x for x in l)]: stops at the first [True]. *)
Fixpoint any {A : Type} (p : A -> result bool) (l : list A) : result bool :=
  match l with
  | [] => Ok false
  | x :: l' => b <- p x ;; if b then Ok true else any p l'
  end.

(** ** Dictionaries with string keys, in insertion order *)

Module Dict.
Section WithValues.
Context {V : Type}.

Definition t : Type := list (string * V).

Definition empty : t := [].

Fixpoint get (d : t) (k : string) : option V :=
    match d with
    | [] => None
    | (k', v) :: d' => if String.eqb k' k then Some v else get d' k
    end.

  (** [k in d] *)
Definition mem (d : t) (k : string) : bool :=
    match get d k with Some _ => true | None => false end.

  (** [d[k]] *)
Definition getitem (d : t) (k : string) : result V :=
    match get d k with Some v => Ok v | None => Raise KeyError end.

  (** [d.get(k, default)] *)
Definition get_default (d : t) (k : string) (default : V) : V :=
    match get d k with Some v => v | None => default end.

  (** [d[k] = v]: an existing key keeps its position, a new key goes
      last. *)
Fixpoint set (d : t) (k : string) (v : V) : t :=
    match d with
    | [] => [(k, v)]
    | (k', v') :: d' =>
        if String.eqb k' k then (k', v) :: d' else (k', v') :: set d' k v
    end.

Definition keys (d : t) : list string := map fst d.
Definition values (d : t) : list V := map snd d.
Definition items (d : t) : list (string * V) := d.

  (** Pairwise distinct keys. *)
Definition wf (d : t) : Prop := NoDup (keys d).
End WithValues.
Arguments t V : clear implicits.
End Dict.

(** ** The data model *)

(** [groups]: group name to the list of its members. *)
Definition Groups : Type := Dict.t (list string).

(** [student_to_friends]: student to the friends they chose. *)
Definition Friends : Type := Dict.t (list string).

(** All members of a partition, group after group. *)
Definition members_of (groups : Groups) : list string :=
  List.concat (Dict.values groups).

(** The sizes of the groups, in iteration order. *)
Definition sizes (groups : Groups) : list Z := map len (Dict.values groups).

(** ** assign_students_to_groups *)

(** [f"Group{i+1}"] *)
Definition group_name (i : Z) : string := String.append "Group" (str (i + 1)).

(** [{f"Group{i+1}": [] for i in range(num_groups)}] *)
Definition init_groups (num_groups : Z) : Groups :=
  fold_left (fun d i => Dict.set d (group_name i) []) (range num_groups)
            Dict.empty.

(** [best_score] starts at [-float('inf')]. *)
Inductive score : Type :=
| NegInf
| Fin (z : Z).

(** [s > best_score] *)
Definition score_gt (s : Z) (best_score : score) : bool :=
  match best_score with
  | NegInf => true
  | Fin b => b <? s
  end.

(** [sum(1 for f in friends if f in members)] *)
Definition friend_score (friends members : list string) : Z :=
  sum (map (fun _ => 1) (filter (contains members) friends)).

(** The score of one group for one student:
    [friend_score * 10 - size_penalty]. *)
Definition group_score (student_to_friends : Friends) (student : string)
           (members : list string) : Z :=
  let friend_score :=
    friend_score (Dict.get_default student_to_friends student []) members in
  let size_penalty := len members in
  friend_score * 10 - size_penalty.

(** One iteration of the inner loop over [groups.items()]. *)
Definition choose_step (student_to_friends : Friends)
           (student_to_group : Dict.t string) (student : string)
           (best : option string * score) (item : string * list string)
  : option string * score :=
  let '(group, members) := item in
  if Dict.mem student_to_group student then best
  else
    let score := group_score student_to_friends student members in
    if score_gt score (snd best) then (Some group, Fin score) else best.

(** The inner loop: [(best_group, best_score)] after all groups. *)
Definition choose_group (student_to_friends : Friends)
           (student_to_group : Dict.t string) (groups : Groups)
           (student : string) : option string * score :=
  fold_left (choose_step student_to_friends student_to_group student)
            (Dict.items groups) (None, NegInf).

(** The body of the outer loop. *)
Definition assign_student (student_to_friends : Friends)
           (st : Groups * Dict.t string) (student : string)
  : result (Groups * Dict.t string) :=
  let '(groups, student_to_group) := st in
  match fst (choose_group student_to_friends student_to_group groups student)
  with
  | Some best_group =>
      members <- Dict.getitem groups best_group ;;
      Ok (Dict.set groups best_group (members ++ [student]),
          Dict.set student_to_group student best_group)
  | None => Ok st
  end.

(** The greedy placement of an already ordered list of students: the
    function without its call of [shuffle]. *)
Definition assign_in_order (students : list string)
           (student_to_friends : Friends) (num_groups : Z) : result Groups :=
  '(groups, _) <- foldM (assign_student student_to_friends) students
                        (init_groups num_groups, Dict.empty) ;;
  Ok groups.

(** ** balance_groups *)

(** [[g for g in group_list if len(groups[g]) > target_size + 1]] *)
Definition overfilled (groups : Groups) (group_list : list string)
           (target_size : Z) : result (list string) :=
  comprehension
    (fun g => members <- Dict.getitem groups g ;;
              Ok (target_size + 1 <? len members))
    group_list.

(** [[g for g in group_list if len(groups[g]) < target_size]] *)
Definition underfilled (groups : Groups) (group_list : list string)
           (target_size : Z) : result (list string) :=
  comprehension
    (fun g => members <- Dict.getitem groups g ;;
              Ok (len members <? target_size))
    group_list.

(** One pass through the body of [while True]: [None] is [break],
    [Some groups'] the dictionary after one student was moved. *)
Definition balance_step (groups : Groups) (group_list : list string)
           (target_size : Z) : result (option Groups) :=
  overfilled <- overfilled groups group_list target_size ;;
  underfilled <- underfilled groups group_list target_size ;;
  match overfilled, underfilled with
  | donor :: _, receiver :: _ =>
      donor_members <- Dict.getitem groups donor ;;
      '(student, rest) <- pop donor_members ;;
      let groups := Dict.set groups donor rest in
      receiver_members <- Dict.getitem groups receiver ;;
      Ok (Some (Dict.set groups receiver (receiver_members ++ [student])))
  | _, _ => Ok None
  end.

(** The [while True] loop, on fuel. *)
Fixpoint balance_loop (fuel : nat) (groups : Groups)
         (group_list : list string) (target_size : Z) : result Groups :=
  match fuel with
  | O => Timeout
  | S fuel' =>
      next <- balance_step groups group_list target_size ;;
      match next with
      | None => Ok groups
      | Some groups' => balance_loop fuel' groups' group_list target_size
      end
  end.

(** The total absolute deviation of the group sizes from the target. *)
Definition total_deviation (groups : Groups) (target_size : Z) : Z :=
  sum (map (fun size => Z.abs (size - target_size)) (sizes groups)).

(** Fuel that the loop never exhausts (theorems [balance_loop_enough_fuel]
    and [balance_loop_fuel_irrelevant] below). *)
Definition balance_fuel (groups : Groups) (target_size : Z) : nat :=
  S (Z.to_nat (total_deviation groups target_size)).

Definition balance_groups (groups : Groups) (target_size : Z)
  : result Groups :=
  let group_list := Dict.keys groups in
  balance_loop (balance_fuel groups target_size) groups group_list
               target_size.

(** ** evaluate_friend_success *)

(** [{student: group for group, members in groups.items()
                      for student in members}] *)
Definition build_student_to_group (groups : Groups) : Dict.t string :=
  fold_left
    (fun d (item : string * list string) =>
       let '(group, members) := item in
       fold_left (fun d student => Dict.set d student group) members d)
    (Dict.items groups) Dict.empty.

(** [f in student_to_group and student_to_group[f] == group] *)
Definition friend_in_group (student_to_group : Dict.t string)
           (group : string) (f : string) : result bool :=
  if Dict.mem student_to_group f then
    group_of_f <- Dict.getitem student_to_group f ;;
    Ok (String.eqb group_of_f group)
  else Ok false.

(** The body of the loop over [student_to_friends.items()]; the state
    is [(total, success)]. *)
Definition evaluate_step (student_to_group : Dict.t string)
           (st : Z * Z) (item : string * list string) : result (Z * Z) :=
  let '(total, success) := st in
  let '(student, friends) := item in
  if negb (Dict.mem student_to_group student) then Ok st
  else
    group <- Dict.getitem student_to_group student ;;
    hit <- any (friend_in_group student_to_group group) friends ;;
    let success := if hit then success + 1 else success in
    Ok (total + 1, success).

(** *** Floating point *)

(** The integer nearest to [a / b], for [0 <= a] and [0 < b]; a tie
    goes to the even neighbour. *)
Definition round_half_even (a b : Z) : Z :=
  let q := a / b in
  let r := a mod b in
  if 2 * r <? b then q
  else if b <? 2 * r then q + 1
  else if Z.even q then q else q + 1.

(** The exponent [e] of the binary64 number nearest to [n / d]:
    [2 ^ 52 <= (n / d) / 2 ^ e < 2 ^ 53]. *)
Definition double_exponent (n d : positive) : Z :=
  let k := Z.log2 (Zpos n) - Z.log2 (Zpos d) in
  let at_least_2k :=
    if 0 <=? k then Zpos d * 2 ^ k <=? Zpos n
    else Zpos d <=? Zpos n * 2 ^ (- k) in
  if at_least_2k then k - 52 else k - 53.

(** [n / d] rounded to a significand of 53 bits. *)
Definition round_double_pos (n d : positive) : Q :=
  let e := double_exponent n d in
  if 0 <=? e then
    inject_Z (round_half_even (Zpos n) (Zpos d * 2 ^ e) * 2 ^ e)
  else
    Qmake (round_half_even (Zpos n * 2 ^ (- e)) (Zpos d))
          (Z.to_pos (2 ^ (- e))).

(** The binary64 number nearest to [x]. *)
Definition round_double (x : Q) : Q :=
  match Qnum x with
  | Z0 => 0%Q
  | Zpos n => round_double_pos n (Qden x)
  | Zneg n => Qopp (round_double_pos n (Qden x))
  end.

(** The unit roundoff of binary64, [2 ^ -53]. *)
Definition double_eps : Q := 1 # 9007199254740992.

(** [(success / total) * 100 if total > 0 else 0]: the true division
    of two integers is the correctly rounded quotient, and the product
    with [100] is rounded again. *)
Definition percent_of (success total : Z) : Q :=
  if 0 <? total
  then round_double (round_double (inject_Z success / inject_Z total) * 100)
  else 0%Q.

(** The same expression on the binary64 numbers of the kernel, read
    back as a rational; [None] for an infinity or a NaN. *)
Definition Q_of_float (f : PrimFloat.float) : option Q :=
  match FloatOps.Prim2SF f with
  | SpecFloat.S754_zero _ => Some 0%Q
  | SpecFloat.S754_finite s m e =>
      let v := if 0 <=? e then inject_Z (Zpos m * 2 ^ e)
               else Qmake (Zpos m) (Z.to_pos (2 ^ (- e))) in
      Some (if s then Qopp v else v)
  | _ => None
  end.

Definition float_of_int (z : Z) : PrimFloat.float :=
  PrimFloat.of_uint63 (Uint63.of_Z z).

Definition percent_binary64 (success total : Z) : option Q :=
  if 0 <? total then
    Q_of_float (PrimFloat.mul
                  (PrimFloat.div (float_of_int success) (float_of_int total))
                  (float_of_int 100))
  else Some 0%Q.

(** All pairs [(success, total)] with [0 <= success <= total <= n]. *)
Definition count_pairs (n : nat) : list (Z * Z) :=
  flat_map (fun t => map (fun s => (Z.of_nat s, Z.of_nat t)) (seq 0 (S t)))
           (seq 0 (S n)).

Definition percent_agrees (p : Z * Z) : bool :=
  match percent_binary64 (fst p) (snd p) with
  | Some q => Qeq_bool q (percent_of (fst p) (snd p))
  | None => false
  end.

(** Returns [(percent, success, total)]. *)
Definition evaluate_friend_success (groups : Groups)
           (student_to_friends : Friends) : result (Q * Z * Z) :=
  let student_to_group := build_student_to_group groups in
  '(total, success) <- foldM (evaluate_step student_to_group)
                             (Dict.items student_to_friends) (0, 0) ;;
  Ok (percent_of success total, success, total).

(** ** load_students *)

(** One row of the spreadsheet; a blank cell ([NaN]) is [None]. *)
Record row : Type := {
  row_student : string;
  row_friend1 : option string;
  row_friend2 : option string
}.

Definition row_friends (r : row) : list string :=
  let friends := [] in
  let friends := match row_friend1 r with
                 | Some f => friends ++ [f]
                 | None => friends
                 end in
  match row_friend2 r with
  | Some f => friends ++ [f]
  | None => friends
  end.

(** [load_students] on the rows that [pd.read_excel] delivered. *)
Definition load_students (file : list row) : list string * Friends :=
  fold_left
    (fun (acc : list string * Friends) r =>
       let '(students, student_to_friends) := acc in
       (students ++ [row_student r],
        Dict.set student_to_friends (row_student r) (row_friends r)))
    file ([], Dict.empty).

(** ** export_assignments_to_excel *)

(** A row of the data frame. *)
Record export_row : Type := {
  exp_group : string;
  exp_student : string;
  exp_friends_chosen : string;
  exp_friends_in_group : string;
  exp_success : bool
}.

Definition export_rows_of_group (student_to_friends : option Friends)
           (rows : list export_row) (item : string * list string)
  : result (list export_row) :=
  let '(group, members) := item in
  foldM
    (fun rows student =>
       match student_to_friends with
       | None => Raise AttributeError
       | Some student_to_friends =>
           let friends := Dict.get_default student_to_friends student [] in
           let friends_in_group := filter (contains members) friends in
           Ok (rows ++ [{| exp_group := group;
                           exp_student := student;
                           exp_friends_chosen := String.concat ", " friends;
                           exp_friends_in_group :=
                             String.concat ", " friends_in_group;
                           exp_success :=
                             match friends_in_group with
                             | [] => false
                             | _ => true
                             end |}])
       end)
    members rows.

(** The list [rows] of lines 139 to 152; [groups.items()] on [None]
    raises [AttributeError]. *)
Definition export_rows (groups : option Groups)
           (student_to_friends : option Friends) : result (list export_row) :=
  match groups with
  | None => Raise AttributeError
  | Some groups =>
      foldM (export_rows_of_group student_to_friends) (Dict.items groups) []
  end.

(** The order of [df.sort_values(by=["Group", "Student"])]: by group
    name, then by student, both compared as strings. *)
Definition row_le (r1 r2 : export_row) : bool :=
  match String.compare (exp_group r1) (exp_group r2) with
  | Lt => true
  | Gt => false
  | Eq => String.leb (exp_student r1) (exp_student r2)
  end.

Fixpoint insert_row (r : export_row) (sorted : list export_row)
  : list export_row :=
  match sorted with
  | [] => [r]
  | x :: rest => if row_le x r then x :: insert_row r rest
                 else r :: x :: rest
  end.

(** A stable sort: rows with equal keys keep their order. *)
Definition sort_values (rows : list export_row) : list export_row :=
  fold_left (fun sorted r => insert_row r sorted) rows [].

(** Lines 139 to 155: the rows, the data frame made of them, and its
    sorting.  The frame of an empty list has no column, and sorting it by
    ["Group"] raises [KeyError].  Returns the sorted frame, which is what
    is written to the sheet; the writing itself is outside the model. *)
Definition export_assignments_to_excel (groups : option Groups)
           (student_to_friends : option Friends) : result (list export_row) :=
  rows <- export_rows groups student_to_friends ;;
  match rows with
  | [] => Raise KeyError
  | _ :: _ => Ok (sort_values rows)
  end.

(** ** run_n_times: the records [max_values_dict] and [curr_values_dict] *)

Record values : Type := {
  val_total : Z;
  val_success : Z;
  val_percent : Q;
  val_groups : option Groups;
  val_student_to_friends : option Friends
}.

Definition initial_values : values :=
  {| val_total := 0; val_success := 0; val_percent := 0%Q;
     val_groups := None; val_student_to_friends := None |}.

(** [a > b] on percentages. *)
Definition Qgtb (a b : Q) : bool := negb (Qle_bool a b).

(** What one call of [run_smart_assignment] returns:
    [(percent, groups, student_to_friends, success, total)]. *)
Definition trial : Type := (Q * Groups * Friends * Z * Z)%type.

Definition trial_percent (t : trial) : Q :=
  let '(percent, _, _, _, _) := t in percent.

(** [curr_values_dict] after the tuple assignment of the loop body. *)
Definition values_of_trial (t : trial) : values :=
  let '(percent, groups, student_to_friends, success, total) := t in
  {| val_total := total; val_success := success; val_percent := percent;
     val_groups := Some groups;
     val_student_to_friends := Some student_to_friends |}.

(** The [if] of the loop body: the five fields of [max_values_dict]
    are overwritten from [curr_values_dict]. *)
Definition update_max (max_values_dict curr_values_dict : values) : values :=
  if Qgtb (val_percent curr_values_dict) (val_percent max_values_dict) then
    {| val_total := val_total curr_values_dict;
       val_success := val_success curr_values_dict;
       val_percent := val_percent curr_values_dict;
       val_groups := val_groups curr_values_dict;
       val_student_to_friends := val_student_to_friends curr_values_dict |}
  else max_values_dict.

Section WithShuffle.

  (** The state of the random generator and [random.shuffle]: the list
      object is permuted in place, so the model returns its new
      contents. *)
Variable Rng : Type.
Variable shuffle : Rng -> list string -> list string * Rng.

  (** Returns the generator, the contents of the caller's [students]
      list after the call, and the groups. *)
Definition assign_students_to_groups (g : Rng) (students : list string)
             (student_to_friends : Friends) (num_groups : Z)
    : result (Rng * list string * Groups) :=
    let '(students, g) := shuffle g students in
    groups <- assign_in_order students student_to_friends num_groups ;;
    Ok (g, students, groups).

  (** [filename] is replaced by the rows read from it. *)
Definition run_smart_assignment (g : Rng) (file : list row)
             (num_groups : Z) : result (Rng * trial) :=
    let '(students, student_to_friends) := load_students file in
    let '(students, g) := shuffle g students in
    '(g, students, groups) <-
      assign_students_to_groups g students student_to_friends num_groups ;;
    let total_students := len students in
    target_size <- floordiv total_students num_groups ;;
    groups <- balance_groups groups target_size ;;
    '(percent, success, total) <-
      evaluate_friend_success groups student_to_friends ;;
    Ok (g, (percent, groups, student_to_friends, success, total)).

  (** The body of [for i in range(n)]; the state is the generator,
      [max_values_dict] and [curr_values_dict]. *)
Definition run_n_times_step (file : list row) (num_groups : Z)
             (st : Rng * values * values) (i : Z)
    : result (Rng * values * values) :=
    let '(g, max_values_dict, _) := st in
    '(g, t) <- run_smart_assignment g file num_groups ;;
    let curr_values_dict := values_of_trial t in
    Ok (g, update_max max_values_dict curr_values_dict, curr_values_dict).

  (** The search loop of [run_n_times]: returns [max_values_dict]. *)
Definition run_n_times_search (g : Rng) (file : list row)
             (num_groups n : Z) : result (Rng * values) :=
    '(g, max_values_dict, _) <-
      foldM (run_n_times_step file num_groups) (range n)
            (g, initial_values, initial_values) ;;
    Ok (g, max_values_dict).

  (** The whole function: the search, then the export of the best
      groups.  Returns what is exported and printed. *)
Definition run_n_times (g : Rng) (file : list row) (num_groups n : Z)
    : result (values * list export_row) :=
    '(_, max_values_dict) <- run_n_times_search g file num_groups n ;;
    exported <- export_assignments_to_excel
                  (val_groups max_values_dict)
                  (val_student_to_friends max_values_dict) ;;
    Ok (max_values_dict, exported).

  (** The trials of a run, one after the other, without the
      bookkeeping of the best one. *)
Fixpoint run_trials (g : Rng) (file : list row) (num_groups : Z)
           (n : nat) : result (Rng * list trial) :=
    match n with
    | O => Ok (g, [])
    | S n' =>
        '(g, t) <- run_smart_assignment g file num_groups ;;
        '(g, ts) <- run_trials g file num_groups n' ;;
        Ok (g, t :: ts)
    end.

End WithShuffle.

Arguments assign_students_to_groups {Rng} shuffle g students
  student_to_friends num_groups.
Arguments run_smart_assignment {Rng} shuffle g file num_groups.
Arguments run_n_times_step {Rng} shuffle file num_groups st i.
Arguments run_n_times_search {Rng} shuffle g file num_groups n.
Arguments run_n_times {Rng} shuffle g file num_groups n.
Arguments run_trials {Rng} shuffle g file num_groups n.

(** A concrete generator for examples: the state is a counter, and the
    list is rotated by that many places. *)
Fixpoint rotate (n : nat) (l : list string) : list string :=
  match n with
  | O => l
  | S n' => match l with
            | [] => []
            | x :: l' => rotate n' (l' ++ [x])
            end
  end.

Definition rotate_shuffle (g : nat) (l : list string) : list string * nat :=
  (rotate g l, S g).


(** ** Auxiliary notions used in the statements *)

(** The invariant of the outer loop, after the students [seen]. *)
Definition assign_inv (keys0 : list string) (seen : list string)
           (st : Groups * Dict.t string) : Prop :=
  Dict.keys (fst st) = keys0
  /\ NoDup (members_of (fst st))
  /\ (forall x, In x (members_of (fst st)) <-> Dict.mem (snd st) x = true)
  /\ (forall x, In x (members_of (fst st)) -> In x seen)
  /\ (keys0 <> [] -> forall x, In x seen -> In x (members_of (fst st))).

(** [len(groups[g])], read without the possibility of a [KeyError]. *)
Definition size_of (groups : Groups) (g : string) : Z :=
  len (Dict.get_default groups g []).

Definition is_overfilled (groups : Groups) (target_size : Z) (g : string)
  : bool := target_size + 1 <? size_of groups g.

Definition is_underfilled (groups : Groups) (target_size : Z) (g : string)
  : bool := size_of groups g <? target_size.

(** The outcome of a call of [assign_students_to_groups], reduced to
    the partition it returns. *)
Definition partition_of {Rng : Type}
           (r : result (Rng * list string * Groups)) : option Groups :=
  match r with
  | Ok (_, _, groups) => Some groups
  | _ => None
  end.

(** Three students and two preference lists on which the order of
    placement matters. *)
Definition abc : list string := ["A"; "B"; "C"].
Definition abc_friends : Friends := [("A", ["B"]); ("C", ["B"])].

(** Partitions of three and of five students into three groups. *)
Definition skew_210 : Groups :=
  [("Group1", ["A"; "B"]); ("Group2", ["C"]); ("Group3", [])].
Definition skew_311 : Groups :=
  [("Group1", ["A"; "B"; "C"]); ("Group2", ["D"]); ("Group3", ["E"])].
Definition skew_401 : Groups :=
  [("Group1", ["A"; "B"; "C"; "D"]); ("Group2", []); ("Group3", ["E"])].

(** The group a student counts as being in: the last group, in
    iteration order, whose member list contains the student. *)
Fixpoint group_of (groups : Groups) (x : string) : option string :=
  match groups with
  | [] => None
  | (g, members) :: rest =>
      match group_of rest x with
      | Some g' => Some g'
      | None => if contains members x then Some g else None
      end
  end.

(** The student appears in the partition. *)
Definition placed (groups : Groups) (x : string) : bool :=
  contains (members_of groups) x.

(** At least one of the friends is in the same group as the student. *)
Definition has_friend_in_group (groups : Groups) (x : string)
           (friends : list string) : bool :=
  existsb
    (fun f => match group_of groups f, group_of groups x with
              | Some gf, Some g => String.eqb gf g
              | _, _ => false
              end)
    friends.

(** The students of the preference data that appear in the partition,
    and those among them with a friend in their group. *)
Definition count_evaluated (groups : Groups) (student_to_friends : Friends)
  : Z :=
  len (filter (fun item => placed groups (fst item)) student_to_friends).

Definition count_success (groups : Groups) (student_to_friends : Friends)
  : Z :=
  len (filter (fun item => placed groups (fst item)
                           && has_friend_in_group groups (fst item) (snd item))%bool
              student_to_friends).

(** The preference lists with every friend outside [population]
    removed. *)
Definition prune (population : list string) (student_to_friends : Friends)
  : Friends :=
  map (fun item => (fst item, filter (contains population) (snd item)))
      student_to_friends.

(** The fixture of the evaluator: A and B chose each other, C chose D,
    D chose nobody. *)
Definition fixture_groups : Groups :=
  [("G1", ["A"; "B"]); ("G2", ["C"; "D"])].
Definition fixture_friends : Friends :=
  [("A", ["B"]); ("B", ["A"]); ("C", ["D"]); ("D", [])].

(** The best-so-far record after the records [vs] of successive
    trials, starting from [best]. *)
Definition best_of (vs : list values) (best : values) : values :=
  fold_left update_max vs best.

(** A spreadsheet with three students; B names a friend who is not a
    student. *)
Definition demo_file : list row :=
  [ {| row_student := "A"; row_friend1 := Some "B"; row_friend2 := None |};
    {| row_student := "B"; row_friend1 := Some "A"; row_friend2 := Some "Z" |};
    {| row_student := "C"; row_friend1 := None; row_friend2 := Some "A" |} ].

(** The generator after the two shuffles of one trial: the one of
    [run_smart_assignment] and the one of [assign_students_to_groups]. *)
Definition rng_after_trial {Rng : Type}
           (shuffle : Rng -> list string -> list string * Rng) (g : Rng)
           (students : list string) : Rng :=
  snd (shuffle (snd (shuffle g students)) (fst (shuffle g students))).

(** ** build_friend_graph *)

(** An undirected [networkx.Graph], as far as [has_node] and
    [has_edge] observe it: the nodes in insertion order and the edges as
    they were added. *)
Record graph : Type := {
  graph_nodes : list string;
  graph_edges : list (string * string)
}.

Definition empty_graph : graph := {| graph_nodes := []; graph_edges := [] |}.

Definition has_node (G : graph) (n : string) : bool :=
  contains (graph_nodes G) n.

Definition has_edge (G : graph) (u v : string) : bool :=
  existsb (fun e => (String.eqb (fst e) u && String.eqb (snd e) v)
                    || (String.eqb (fst e) v && String.eqb (snd e) u))%bool
          (graph_edges G).

(** [G.add_node(n)]: no effect on a node that is present. *)
Definition add_node (G : graph) (n : string) : graph :=
  if has_node G n then G
  else {| graph_nodes := graph_nodes G ++ [n];
          graph_edges := graph_edges G |}.

(** [G.add_edge(u, v)]: adds the end points when absent, then the
    edge. *)
Definition add_edge (G : graph) (u v : string) : graph :=
  let G := add_node (add_node G u) v in
  if has_edge G u v then G
  else {| graph_nodes := graph_nodes G;
          graph_edges := graph_edges G ++ [(u, v)] |}.

Definition build_friend_graph (students : list string)
           (student_to_friends : Friends) : graph :=
  fold_left
    (fun G student =>
       let G := add_node G student in
       fold_left (fun G friend => add_edge G student friend)
                 (Dict.get_default student_to_friends student []) G)
    students empty_graph.

(** ** Notions for the remaining functions *)

(** Scores with minus infinity, ordered. *)
Definition score_le (a b : score) : Prop :=
  match a, b with
  | NegInf, _ => True
  | Fin _, NegInf => False
  | Fin x, Fin y => x <= y
  end.

(** How a member list may change under balancing with target [T]:
    not at all, by losing a non-empty tail while keeping more than [T]
    members, or by gaining a non-empty tail while reaching at most [T]. *)
Definition settled (T : Z) (m m' : list string) : Prop :=
  m' = m
  \/ (exists removed, removed <> [] /\ m = m' ++ removed /\ T + 1 <= len m')
  \/ (exists added, added <> [] /\ m' = m ++ added /\ len m' <= T).

(** The row that the export writes for one student of one group. *)
Definition export_row_for (student_to_friends : Friends) (group : string)
           (members : list string) (student : string) : export_row :=
  let friends := Dict.get_default student_to_friends student [] in
  let friends_in_group := filter (contains members) friends in
  {| exp_group := group;
     exp_student := student;
     exp_friends_chosen := String.concat ", " friends;
     exp_friends_in_group := String.concat ", " friends_in_group;
     exp_success := match friends_in_group with [] => false | _ => true end |}.

(** A partition proper: distinct group names, nobody listed twice. *)
Definition partition (groups : Groups) : Prop :=
  Dict.wf groups /\ NoDup (members_of groups).

(** What a trial of [run_smart_assignment] on [file] with [num_groups]
    groups delivers. *)
Definition trial_of (file : list row) (num_groups : Z) (t : trial) : Prop :=
  exists groups,
    let student_to_friends := snd (load_students file) in
    t = (percent_of (count_success groups student_to_friends)
                    (count_evaluated groups student_to_friends),
         groups, student_to_friends,
         count_success groups student_to_friends,
         count_evaluated groups student_to_friends)
    /\ Dict.keys groups = map group_name (range num_groups)
    /\ partition groups
    /\ (forall x, In x (members_of groups)
                  <-> In x (map row_student file)).

(** A spreadsheet in which A appears twice. *)
Definition twice_file : list row :=
  [ {| row_student := "A"; row_friend1 := Some "B"; row_friend2 := None |};
    {| row_student := "B"; row_friend1 := None; row_friend2 := None |};
    {| row_student := "A"; row_friend1 := None; row_friend2 := Some "C" |} ].

(** A spreadsheet in which nobody names a friend. *)
Definition lonely_file : list row :=
  [ {| row_student := "A"; row_friend1 := None; row_friend2 := None |};
    {| row_student := "B"; row_friend1 := None; row_friend2 := None |} ].

(** Group sizes that differ by at most one. *)
Definition even_sizes (groups : Groups) : Prop :=
  forall g1 m1 g2 m2,
    In (g1, m1) groups -> In (g2, m2) groups -> len m1 <= len m2 + 1.

(** * Facts about the embedding *)

(** ** Strings and lists *)

Lemma contains_In (l : list string) (x : string) :
  contains l x = true <-> In x l.
Proof.
  unfold contains. rewrite existsb_exists. split.
  - intros (y & Hy & E). apply String.eqb_eq in E. now subst.
  - intros H. exists x. split; [assumption | apply String.eqb_refl].
Qed.

Lemma contains_false (l : list string) (x : string) :
  contains l x = false <-> ~ In x l.
Proof.
  rewrite <- contains_In. destruct (contains l x); split; congruence.
Qed.

Lemma len_app {A : Type} (l1 l2 : list A) : len (l1 ++ l2) = len l1 + len l2.
Proof. unfold len. rewrite length_app. lia. Qed.

Lemma len_nonneg {A : Type} (l : list A) : 0 <= len l.
Proof. unfold len. lia. Qed.

Lemma sum_app (l1 l2 : list Z) : sum (l1 ++ l2) = sum l1 + sum l2.
Proof. unfold sum. induction l1; simpl; lia. Qed.

Lemma sum_ones {A : Type} (l : list A) : sum (map (fun _ => 1) l) = len l.
Proof.
  unfold sum, len. induction l as [|x l IH]; [reflexivity|].
  cbn [map fold_right List.length]. rewrite Nat2Z.inj_succ. lia.
Qed.

Lemma pop_snoc {A : Type} (l : list A) (x : A) : pop (l ++ [x]) = Ok (x, l).
Proof. unfold pop. rewrite rev_app_distr. simpl. now rewrite rev_involutive. Qed.

Lemma pop_nonempty {A : Type} (l : list A) :
  l <> [] -> exists x r, l = r ++ [x] /\ pop l = Ok (x, r).
Proof.
  intros H. destruct (exists_last H) as (r & x & ->).
  exists x, r. split; [reflexivity | apply pop_snoc].
Qed.

(** ** The dictionary operations *)

Module DictFacts.
Section WithValues.
Context {V : Type}.
Implicit Types (d : Dict.t V) (k : string) (v : V).

Lemma get_In_keys d k v : Dict.get d k = Some v -> In k (Dict.keys d).
Proof.
    induction d as [|[k' v'] d IH]; simpl; [discriminate|].
    destruct (String.eqb_spec k' k); auto.
Qed.

Lemma In_keys_get d k : In k (Dict.keys d) -> exists v, Dict.get d k = Some v.
Proof.
    induction d as [|[k' v'] d IH]; simpl; [tauto|].
    intros [->|H].
    - rewrite String.eqb_refl. eauto.
    - destruct (String.eqb k' k); eauto.
Qed.

Lemma get_None d k : Dict.get d k = None <-> ~ In k (Dict.keys d).
Proof.
    split.
    - intros E H. apply In_keys_get in H as (v & H). congruence.
    - intros H. destruct (Dict.get d k) eqn:E; [|reflexivity].
      apply get_In_keys in E. contradiction.
Qed.

Lemma mem_In_keys d k : Dict.mem d k = true <-> In k (Dict.keys d).
Proof.
    unfold Dict.mem. split.
    - destruct (Dict.get d k) eqn:E; [|discriminate].
      intros _. eapply get_In_keys; eauto.
    - intros H. apply In_keys_get in H as (v & ->). reflexivity.
Qed.

Lemma getitem_In_keys d k :
    In k (Dict.keys d) -> exists v, Dict.getitem d k = Ok v /\ Dict.get d k = Some v.
Proof.
    intros H. apply In_keys_get in H as (v & H). exists v.
    unfold Dict.getitem. now rewrite H.
Qed.

  (** A key that is present sits at a first position, and assignment
      overwrites exactly that position. *)
Lemma get_split d k v :
    Dict.get d k = Some v ->
    exists d1 d2, d = d1 ++ (k, v) :: d2 /\ ~ In k (Dict.keys d1).
Proof.
    induction d as [|[k' v'] d IH]; simpl; [discriminate|].
    destruct (String.eqb_spec k' k) as [->|Hne].
    - intros [= ->]. exists [], d. simpl. tauto.
    - intros H. destruct (IH H) as (d1 & d2 & -> & Hn).
      exists ((k', v') :: d1), d2. simpl. split; [reflexivity|]. tauto.
Qed.

Lemma get_middle d1 d2 k v :
    ~ In k (Dict.keys d1) -> Dict.get (d1 ++ (k, v) :: d2) k = Some v.
Proof.
    induction d1 as [|[k' v'] d1 IH]; simpl; intros H.
    - now rewrite String.eqb_refl.
    - destruct (String.eqb_spec k' k); [tauto | apply IH; tauto].
Qed.

Lemma set_middle d1 d2 k v v' :
    ~ In k (Dict.keys d1) ->
    Dict.set (d1 ++ (k, v) :: d2) k v' = d1 ++ (k, v') :: d2.
Proof.
    induction d1 as [|[k' v''] d1 IH]; simpl; intros H.
    - now rewrite String.eqb_refl.
    - destruct (String.eqb_spec k' k); [tauto | rewrite IH; tauto].
Qed.

Lemma set_absent d k v :
    ~ In k (Dict.keys d) -> Dict.set d k v = d ++ [(k, v)].
Proof.
    induction d as [|[k' v'] d IH]; simpl; intros H; [reflexivity|].
    destruct (String.eqb_spec k' k); [tauto | rewrite IH; tauto].
Qed.

Lemma get_set_same d k v : Dict.get (Dict.set d k v) k = Some v.
Proof.
    induction d as [|[k' v'] d IH]; simpl.
    - now rewrite String.eqb_refl.
    - destruct (String.eqb_spec k' k) as [->|Hne]; simpl.
      + now rewrite String.eqb_refl.
      + destruct (String.eqb_spec k' k); [contradiction | exact IH].
Qed.

Lemma get_set_other d k k' v :
    k <> k' -> Dict.get (Dict.set d k v) k' = Dict.get d k'.
Proof.
    intros Hne. induction d as [|[k0 v0] d IH]; simpl.
    - destruct (String.eqb_spec k k'); [contradiction | reflexivity].
    - destruct (String.eqb_spec k0 k) as [->|H0]; simpl.
      + destruct (String.eqb_spec k k'); [contradiction | reflexivity].
      + destruct (String.eqb_spec k0 k'); [reflexivity | exact IH].
Qed.

Lemma keys_set_present d k v :
    In k (Dict.keys d) -> Dict.keys (Dict.set d k v) = Dict.keys d.
Proof.
    intros H. apply In_keys_get in H as (v0 & H).
    apply get_split in H as (d1 & d2 & -> & Hn).
    rewrite set_middle by assumption.
    unfold Dict.keys. now rewrite !map_app.
Qed.

Lemma mem_set d k k' v :
    Dict.mem (Dict.set d k v) k' = (String.eqb k k' || Dict.mem d k')%bool.
Proof.
    unfold Dict.mem. destruct (String.eqb_spec k k') as [->|Hne].
    - now rewrite get_set_same.
    - now rewrite get_set_other.
Qed.

Lemma wf_get_In d k v : Dict.wf d -> In (k, v) d -> Dict.get d k = Some v.
Proof.
    unfold Dict.wf. induction d as [|[k' v'] d IH]; simpl; [tauto|].
    intros Hnd [[= -> ->]|Hin].
    - now rewrite String.eqb_refl.
    - inversion Hnd as [|? ? Hnotin Hnd']; subst.
      destruct (String.eqb_spec k' k) as [->|Hne].
      + exfalso. apply Hnotin. change k with (fst (k, v)). now apply in_map.
      + now apply IH.
Qed.

Lemma get_In d k v : Dict.get d k = Some v -> In (k, v) d.
Proof.
    intros H. apply get_split in H as (d1 & d2 & -> & _).
    apply in_or_app. right. now left.
Qed.
End WithValues.
End DictFacts.

(** ** The group names and the initial dictionary *)

Lemma to_int_normal (z : Z) : Decimal.norm (Z.to_int z) = Z.to_int z.
Proof. now rewrite <- DecimalZ.to_of, DecimalZ.of_to. Qed.

Lemma to_int_not_nil (z : Z) :
  Z.to_int z <> Decimal.Pos Decimal.Nil /\ Z.to_int z <> Decimal.Neg Decimal.Nil.
Proof.
  rewrite <- to_int_normal. destruct (Z.to_int z) as [d|d]; simpl.
  - split; [|discriminate]. intros [= H]. now apply DecimalFacts.unorm_nonnil in H.
  - destruct (Decimal.nzhead d) eqn:E; split; discriminate.
Qed.

Lemma str_inj (z z' : Z) : str z = str z' -> z = z'.
Proof.
  unfold str. intros H.
  apply DecimalZ.to_int_inj.
  destruct (to_int_not_nil z) as [H1 H2], (to_int_not_nil z') as [H1' H2'].
  pose proof (DecimalString.NilZero.isi _ H1 H2) as E.
  pose proof (DecimalString.NilZero.isi _ H1' H2') as E'.
  rewrite H in E. congruence.
Qed.

Lemma group_name_inj (i j : Z) : group_name i = group_name j -> i = j.
Proof.
  unfold group_name. simpl. intros [= H]. apply str_inj in H. lia.
Qed.

Lemma range_NoDup (n : Z) : NoDup (range n).
Proof.
  unfold range. apply Finite.Injective_map_NoDup.
  - intros a b. apply Nat2Z.inj.
  - apply seq_NoDup.
Qed.

Lemma range_nonempty (n : Z) : 1 <= n -> range n <> [].
Proof.
  intros H. unfold range.
  replace (Z.to_nat n) with (S (Z.to_nat (n - 1))) by lia.
  discriminate.
Qed.

Lemma range_nonpos (n : Z) : n <= 0 -> range n = [].
Proof. intros H. unfold range. now replace (Z.to_nat n) with O by lia. Qed.

Lemma length_range (n : Z) : List.length (range n) = Z.to_nat n.
Proof. unfold range. now rewrite length_map, length_seq. Qed.

(** Filling a dictionary with fresh keys appends them in order. *)
Lemma fold_set_fresh {V : Type} (name : Z -> string) (v : V) (l : list Z)
      (d : Dict.t V) :
  NoDup (map name l) ->
  (forall i, In i l -> ~ In (name i) (Dict.keys d)) ->
  fold_left (fun d i => Dict.set d (name i) v) l d
  = d ++ map (fun i => (name i, v)) l.
Proof.
  revert d. induction l as [|i l IH]; intros d Hnd Hfresh; simpl.
  - now rewrite app_nil_r.
  - inversion Hnd as [|? ? Hni Hnd']; subst.
    rewrite DictFacts.set_absent by (apply Hfresh; now left).
    rewrite IH; [now rewrite <- app_assoc | assumption |].
    intros j Hj. unfold Dict.keys. rewrite map_app, in_app_iff. simpl.
    intros [H|[H|[]]].
    + apply (Hfresh j); [now right | exact H].
    + apply Hni. simpl in H. rewrite H. now apply in_map.
Qed.

Lemma init_groups_eq (num_groups : Z) :
  init_groups num_groups
  = map (fun i => (group_name i, [])) (range num_groups).
Proof.
  unfold init_groups. rewrite fold_set_fresh; [reflexivity | | intros i _ []].
  apply Finite.Injective_map_NoDup; [|apply range_NoDup].
  intros a b. apply group_name_inj.
Qed.

Lemma init_groups_wf (num_groups : Z) : Dict.wf (init_groups num_groups).
Proof.
  unfold Dict.wf, Dict.keys. rewrite init_groups_eq, map_map. simpl.
  apply Finite.Injective_map_NoDup; [|apply range_NoDup].
  intros a b. apply group_name_inj.
Qed.

Lemma init_groups_members (num_groups : Z) :
  members_of (init_groups num_groups) = [].
Proof.
  unfold members_of, Dict.values. rewrite init_groups_eq, map_map. simpl.
  induction (range num_groups); simpl; auto.
Qed.

Lemma init_groups_nonempty (num_groups : Z) :
  1 <= num_groups -> init_groups num_groups <> [].
Proof.
  intros H. rewrite init_groups_eq.
  pose proof (range_nonempty _ H). destruct (range num_groups); [congruence|].
  discriminate.
Qed.

Lemma init_groups_nonpos (num_groups : Z) :
  num_groups <= 0 -> init_groups num_groups = [].
Proof. intros H. unfold init_groups. now rewrite range_nonpos. Qed.

Lemma length_init_groups (num_groups : Z) :
  List.length (init_groups num_groups) = Z.to_nat num_groups.
Proof. now rewrite init_groups_eq, length_map, length_range. Qed.

(** ** Loops *)

(** A loop whose body never raises and maintains an invariant indexed
    by the elements already visited. *)
Lemma foldM_invariant {A S : Type} (body : S -> A -> result S)
      (I : list A -> S -> Prop) :
  (forall seen s x, I seen s -> exists s', body s x = Ok s' /\ I (seen ++ [x]) s') ->
  forall l seen s, I seen s ->
  exists s', foldM body l s = Ok s' /\ I (seen ++ l) s'.
Proof.
  intros Hbody. induction l as [|x l IH]; intros seen s HI; simpl.
  - exists s. now rewrite app_nil_r.
  - destruct (Hbody seen s x HI) as (s1 & -> & HI1). simpl.
    destruct (IH _ _ HI1) as (s' & E & HI').
    exists s'. split; [exact E|]. now rewrite <- app_assoc in HI'.
Qed.

Lemma foldM_ext_in {A S : Type} (body body' : S -> A -> result S)
      (P : S -> Prop) (l : list A) :
  (forall s x, In x l -> P s -> body s x = body' s x) ->
  (forall s x s', In x l -> P s -> body s x = Ok s' -> P s') ->
  forall s, P s -> foldM body l s = foldM body' l s.
Proof.
  induction l as [|x l IH]; intros Hext Hpres s HP; simpl; [reflexivity|].
  rewrite <- (Hext s x (or_introl eq_refl) HP).
  destruct (body s x) as [s1| |] eqn:E; simpl; try reflexivity.
  apply IH.
  - intros s0 y Hy. apply Hext. now right.
  - intros s0 y s' Hy. apply Hpres. now right.
  - eapply Hpres; eauto. now left.
Qed.

Lemma fold_left_ext_in {A B : Type} (f f' : B -> A -> B) (l : list A) :
  (forall b x, In x l -> f b x = f' b x) ->
  forall b, fold_left f l b = fold_left f' l b.
Proof.
  induction l as [|x l IH]; intros Hext b; simpl; [reflexivity|].
  rewrite (Hext b x) by now left. apply IH.
  intros b0 y Hy. apply Hext. now right.
Qed.

(** ** The members of a partition *)

Lemma members_of_app (d1 d2 : Groups) :
  members_of (d1 ++ d2) = members_of d1 ++ members_of d2.
Proof. unfold members_of, Dict.values. now rewrite map_app, concat_app. Qed.

Lemma members_of_cons (k : string) (m : list string) (d : Groups) :
  members_of ((k, m) :: d) = m ++ members_of d.
Proof. reflexivity. Qed.

Lemma members_of_In (groups : Groups) (x : string) :
  In x (members_of groups) <-> exists k m, In (k, m) groups /\ In x m.
Proof.
  unfold members_of, Dict.values. rewrite in_concat. split.
  - intros (m & Hm & Hx). apply in_map_iff in Hm as ([k m'] & E & Hin).
    simpl in E. subst. eauto.
  - intros (k & m & Hin & Hx). exists m. split; [|assumption].
    change m with (snd (k, m)). now apply in_map.
Qed.

(** Appending a student to a group adds that student and nobody else. *)
Lemma members_of_append (groups : Groups) (k : string) (m : list string)
      (x : string) :
  Dict.get groups k = Some m ->
  Permutation (members_of (Dict.set groups k (m ++ [x])))
              (x :: members_of groups).
Proof.
  intros H. apply DictFacts.get_split in H as (d1 & d2 & -> & Hn).
  rewrite DictFacts.set_middle by assumption.
  rewrite !members_of_app, !members_of_cons.
  replace (members_of d1 ++ (m ++ [x]) ++ members_of d2)
    with ((members_of d1 ++ m) ++ x :: members_of d2)
    by (now rewrite <- !app_assoc).
  symmetry. apply Permutation_cons_app. now rewrite <- app_assoc.
Qed.

(** ** The greedy choice of a group *)

Section Choose.
Variable student_to_friends : Friends.
Variable student_to_group : Dict.t string.
Variable student : string.

Local Abbreviation step :=
  (choose_step student_to_friends student_to_group student) (only parsing).

Lemma choose_step_assigned (item : string * list string)
        (best : option string * score) :
    Dict.mem student_to_group student = true -> step best item = best.
Proof. intros H. unfold choose_step. destruct item. now rewrite H. Qed.

Lemma choose_step_unassigned (g : string) (m : list string)
        (best : option string * score) :
    Dict.mem student_to_group student = false ->
    step best (g, m)
    = let score := group_score student_to_friends student m in
      if score_gt score (snd best) then (Some g, Fin score) else best.
Proof. intros H. unfold choose_step. now rewrite H. Qed.

Lemma choose_fold_assigned (items : list (string * list string))
        (best : option string * score) :
    Dict.mem student_to_group student = true ->
    fold_left step items best = best.
Proof.
    intros H. revert best. induction items as [|[g m] items IH]; intros best.
    - reflexivity.
    - cbn [fold_left]. rewrite choose_step_assigned by assumption. apply IH.
Qed.

  (** The best group, when there is one, is one of the groups visited. *)
Lemma choose_fold_cases (items : list (string * list string))
        (best : option string * score) :
    fst (fold_left step items best) = fst best \/
    exists k, fst (fold_left step items best) = Some k /\ In k (map fst items).
Proof.
    revert best.
    induction items as [|[g m] items IH]; intros best; cbn [fold_left map].
    - now left.
    - destruct (IH (step best (g, m))) as [E|(k & E & Hin)].
      + rewrite E. unfold choose_step.
        destruct (Dict.mem student_to_group student); [now left|].
        destruct (score_gt _ _); [|now left].
        right. exists g. split; [reflexivity | now left].
      + right. exists k. split; [exact E | right; exact Hin].
Qed.

  (** With at least one group, an unassigned student gets a group: the
      first score beats minus infinity. *)
Lemma choose_group_some (groups : Groups) :
    Dict.mem student_to_group student = false ->
    groups <> [] ->
    exists k,
      fst (choose_group student_to_friends student_to_group groups student)
      = Some k /\ In k (Dict.keys groups).
Proof.
    intros Hmem Hne. unfold choose_group, Dict.items.
    destruct groups as [|[g m] items]; [congruence|]. cbn [fold_left].
    rewrite choose_step_unassigned by assumption. cbn [snd score_gt].
    destruct (choose_fold_cases items
                (Some g, Fin (group_score student_to_friends student m)))
      as [E|(k & E & Hin)].
    - exists g. rewrite E. split; [reflexivity | now left].
    - exists k. split; [exact E | right; exact Hin].
Qed.

Lemma choose_group_key (groups : Groups) (k : string) :
    fst (choose_group student_to_friends student_to_group groups student)
    = Some k ->
    In k (Dict.keys groups)
    /\ Dict.mem student_to_group student = false.
Proof.
    unfold choose_group, Dict.items. intros H.
    destruct (Dict.mem student_to_group student) eqn:Hmem.
    - rewrite choose_fold_assigned in H by assumption. discriminate.
    - split; [|reflexivity].
      destruct (choose_fold_cases groups (None, NegInf)) as [E|(k' & E & Hin)].
      + rewrite E in H. discriminate.
      + rewrite E in H. now injection H as <-.
Qed.
End Choose.

(** The body of the outer loop never raises; it either leaves the
    state alone or appends the student to one existing group. *)
Lemma assign_student_cases (student_to_friends : Friends) (groups : Groups)
      (student_to_group : Dict.t string) (student : string) :
  (assign_student student_to_friends (groups, student_to_group) student
   = Ok (groups, student_to_group)
   /\ (Dict.mem student_to_group student = true \/ groups = []))
  \/
  (exists k m,
      Dict.get groups k = Some m
      /\ Dict.mem student_to_group student = false
      /\ assign_student student_to_friends (groups, student_to_group) student
         = Ok (Dict.set groups k (m ++ [student]),
               Dict.set student_to_group student k)).
Proof.
  unfold assign_student.
  destruct (fst (choose_group student_to_friends student_to_group groups student))
    as [k|] eqn:E.
  - right. apply choose_group_key in E as [Hk Hmem].
    destruct (DictFacts.getitem_In_keys _ _ Hk) as (m & Hget & Hm).
    exists k, m. rewrite Hget. simpl. auto.
  - left. split; [reflexivity|].
    destruct (Dict.mem student_to_group student) eqn:Hmem; [now left|].
    right. destruct groups as [|item rest]; [reflexivity|].
    destruct (choose_group_some student_to_friends student_to_group student
                (item :: rest) Hmem) as (k & Hk & _); [discriminate|].
    congruence.
Qed.

Lemma assign_student_inv (student_to_friends : Friends)
      (keys0 seen : list string) (st : Groups * Dict.t string)
      (student : string) :
  assign_inv keys0 seen st ->
  exists st', assign_student student_to_friends st student = Ok st'
              /\ assign_inv keys0 (seen ++ [student]) st'.
Proof.
  destruct st as [groups s2g]. intros (Hk & Hnd & Hmem & Hsub & Hsup).
  simpl in *.
  destruct (assign_student_cases student_to_friends groups s2g student)
    as [[E Hwhy]|(k & m & Hget & Hnot & E)].
  - exists (groups, s2g). split; [exact E|].
    repeat split; simpl; auto.
    + now apply Hmem.
    + now apply Hmem.
    + intros x Hx. apply in_or_app. left. auto.
    + intros Hne x Hx. apply in_app_or in Hx as [Hx|[<-|[]]]; [auto|].
      destruct Hwhy as [Hin| ->]; [now apply Hmem|].
      subst keys0. now contradiction Hne.
  - exists (Dict.set groups k (m ++ [student]), Dict.set s2g student k).
    split; [exact E|].
    pose proof (members_of_append groups k m student Hget) as Hperm.
    assert (Hfresh : ~ In student (members_of groups)).
    { rewrite Hmem. congruence. }
    repeat split; simpl.
    + rewrite DictFacts.keys_set_present; [assumption|].
      eapply DictFacts.get_In_keys; eauto.
    + eapply Permutation_NoDup; [symmetry; exact Hperm|].
      now constructor.
    + intros Hx. rewrite DictFacts.mem_set.
      apply (Permutation_in _ Hperm) in Hx as [<-|Hx].
      * now rewrite String.eqb_refl.
      * apply Hmem in Hx. rewrite Hx. apply orb_true_r.
    + rewrite DictFacts.mem_set. intros Hx.
      apply (Permutation_in _ (Permutation_sym Hperm)).
      apply orb_true_iff in Hx as [Hx|Hx].
      * apply String.eqb_eq in Hx. now left.
      * right. now apply Hmem.
    + intros x Hx. apply (Permutation_in _ Hperm) in Hx as [<-|Hx].
      * apply in_or_app. right. now left.
      * apply in_or_app. left. auto.
    + intros Hne x Hx.
      apply (Permutation_in _ (Permutation_sym Hperm)).
      apply in_app_or in Hx as [Hx|[<-|[]]]; [right; auto | now left].
Qed.

(** What the greedy placement delivers, for any order of the students. *)
Lemma assign_in_order_spec (students : list string)
      (student_to_friends : Friends) (num_groups : Z) :
  exists groups,
    assign_in_order students student_to_friends num_groups = Ok groups
    /\ Dict.keys groups = Dict.keys (init_groups num_groups)
    /\ NoDup (members_of groups)
    /\ (forall x, In x (members_of groups) -> In x students)
    /\ (1 <= num_groups -> forall x, In x students -> In x (members_of groups)).
Proof.
  unfold assign_in_order.
  destruct (foldM_invariant (assign_student student_to_friends)
              (assign_inv (Dict.keys (init_groups num_groups)))
              (fun seen s x => assign_student_inv student_to_friends _ seen s x)
              students [] (init_groups num_groups, Dict.empty))
    as ([groups s2g] & E & Hk & Hnd & Hmem & Hsub & Hsup).
  - repeat split; simpl; try rewrite init_groups_members; simpl;
      try tauto; try constructor; try discriminate.
  - rewrite E. simpl in *. exists groups. repeat split; auto.
    intros Hn. apply Hsup.
    pose proof (init_groups_nonempty _ Hn).
    destruct (init_groups num_groups); [congruence | discriminate].
Qed.

(** ** The balancing loop *)

Lemma comprehension_pure {A : Type} (p : A -> result bool) (q : A -> bool)
      (l : list A) :
  (forall x, In x l -> p x = Ok (q x)) ->
  comprehension p l = Ok (filter q l).
Proof.
  induction l as [|x l IH]; intros H; simpl; [reflexivity|].
  rewrite (H x) by now left. simpl.
  rewrite IH by (intros; apply H; now right). reflexivity.
Qed.

Lemma overfilled_eq (groups : Groups) (group_list : list string)
      (target_size : Z) :
  incl group_list (Dict.keys groups) ->
  overfilled groups group_list target_size
  = Ok (filter (is_overfilled groups target_size) group_list).
Proof.
  intros Hincl. unfold overfilled. apply comprehension_pure.
  intros g Hg. apply Hincl, DictFacts.getitem_In_keys in Hg as (m & -> & Hm).
  unfold is_overfilled, size_of, Dict.get_default. now rewrite Hm.
Qed.

Lemma underfilled_eq (groups : Groups) (group_list : list string)
      (target_size : Z) :
  incl group_list (Dict.keys groups) ->
  underfilled groups group_list target_size
  = Ok (filter (is_underfilled groups target_size) group_list).
Proof.
  intros Hincl. unfold underfilled. apply comprehension_pure.
  intros g Hg. apply Hincl, DictFacts.getitem_In_keys in Hg as (m & -> & Hm).
  unfold is_underfilled, size_of, Dict.get_default. now rewrite Hm.
Qed.

Lemma filter_head_In {A : Type} (q : A -> bool) (l : list A) (x : A)
      (r : list A) :
  filter q l = x :: r -> In x l /\ q x = true.
Proof.
  intros H. apply filter_In. rewrite H. now left.
Qed.

(** One pass of the loop: either it stops, with no overfull or no
    underfull group, or it moves the last student of the first overfull
    group to the end of the first underfull group. *)
Lemma balance_step_cases (groups : Groups) (group_list : list string)
      (target_size : Z) :
  incl group_list (Dict.keys groups) ->
  (balance_step groups group_list target_size = Ok None
   /\ (filter (is_overfilled groups target_size) group_list = []
       \/ filter (is_underfilled groups target_size) group_list = []))
  \/
  (exists donor receiver rest student receiver_members,
      Dict.get groups donor = Some (rest ++ [student])
      /\ Dict.get groups receiver = Some receiver_members
      /\ target_size + 1 < len (rest ++ [student])
      /\ len receiver_members < target_size
      /\ donor <> receiver
      /\ balance_step groups group_list target_size
         = Ok (Some (Dict.set (Dict.set groups donor rest) receiver
                              (receiver_members ++ [student])))).
Proof.
  intros Hincl. unfold balance_step.
  rewrite overfilled_eq, underfilled_eq by assumption. simpl.
  destruct (filter (is_overfilled groups target_size) group_list)
    as [|donor over] eqn:Eo; [left; auto|].
  destruct (filter (is_underfilled groups target_size) group_list)
    as [|receiver under] eqn:Eu; [left; auto|].
  right.
  apply filter_head_In in Eo as [Hd Ho], Eu as [Hr Hu].
  apply Hincl, DictFacts.getitem_In_keys in Hd as (dm & Hdi & Hdg).
  apply Hincl, DictFacts.getitem_In_keys in Hr as (rm & Hri & Hrg).
  unfold is_overfilled, size_of, Dict.get_default in Ho. rewrite Hdg in Ho.
  unfold is_underfilled, size_of, Dict.get_default in Hu. rewrite Hrg in Hu.
  apply Z.ltb_lt in Ho, Hu.
  pose proof (len_nonneg rm) as Hrm.
  assert (Hne : dm <> []).
  { intros ->. unfold len in Ho. simpl in Ho. lia. }
  destruct (pop_nonempty dm Hne) as (student & rest & -> & Hpop).
  assert (Hdr : donor <> receiver).
  { intros ->. rewrite Hdg in Hrg. injection Hrg as <-. lia. }
  exists donor, receiver, rest, student, rm.
  repeat split; try assumption.
  rewrite Hdi. simpl. rewrite Hpop. simpl.
  unfold Dict.getitem. rewrite DictFacts.get_set_other by assumption.
  now rewrite Hrg.
Qed.

(** The effect of one assignment [groups[k] = new] on the measure and
    on the members. *)
Lemma total_deviation_nonneg (groups : Groups) (target_size : Z) :
  0 <= total_deviation groups target_size.
Proof.
  unfold total_deviation, sizes, Dict.values, sum.
  induction groups as [|[k m] d IH]; simpl; lia.
Qed.

Lemma total_deviation_app (d1 d2 : Groups) (target_size : Z) :
  total_deviation (d1 ++ d2) target_size
  = total_deviation d1 target_size + total_deviation d2 target_size.
Proof.
  unfold total_deviation, sizes, Dict.values.
  now rewrite !map_app, sum_app.
Qed.

Lemma total_deviation_set (groups : Groups) (k : string)
      (old new : list string) (target_size : Z) :
  Dict.get groups k = Some old ->
  total_deviation (Dict.set groups k new) target_size
  = total_deviation groups target_size
    - Z.abs (len old - target_size) + Z.abs (len new - target_size).
Proof.
  intros H. apply DictFacts.get_split in H as (d1 & d2 & -> & Hn).
  rewrite DictFacts.set_middle by assumption.
  rewrite !total_deviation_app.
  change ((k, new) :: d2) with ([(k, new)] ++ d2).
  change ((k, old) :: d2) with ([(k, old)] ++ d2).
  rewrite !total_deviation_app.
  unfold total_deviation at 2 5. simpl. lia.
Qed.

Lemma members_of_set (groups : Groups) (k : string) (old new : list string) :
  Dict.get groups k = Some old ->
  Permutation (old ++ members_of (Dict.set groups k new))
              (new ++ members_of groups).
Proof.
  intros H. apply DictFacts.get_split in H as (d1 & d2 & -> & Hn).
  rewrite DictFacts.set_middle by assumption.
  rewrite !members_of_app, !members_of_cons.
  rewrite (Permutation_app_swap_app old (members_of d1)).
  rewrite (Permutation_app_swap_app new (members_of d1)).
  apply Permutation_app_head. apply Permutation_app_swap_app.
Qed.

(** What one move does: same keys, same members, deviation down by
    two. *)
Lemma balance_move (groups : Groups) (donor receiver : string)
      (rest receiver_members : list string) (student : string)
      (target_size : Z) :
  Dict.get groups donor = Some (rest ++ [student]) ->
  Dict.get groups receiver = Some receiver_members ->
  target_size + 1 < len (rest ++ [student]) ->
  len receiver_members < target_size ->
  donor <> receiver ->
  let groups' := Dict.set (Dict.set groups donor rest) receiver
                          (receiver_members ++ [student]) in
  Dict.keys groups' = Dict.keys groups
  /\ Permutation (members_of groups') (members_of groups)
  /\ total_deviation groups' target_size
     = total_deviation groups target_size - 2.
Proof.
  intros Hd Hr Ho Hu Hne groups'. subst groups'.
  assert (Hr1 : Dict.get (Dict.set groups donor rest) receiver
                = Some receiver_members).
  { now rewrite DictFacts.get_set_other. }
  split; [|split].
  - rewrite !DictFacts.keys_set_present; [reflexivity| |].
    + eapply DictFacts.get_In_keys; eauto.
    + eapply DictFacts.get_In_keys; eauto.
  - rewrite (members_of_append _ _ _ _ Hr1).
    pose proof (members_of_set groups donor _ rest Hd) as P.
    rewrite <- app_assoc in P. apply Permutation_app_inv_l in P.
    exact P.
  - rewrite (total_deviation_set _ _ _ _ _ Hr1).
    rewrite (total_deviation_set _ _ _ _ _ Hd).
    rewrite !len_app in *. unfold len in *. simpl in *. lia.
Qed.

(** More fuel never changes a result. *)
Lemma balance_loop_fuel_irrelevant (fuel fuel' : nat) (groups : Groups)
      (group_list : list string) (target_size : Z) (r : Groups) :
  balance_loop fuel groups group_list target_size = Ok r ->
  (fuel <= fuel')%nat ->
  balance_loop fuel' groups group_list target_size = Ok r.
Proof.
  revert fuel' groups. induction fuel as [|fuel IH]; intros fuel' groups H Hle.
  - discriminate.
  - destruct fuel' as [|fuel']; [lia|]. simpl in *.
    destruct (balance_step groups group_list target_size) as [[g'|]| |];
      simpl in *; try discriminate; [|assumption].
    apply IH; [assumption | lia].
Qed.

(** The loop returns as soon as the fuel exceeds half the deviation;
    the result has the keys and the members of the input and satisfies
    the exit test. *)
Lemma balance_loop_spec (fuel : nat) :
  forall (groups : Groups) (group_list : list string) (target_size : Z),
    incl group_list (Dict.keys groups) ->
    total_deviation groups target_size < 2 * Z.of_nat fuel ->
    exists groups',
      balance_loop fuel groups group_list target_size = Ok groups'
      /\ Dict.keys groups' = Dict.keys groups
      /\ Permutation (members_of groups') (members_of groups)
      /\ (filter (is_overfilled groups' target_size) group_list = []
          \/ filter (is_underfilled groups' target_size) group_list = []).
Proof.
  induction fuel as [|fuel IH]; intros groups group_list target_size Hincl Hdev.
  - pose proof (total_deviation_nonneg groups target_size). lia.
  - simpl.
    destruct (balance_step_cases groups group_list target_size Hincl)
      as [[E Hexit]|(donor & receiver & rest & student & rm
                     & Hd & Hr & Ho & Hu & Hne & E)]; rewrite E; simpl.
    + exists groups. auto.
    + destruct (balance_move groups donor receiver rest rm student target_size
                  Hd Hr Ho Hu Hne) as (Hk & Hp & Hm).
      destruct (IH (Dict.set (Dict.set groups donor rest) receiver
                             (rm ++ [student])) group_list target_size)
        as (g' & Eg & Hk' & Hp' & Hexit).
      * now rewrite Hk.
      * rewrite Hm. lia.
      * exists g'. repeat split.
        -- exact Eg.
        -- now rewrite Hk'.
        -- now rewrite Hp'.
        -- exact Hexit.
Qed.

Lemma balance_loop_enough_fuel (fuel : nat) (groups : Groups)
      (target_size : Z) :
  (Z.to_nat (total_deviation groups target_size) < fuel)%nat ->
  exists groups',
    balance_loop fuel groups (Dict.keys groups) target_size = Ok groups'
    /\ balance_groups groups target_size = Ok groups'.
Proof.
  intros Hfuel.
  pose proof (total_deviation_nonneg groups target_size) as Hnn.
  destruct (balance_loop_spec fuel groups (Dict.keys groups) target_size)
    as (g' & E & _); [apply incl_refl | lia |].
  exists g'. split; [exact E|].
  unfold balance_groups.
  destruct (balance_loop_spec (balance_fuel groups target_size) groups
              (Dict.keys groups) target_size)
    as (g'' & E' & _); [apply incl_refl | unfold balance_fuel; lia |].
  rewrite E'. f_equal.
  destruct (Nat.le_ge_cases fuel (balance_fuel groups target_size)) as [H|H].
  - pose proof (balance_loop_fuel_irrelevant _ _ _ _ _ _ E H). congruence.
  - pose proof (balance_loop_fuel_irrelevant _ _ _ _ _ _ E' H). congruence.
Qed.

Lemma balance_groups_spec (groups : Groups) (target_size : Z) :
  exists groups',
    balance_groups groups target_size = Ok groups'
    /\ Dict.keys groups' = Dict.keys groups
    /\ Permutation (members_of groups') (members_of groups)
    /\ (filter (is_overfilled groups' target_size) (Dict.keys groups') = []
        \/ filter (is_underfilled groups' target_size) (Dict.keys groups') = []).
Proof.
  pose proof (total_deviation_nonneg groups target_size) as Hnn.
  destruct (balance_loop_spec (balance_fuel groups target_size) groups
              (Dict.keys groups) target_size)
    as (g' & E & Hk & Hp & Hexit);
    [apply incl_refl | unfold balance_fuel; lia |].
  exists g'. rewrite Hk. auto.
Qed.

(** ** Partitions *)

Lemma NoDup_app_disjoint {A : Type} (l1 l2 : list A) (x : A) :
  NoDup (l1 ++ l2) -> In x l1 -> In x l2 -> False.
Proof.
  induction l1 as [|a l1 IH]; simpl; [tauto|].
  intros Hnd [->|H1] H2; inversion Hnd as [|? ? Hn Hnd']; subst.
  - apply Hn, in_or_app. now right.
  - now apply IH.
Qed.

(** In a partition without repeated members a student sits in one
    entry only. *)
Lemma NoDup_members_unique (groups : Groups) (x : string)
      (g g' : string) (m m' : list string) :
  NoDup (members_of groups) ->
  In (g, m) groups -> In x m -> In (g', m') groups -> In x m' ->
  (g, m) = (g', m').
Proof.
  induction groups as [|[k0 m0] d IH]; simpl; [tauto|].
  rewrite members_of_cons. intros Hnd [E|H] Hx [E'|H'] Hx'.
  - congruence.
  - injection E as -> ->. exfalso.
    apply (NoDup_app_disjoint _ _ x Hnd Hx).
    apply members_of_In. eauto.
  - injection E' as -> ->. exfalso.
    apply (NoDup_app_disjoint _ _ x Hnd Hx').
    apply members_of_In. eauto.
  - apply IH; auto. eapply NoDup_app_remove_l; eauto.
Qed.

Lemma rotate_Permutation (n : nat) (l : list string) :
  Permutation l (rotate n l).
Proof.
  revert l. induction n as [|n IH]; intros l; simpl; [reflexivity|].
  destruct l as [|x l]; [reflexivity|].
  rewrite <- IH. apply Permutation_cons_append.
Qed.

Lemma rotate_shuffle_Permutation (g : nat) (l : list string) :
  Permutation l (fst (rotate_shuffle g l)).
Proof. apply rotate_Permutation. Qed.

(** * The balancer *)

(** C1, as stated, fails: with three students in three groups of sizes
    2, 1, 0 and target 1 nothing is overfull, so the loop stops at once
    and leaves a group below the target; with five students in groups of
    sizes 3, 1, 1 and target 1 nothing is underfull, and a group stays
    above target + 1.  In both cases the target is the floor of
    population / groups. *)
Lemma balance_bound_counterexample :
  (len (members_of skew_210) = 3 * 1 + 0
   /\ balance_groups skew_210 1 = Ok skew_210
   /\ In ("Group3", []) skew_210 /\ len (@nil string) < 1)
  /\
  (len (members_of skew_311) = 3 * 1 + 2
   /\ balance_groups skew_311 1 = Ok skew_311
   /\ In ("Group1", ["A"; "B"; "C"]) skew_311
   /\ 1 + 1 < len ["A"; "B"; "C"]).
Proof.
  repeat split; try reflexivity; simpl; auto.
Qed.

(** C1, amended: for every dictionary of groups and every target size
    T, balance_groups returns, and in its result no group is larger than
    T + 1 or no group is smaller than T: one of the two bounds holds for
    all groups, not necessarily both. *)
Theorem balance_groups_one_sided_bound (groups : Groups) (target_size : Z) :
  Dict.wf groups ->
  exists groups',
    balance_groups groups target_size = Ok groups'
    /\ ((forall g m, In (g, m) groups' -> len m <= target_size + 1)
        \/ (forall g m, In (g, m) groups' -> target_size <= len m)).
Proof.
  intros Hwf.
  destruct (balance_groups_spec groups target_size)
    as (groups' & E & Hk & _ & Hexit).
  exists groups'. split; [exact E|].
  assert (Hwf' : Dict.wf groups') by (unfold Dict.wf; now rewrite Hk).
  assert (Hsize : forall g m, In (g, m) groups' ->
                              In g (Dict.keys groups')
                              /\ size_of groups' g = len m).
  { intros g m Hin. split.
    - change g with (fst (g, m)). now apply in_map.
    - unfold size_of, Dict.get_default.
      now rewrite (DictFacts.wf_get_In _ _ _ Hwf' Hin). }
  destruct Hexit as [Hover|Hunder]; [left|right]; intros g m Hin;
    destruct (Hsize g m Hin) as [Hkey Hs].
  - destruct (Z.leb_spec (len m) (target_size + 1)) as [|Hlt]; [assumption|].
    exfalso. assert (Hf : In g []); [|easy].
    rewrite <- Hover. apply filter_In. split; [exact Hkey|].
    unfold is_overfilled. rewrite Hs. now apply Z.ltb_lt.
  - destruct (Z.leb_spec target_size (len m)) as [|Hlt]; [assumption|].
    exfalso. assert (Hf : In g []); [|easy].
    rewrite <- Hunder. apply filter_In. split; [exact Hkey|].
    unfold is_underfilled. rewrite Hs. now apply Z.ltb_lt.
Qed.

Lemma balance_groups_one_sided_bound_witness :
  exists groups',
    balance_groups skew_401 1 = Ok groups'
    /\ ((forall g m, In (g, m) groups' -> len m <= 1 + 1)
        \/ (forall g m, In (g, m) groups' -> 1 <= len m)).
Proof.
  apply (balance_groups_one_sided_bound skew_401 1).
  unfold Dict.wf. simpl.
  repeat constructor; simpl; intuition discriminate.
Defined.

(** C6: the loop of balance_groups cannot run forever.  Every pass
    that moves a student lowers the total absolute deviation of the group
    sizes from the target (by two, and it stays non-negative); so the loop
    returns on any fuel above the initial deviation, and balance_groups
    returns a dictionary for every input. *)
Theorem balance_groups_terminates (groups : Groups) (target_size : Z) :
  (forall groups',
      balance_step groups (Dict.keys groups) target_size = Ok (Some groups') ->
      0 <= total_deviation groups' target_size
      /\ total_deviation groups' target_size
         < total_deviation groups target_size)
  /\ (forall fuel,
         (Z.to_nat (total_deviation groups target_size) < fuel)%nat ->
         exists groups',
           balance_loop fuel groups (Dict.keys groups) target_size
           = Ok groups')
  /\ (exists groups', balance_groups groups target_size = Ok groups').
Proof.
  split; [|split].
  - intros groups' E.
    split; [apply total_deviation_nonneg|].
    destruct (balance_step_cases groups (Dict.keys groups) target_size
                (incl_refl _))
      as [[E' _]|(donor & receiver & rest & student & rm
                  & Hd & Hr & Ho & Hu & Hne & E')];
      rewrite E' in E; [discriminate|].
    injection E as <-.
    destruct (balance_move groups donor receiver rest rm student target_size
                Hd Hr Ho Hu Hne) as (_ & _ & Hm).
    rewrite Hm. lia.
  - intros fuel Hfuel.
    destruct (balance_loop_enough_fuel fuel groups target_size Hfuel)
      as (g' & E & _). eauto.
  - destruct (balance_groups_spec groups target_size) as (g' & E & _). eauto.
Qed.

Lemma balance_groups_terminates_witness :
  total_deviation skew_311 1 < total_deviation skew_401 1
  /\ balance_loop 5 skew_401 (Dict.keys skew_401) 1 = Ok skew_311.
Proof.
  destruct (balance_groups_terminates skew_401 1) as (Hstep & Hloop & _).
  split.
  - apply (Hstep skew_311). reflexivity.
  - destruct (Hloop 5%nat) as (g' & E); [vm_compute; lia|].
    reflexivity.
Defined.

(** * The greedy assigner *)

Section AssignFacts.
Variable Rng : Type.
Variable shuffle : Rng -> list string -> list string * Rng.

(** The call is the shuffle followed by the greedy placement of the
    shuffled list; it never raises. *)
Lemma assign_students_to_groups_eq (g : Rng) (students : list string)
      (student_to_friends : Friends) (num_groups : Z) :
  exists groups,
    assign_in_order (fst (shuffle g students)) student_to_friends num_groups
    = Ok groups
    /\ assign_students_to_groups shuffle g students student_to_friends
                                 num_groups
       = Ok (snd (shuffle g students), fst (shuffle g students), groups).
Proof.
  destruct (assign_in_order_spec (fst (shuffle g students)) student_to_friends
              num_groups) as (groups & E & _).
  exists groups. split; [exact E|].
  unfold assign_students_to_groups.
  destruct (shuffle g students) as [students' g']. simpl in *.
  now rewrite E.
Qed.

End AssignFacts.

(** C2: for every list of students, every preference mapping and every
    group count of at least 1, assignment followed by balancing (with any
    target size) returns a dictionary of pairwise distinct groups whose
    member lists, put together, contain no student twice and contain
    exactly the students of the population; hence every student is in one
    group and in no other. *)
Theorem assignment_and_balancing_complete
        (Rng : Type) (shuffle : Rng -> list string -> list string * Rng)
        (g : Rng) (students : list string) (student_to_friends : Friends)
        (num_groups target_size : Z) :
  (forall g l, Permutation l (fst (shuffle g l))) ->
  1 <= num_groups ->
  exists g' students' assigned groups,
    assign_students_to_groups shuffle g students student_to_friends num_groups
    = Ok (g', students', assigned)
    /\ balance_groups assigned target_size = Ok groups
    /\ Dict.wf groups
    /\ NoDup (members_of groups)
    /\ (forall x, In x students <-> In x (members_of groups))
    /\ (forall x, In x students ->
                  exists group members,
                    In (group, members) groups /\ In x members
                    /\ forall group' members',
                        In (group', members') groups -> In x members' ->
                        group' = group /\ members' = members).
Proof.
  intros Hperm Hn.
  destruct (assign_students_to_groups_eq Rng shuffle g students
              student_to_friends num_groups) as (assigned & Ein & E).
  destruct (assign_in_order_spec (fst (shuffle g students)) student_to_friends
              num_groups) as (assigned' & Ein' & Hk & Hnd & Hsub & Hsup).
  rewrite Ein in Ein'. injection Ein' as <-.
  destruct (balance_groups_spec assigned target_size)
    as (groups & Eb & Hkb & Hpb & _).
  exists (snd (shuffle g students)), (fst (shuffle g students)), assigned, groups.
  assert (Hnd' : NoDup (members_of groups)).
  { eapply Permutation_NoDup; [symmetry; exact Hpb | exact Hnd]. }
  assert (Hmem : forall x, In x students <-> In x (members_of groups)).
  { intros x. split; intros Hx.
    - apply (Permutation_in _ (Permutation_sym Hpb)).
      apply Hsup; [assumption|].
      apply (Permutation_in _ (Hperm g students)). exact Hx.
    - apply (Permutation_in _ (Permutation_sym (Hperm g students))).
      apply Hsub. apply (Permutation_in _ Hpb). exact Hx. }
  split; [exact E|]. split; [exact Eb|].
  split; [unfold Dict.wf; rewrite Hkb, Hk; apply init_groups_wf|].
  split; [exact Hnd'|]. split; [exact Hmem|].
  intros x Hx. apply Hmem, members_of_In in Hx as (k & m & Hin & Hxm).
  exists k, m. split; [exact Hin|]. split; [exact Hxm|].
  intros k' m' Hin' Hxm'.
  pose proof (NoDup_members_unique groups x _ _ _ _ Hnd' Hin' Hxm' Hin Hxm)
    as Heq.
  injection Heq as -> ->. auto.
Qed.

Lemma assignment_and_balancing_complete_witness :
  exists g' students' assigned groups,
    assign_students_to_groups rotate_shuffle 1%nat abc abc_friends 2
    = Ok (g', students', assigned)
    /\ balance_groups assigned (len abc / 2) = Ok groups
    /\ Dict.wf groups
    /\ NoDup (members_of groups)
    /\ (forall x, In x abc <-> In x (members_of groups))
    /\ (forall x, In x abc ->
                  exists group members,
                    In (group, members) groups /\ In x members
                    /\ forall group' members',
                        In (group', members') groups -> In x members' ->
                        group' = group /\ members' = members).
Proof.
  apply (assignment_and_balancing_complete nat rotate_shuffle).
  - exact rotate_shuffle_Permutation.
  - lia.
Defined.

(** C3, as stated, fails: the function shuffles by itself.  Two calls
    with the same list, the same preferences and the same group count,
    one after the other on the rotating generator, return different
    partitions. *)
Lemma greedy_assigner_counterexample :
  assign_students_to_groups rotate_shuffle 0%nat abc abc_friends 2
  = Ok (1%nat, ["A"; "B"; "C"],
        [("Group1", ["A"]); ("Group2", ["B"; "C"])])
  /\ assign_students_to_groups rotate_shuffle 1%nat abc abc_friends 2
     = Ok (2%nat, ["B"; "C"; "A"],
           [("Group1", ["B"; "C"; "A"]); ("Group2", [])]).
Proof. split; reflexivity. Qed.

(** C3, amended: the partition returned by assign_students_to_groups
    is that of the greedy placement applied to the order its own shuffle
    produced; two calls with the same preferences and group count whose
    shuffles deliver the same order return the same partition.  The
    shuffle inside the function, not only the order supplied by the
    caller, is a source of randomness. *)
Theorem greedy_assigner_deterministic_after_shuffle
        (Rng : Type) (shuffle : Rng -> list string -> list string * Rng)
        (g1 g2 : Rng) (students1 students2 : list string)
        (student_to_friends : Friends) (num_groups : Z) :
  fst (shuffle g1 students1) = fst (shuffle g2 students2) ->
  exists groups,
    assign_in_order (fst (shuffle g1 students1)) student_to_friends num_groups
    = Ok groups
    /\ partition_of (assign_students_to_groups shuffle g1 students1
                       student_to_friends num_groups) = Some groups
    /\ partition_of (assign_students_to_groups shuffle g2 students2
                       student_to_friends num_groups) = Some groups.
Proof.
  intros Hsame.
  destruct (assign_students_to_groups_eq Rng shuffle g1 students1
              student_to_friends num_groups) as (groups & Ein & E1).
  destruct (assign_students_to_groups_eq Rng shuffle g2 students2
              student_to_friends num_groups) as (groups' & Ein' & E2).
  rewrite <- Hsame, Ein in Ein'. injection Ein' as <-.
  exists groups. rewrite E1, E2. auto.
Qed.

Lemma greedy_assigner_deterministic_after_shuffle_witness :
  exists groups,
    assign_in_order (fst (rotate_shuffle 0%nat abc)) abc_friends 2 = Ok groups
    /\ partition_of (assign_students_to_groups rotate_shuffle 0%nat abc
                       abc_friends 2) = Some groups
    /\ partition_of (assign_students_to_groups rotate_shuffle 3%nat abc
                       abc_friends 2) = Some groups.
Proof.
  apply (greedy_assigner_deterministic_after_shuffle nat rotate_shuffle).
  reflexivity.
Defined.

(** C10: assign_students_to_groups permutes the caller's students list
    in place.  After the call the list holds what shuffle made of it: the
    same elements, a permutation of the list passed in, and the groups
    are built from that order. *)
Theorem assign_students_to_groups_shuffles_argument
        (Rng : Type) (shuffle : Rng -> list string -> list string * Rng)
        (g : Rng) (students : list string) (student_to_friends : Friends)
        (num_groups : Z) :
  (forall g l, Permutation l (fst (shuffle g l))) ->
  exists g' students_after groups,
    assign_students_to_groups shuffle g students student_to_friends num_groups
    = Ok (g', students_after, groups)
    /\ students_after = fst (shuffle g students)
    /\ Permutation students students_after
    /\ assign_in_order students_after student_to_friends num_groups
       = Ok groups.
Proof.
  intros Hperm.
  destruct (assign_students_to_groups_eq Rng shuffle g students
              student_to_friends num_groups) as (groups & Ein & E).
  exists (snd (shuffle g students)), (fst (shuffle g students)), groups.
  auto.
Qed.

(** On the rotating generator in state 1 the caller's list
    [["A"; "B"; "C"]] comes back as [["B"; "C"; "A"]]. *)
Lemma assign_students_to_groups_shuffles_argument_witness :
  (exists g' students_after groups,
      assign_students_to_groups rotate_shuffle 1%nat abc abc_friends 2
      = Ok (g', students_after, groups)
      /\ students_after = fst (rotate_shuffle 1%nat abc)
      /\ Permutation abc students_after
      /\ assign_in_order students_after abc_friends 2 = Ok groups)
  /\ fst (rotate_shuffle 1%nat abc) = ["B"; "C"; "A"]
  /\ fst (rotate_shuffle 1%nat abc) <> abc.
Proof.
  split; [|split].
  - apply (assign_students_to_groups_shuffles_argument nat rotate_shuffle).
    exact rotate_shuffle_Permutation.
  - reflexivity.
  - discriminate.
Defined.

(** * The evaluator *)

(** The dictionary comprehension, one student and one group at a time. *)
Lemma get_fold_members (g : string) (members : list string)
      (d : Dict.t string) (x : string) :
  Dict.get (fold_left (fun d student => Dict.set d student g) members d) x
  = if contains members x then Some g else Dict.get d x.
Proof.
  revert d. induction members as [|s members IH]; intros d; [reflexivity|].
  cbn [fold_left]. rewrite IH. unfold contains. cbn [existsb].
  fold (contains members x).
  destruct (contains members x); [now rewrite orb_true_r|].
  rewrite orb_false_r. destruct (String.eqb_spec x s) as [->|Hne].
  - now rewrite DictFacts.get_set_same.
  - rewrite DictFacts.get_set_other by congruence. reflexivity.
Qed.

Lemma get_fold_groups (groups : Groups) (d : Dict.t string) (x : string) :
  Dict.get
    (fold_left
       (fun d (item : string * list string) =>
          let '(group, members) := item in
          fold_left (fun d student => Dict.set d student group) members d)
       groups d) x
  = match group_of groups x with
    | Some g => Some g
    | None => Dict.get d x
    end.
Proof.
  revert d. induction groups as [|[g m] groups IH]; intros d; [reflexivity|].
  cbn [fold_left group_of]. rewrite IH, get_fold_members.
  destruct (group_of groups x); [reflexivity|].
  now destruct (contains m x).
Qed.

Lemma get_student_to_group (groups : Groups) (x : string) :
  Dict.get (build_student_to_group groups) x = group_of groups x.
Proof.
  unfold build_student_to_group, Dict.items. rewrite get_fold_groups.
  now destruct (group_of groups x).
Qed.

Lemma group_of_placed (groups : Groups) (x : string) :
  placed groups x
  = match group_of groups x with Some _ => true | None => false end.
Proof.
  unfold placed. induction groups as [|[g m] groups IH]; [reflexivity|].
  rewrite members_of_cons. cbn [group_of].
  unfold contains in *. rewrite existsb_app, IH.
  destruct (group_of groups x); [apply orb_true_r|].
  rewrite orb_false_r. now destruct (existsb (String.eqb x) m).
Qed.

Lemma mem_student_to_group (groups : Groups) (x : string) :
  Dict.mem (build_student_to_group groups) x = placed groups x.
Proof.
  unfold Dict.mem. now rewrite get_student_to_group, group_of_placed.
Qed.

Lemma group_of_In (groups : Groups) (x g : string) :
  group_of groups x = Some g -> exists m, In (g, m) groups /\ In x m.
Proof.
  induction groups as [|[g0 m0] groups IH]; [discriminate|].
  cbn [group_of]. destruct (group_of groups x) as [g'|] eqn:E.
  - intros [= ->]. destruct (IH eq_refl) as (m & Hin & Hx).
    exists m. split; [now right | exact Hx].
  - destruct (contains m0 x) eqn:Ec; [|discriminate].
    intros [= ->]. exists m0. split; [now left|]. now apply contains_In.
Qed.

Lemma any_pure {A : Type} (p : A -> result bool) (q : A -> bool)
      (l : list A) :
  (forall x, In x l -> p x = Ok (q x)) -> any p l = Ok (existsb q l).
Proof.
  induction l as [|x l IH]; intros H; [reflexivity|].
  cbn [any existsb]. rewrite (H x) by now left. simpl.
  destruct (q x); [reflexivity|]. apply IH. intros; apply H; now right.
Qed.

(** The body of the evaluator's loop never raises. *)
Lemma evaluate_step_eq (groups : Groups) (total success : Z) (x : string)
      (friends : list string) :
  evaluate_step (build_student_to_group groups) (total, success) (x, friends)
  = Ok (if placed groups x
        then (total + 1,
              if has_friend_in_group groups x friends then success + 1
              else success)
        else (total, success)).
Proof.
  unfold evaluate_step. rewrite mem_student_to_group.
  destruct (placed groups x) eqn:Hp; [|reflexivity]. cbn [negb].
  rewrite group_of_placed in Hp.
  unfold Dict.getitem at 1. rewrite get_student_to_group.
  destruct (group_of groups x) as [g|] eqn:Eg; [|discriminate]. simpl.
  rewrite (any_pure _ (fun f => match group_of groups f with
                                | Some gf => String.eqb gf g
                                | None => false
                                end)).
  - simpl. unfold has_friend_in_group. rewrite Eg. reflexivity.
  - intros f _. unfold friend_in_group, Dict.mem, Dict.getitem.
    rewrite get_student_to_group. now destruct (group_of groups f).
Qed.

Lemma evaluate_loop_eq (groups : Groups) (student_to_friends : Friends)
      (total success : Z) :
  foldM (evaluate_step (build_student_to_group groups))
        (Dict.items student_to_friends) (total, success)
  = Ok (total + count_evaluated groups student_to_friends,
        success + count_success groups student_to_friends).
Proof.
  unfold Dict.items, count_evaluated, count_success.
  revert total success.
  induction student_to_friends as [|[x friends] rest IH]; intros total success.
  - simpl. do 2 f_equal; unfold len; simpl; lia.
  - cbn [foldM]. rewrite evaluate_step_eq. cbn [bind filter fst snd].
    destruct (placed groups x); cbn [andb].
    + destruct (has_friend_in_group groups x friends); rewrite IH;
        do 2 f_equal; unfold len; cbn [List.length];
        rewrite ?Nat2Z.inj_succ; lia.
    + apply IH.
Qed.

Lemma evaluate_friend_success_eq (groups : Groups)
      (student_to_friends : Friends) :
  evaluate_friend_success groups student_to_friends
  = Ok (percent_of (count_success groups student_to_friends)
                   (count_evaluated groups student_to_friends),
        count_success groups student_to_friends,
        count_evaluated groups student_to_friends).
Proof.
  unfold evaluate_friend_success. rewrite evaluate_loop_eq. reflexivity.
Qed.

Lemma count_success_bounds (groups : Groups) (student_to_friends : Friends) :
  0 <= count_success groups student_to_friends
  <= count_evaluated groups student_to_friends.
Proof.
  unfold count_success, count_evaluated, len.
  induction student_to_friends as [|[x friends] rest IH]; simpl; [lia|].
  destruct (placed groups x); simpl; [|exact IH].
  destruct (has_friend_in_group groups x friends); simpl; lia.
Qed.

(** ** Floating point *)

Lemma round_half_even_error (a b : Z) :
  0 < b -> 0 <= a ->
  0 <= round_half_even a b
  /\ 2 * (round_half_even a b * b - a) <= b
  /\ 2 * (a - round_half_even a b * b) <= b.
Proof.
  intros Hb Ha. unfold round_half_even.
  pose proof (Z.div_mod a b ltac:(lia)) as E.
  pose proof (Z.mod_pos_bound a b Hb) as Hr.
  pose proof (Z.div_pos a b Ha Hb) as Hq.
  destruct (Z.ltb_spec (2 * (a mod b)) b);
    [|destruct (Z.ltb_spec b (2 * (a mod b))); [|destruct (Z.even (a / b))]];
    nia.
Qed.

Lemma round_half_even_le (a b I : Z) :
  0 < b -> a <= I * b -> round_half_even a b <= I.
Proof.
  intros Hb Ha. unfold round_half_even.
  pose proof (Z.div_mod a b ltac:(lia)) as E.
  pose proof (Z.mod_pos_bound a b Hb) as Hr.
  destruct (Z.ltb_spec (2 * (a mod b)) b);
    [|destruct (Z.ltb_spec b (2 * (a mod b))); [|destruct (Z.even (a / b))]];
    nia.
Qed.

Lemma double_exponent_lower (n d : positive) :
  (0 <= double_exponent n d ->
   2 ^ 52 * (Zpos d * 2 ^ double_exponent n d) <= Zpos n)
  /\ (double_exponent n d < 0 ->
      2 ^ 52 * Zpos d <= Zpos n * 2 ^ (- double_exponent n d)).
Proof.
  unfold double_exponent.
  pose proof (Z.log2_spec (Zpos n) ltac:(lia)) as [Hn1 Hn2].
  pose proof (Z.log2_spec (Zpos d) ltac:(lia)) as [Hd1 Hd2].
  pose proof (Z.log2_nonneg (Zpos n)) as Ha.
  pose proof (Z.log2_nonneg (Zpos d)) as Hb.
  set (a := Z.log2 (Zpos n)) in *. set (b := Z.log2 (Zpos d)) in *.
  set (k := a - b).
  assert (Hlow : (0 <= k - 1 -> Zpos d * 2 ^ (k - 1) <= Zpos n)
                 /\ (k - 1 < 0 -> Zpos d <= Zpos n * 2 ^ (1 - k))).
  { split; intros Hk.
    - assert (2 ^ a = 2 ^ (b + 1) * 2 ^ (k - 1)).
      { rewrite <- Z.pow_add_r by lia. f_equal. unfold k. lia. }
      assert (0 < 2 ^ (k - 1)) by (apply Z.pow_pos_nonneg; lia).
      unfold Z.succ in *. nia.
    - assert (2 ^ (b + 1) = 2 ^ a * 2 ^ (1 - k)).
      { rewrite <- Z.pow_add_r by lia. f_equal. unfold k. lia. }
      assert (0 < 2 ^ (1 - k)) by (apply Z.pow_pos_nonneg; lia).
      unfold Z.succ in *. nia. }
  destruct Hlow as [Hlow1 Hlow2].
  destruct (Z.leb_spec 0 k) as [Hk|Hk].
  - destruct (Z.leb_spec (Zpos d * 2 ^ k) (Zpos n)) as [Ht|Ht].
    + split; intros He.
      * replace (2 ^ k) with (2 ^ 52 * 2 ^ (k - 52)) in Ht
          by (rewrite <- Z.pow_add_r by lia; f_equal; lia). lia.
      * replace (2 ^ 52) with (2 ^ k * 2 ^ (- (k - 52)))
          by (rewrite <- Z.pow_add_r by lia; f_equal; lia).
        assert (0 < 2 ^ (- (k - 52))) by (apply Z.pow_pos_nonneg; lia). nia.
    + split; intros He.
      * specialize (Hlow1 ltac:(lia)).
        replace (2 ^ (k - 1)) with (2 ^ 52 * 2 ^ (k - 53)) in Hlow1
          by (rewrite <- Z.pow_add_r by lia; f_equal; lia). lia.
      * destruct (Z.leb_spec 0 (k - 1)) as [Hk1|Hk1].
        -- specialize (Hlow1 Hk1).
           replace (2 ^ 52) with (2 ^ (k - 1) * 2 ^ (- (k - 53)))
             by (rewrite <- Z.pow_add_r by lia; f_equal; lia).
           assert (0 < 2 ^ (- (k - 53))) by (apply Z.pow_pos_nonneg; lia). nia.
        -- specialize (Hlow2 Hk1).
           replace (2 ^ (- (k - 53))) with (2 ^ (1 - k) * 2 ^ 52)
             by (rewrite <- Z.pow_add_r by lia; f_equal; lia). nia.
  - destruct (Z.leb_spec (Zpos d) (Zpos n * 2 ^ (- k))) as [Ht|Ht].
    + split; intros He; [lia|].
      replace (2 ^ (- (k - 52))) with (2 ^ (- k) * 2 ^ 52)
        by (rewrite <- Z.pow_add_r by lia; f_equal; lia). nia.
    + split; intros He; [lia|].
      specialize (Hlow2 ltac:(lia)).
      replace (2 ^ (- (k - 53))) with (2 ^ (1 - k) * 2 ^ 52)
        by (rewrite <- Z.pow_add_r by lia; f_equal; lia). nia.
Qed.

Lemma half_ulp (m a b : Z) :
  0 < b -> 2 * (m * b - a) <= b -> 2 * (a - m * b) <= b ->
  2 ^ 52 * b <= a ->
  9007199254740992 * (m * b) <= 9007199254740993 * a
  /\ 9007199254740991 * a <= 9007199254740992 * (m * b).
Proof.
  intros Hb H1 H2 H3. change (2 ^ 52) with 4503599627370496 in H3.
  set (mb := m * b) in *. lia.
Qed.

Lemma round_double_pos_facts (n d : positive) :
  (0 <= round_double_pos n d)%Q
  /\ (round_double_pos n d <= (Zpos n # d) * (1 + double_eps))%Q
  /\ ((Zpos n # d) * (1 - double_eps) <= round_double_pos n d)%Q
  /\ (forall M, 0 < M < 2 ^ 53 -> Zpos n <= M * Zpos d ->
                (round_double_pos n d <= inject_Z M)%Q).
Proof.
  unfold round_double_pos.
  destruct (double_exponent_lower n d) as [Hpos Hneg].
  destruct (Z.leb_spec 0 (double_exponent n d)) as [He|He].
  - specialize (Hpos He). clear Hneg.
    set (P := 2 ^ double_exponent n d) in *.
    assert (HP : 0 < P) by (apply Z.pow_pos_nonneg; lia).
    destruct (round_half_even_error (Zpos n) (Zpos d * P)) as (Hm & E1 & E2);
      [nia | lia |].
    set (m := round_half_even (Zpos n) (Zpos d * P)) in *.
    destruct (half_ulp m (Zpos n) (Zpos d * P)) as [U L]; [nia | lia | lia | lia |].
    repeat split.
    + unfold Qle, inject_Z. simpl. nia.
    + unfold Qle, Qmult, Qplus, double_eps, inject_Z. cbn [Qnum Qden].
      rewrite !Pos2Z.inj_mul. nia.
    + unfold Qle, Qmult, Qminus, Qplus, Qopp, double_eps, inject_Z.
      cbn [Qnum Qden]. rewrite !Pos2Z.inj_mul. nia.
    + intros M [HM1 HM2] Hle. unfold Qle, inject_Z. cbn [Qnum Qden].
      change (2 ^ 52) with 4503599627370496 in Hpos.
      change (2 ^ 53) with 9007199254740992 in HM2.
      assert (P = 1) by nia. subst m. rewrite H in *.
      pose proof (round_half_even_le (Zpos n) (Zpos d * 1) M ltac:(lia) ltac:(lia)).
      lia.
  - specialize (Hneg He). clear Hpos.
    set (P := 2 ^ (- double_exponent n d)) in *.
    assert (HP : 0 < P) by (apply Z.pow_pos_nonneg; lia).
    destruct (round_half_even_error (Zpos n * P) (Zpos d)) as (Hm & E1 & E2);
      [lia | nia |].
    set (m := round_half_even (Zpos n * P) (Zpos d)) in *.
    destruct (half_ulp m (Zpos n * P) (Zpos d)) as [U L]; [lia | lia | lia | lia |].
    repeat split.
    + unfold Qle. simpl. lia.
    + unfold Qle, Qmult, Qplus, double_eps, inject_Z. cbn [Qnum Qden].
      rewrite !Pos2Z.inj_mul, Z2Pos.id by lia. nia.
    + unfold Qle, Qmult, Qminus, Qplus, Qopp, double_eps, inject_Z.
      cbn [Qnum Qden]. rewrite !Pos2Z.inj_mul, Z2Pos.id by lia. nia.
    + intros M [HM1 HM2] Hle. unfold Qle, inject_Z. cbn [Qnum Qden].
      rewrite Z2Pos.id by lia.
      pose proof (round_half_even_le (Zpos n * P) (Zpos d) (M * P)
                    ltac:(lia) ltac:(nia)).
      subst m. lia.
Qed.

Lemma round_double_nonneg (x : Q) : (0 <= x)%Q -> (0 <= round_double x)%Q.
Proof.
  intros Hx. unfold round_double. destruct x as [[|n|n] d]; cbn [Qnum Qden].
  - apply Qle_refl.
  - apply round_double_pos_facts.
  - unfold Qle in Hx. simpl in Hx. lia.
Qed.


Lemma round_double_le_int (x : Q) (M : Z) :
  0 < M < 2 ^ 53 -> (0 <= x)%Q -> (x <= inject_Z M)%Q ->
  (round_double x <= inject_Z M)%Q.
Proof.
  intros HM Hx Hle. unfold round_double.
  destruct x as [[|n|n] d]; cbn [Qnum Qden].
  - unfold Qle, inject_Z. simpl. lia.
  - apply round_double_pos_facts; [exact HM|].
    unfold Qle, inject_Z in Hle. simpl in Hle. lia.
  - unfold Qle in Hx. simpl in Hx. lia.
Qed.

Lemma ratio_bounds (s t : Z) :
  0 <= s <= t -> 0 < t -> (0 <= inject_Z s / inject_Z t <= 1)%Q.
Proof.
  intros Hs Ht. split.
  - apply Qle_shift_div_l.
    + change 0%Q with (inject_Z 0). now rewrite <- Zlt_Qlt.
    + rewrite Qmult_0_l. change 0%Q with (inject_Z 0). rewrite <- Zle_Qle. lia.
  - apply Qle_shift_div_r.
    + change 0%Q with (inject_Z 0). now rewrite <- Zlt_Qlt.
    + rewrite Qmult_1_l. rewrite <- Zle_Qle. lia.
Qed.

Lemma percent_of_nonneg (success total : Z) :
  0 <= success -> (0 <= percent_of success total)%Q.
Proof.
  intros Hs. unfold percent_of.
  destruct (Z.ltb_spec 0 total) as [Ht|Ht]; [|apply Qle_refl].
  apply round_double_nonneg.
  apply Qmult_le_0_compat; [|discriminate].
  apply round_double_nonneg.
  apply Qle_shift_div_l.
  - change 0%Q with (inject_Z 0). now rewrite <- Zlt_Qlt.
  - rewrite Qmult_0_l. change 0%Q with (inject_Z 0). now rewrite <- Zle_Qle.
Qed.

Lemma percent_of_le_100 (success total : Z) :
  0 <= success <= total -> (percent_of success total <= 100)%Q.
Proof.
  intros Hs. unfold percent_of.
  destruct (Z.ltb_spec 0 total) as [Ht|Ht]; [|discriminate].
  destruct (ratio_bounds success total Hs Ht) as [R0 R1].
  assert (F0 : (0 <= round_double (inject_Z success / inject_Z total))%Q)
    by now apply round_double_nonneg.
  assert (F1 : (round_double (inject_Z success / inject_Z total) <= 1)%Q).
  { apply (round_double_le_int _ 1); [split; [lia | reflexivity] | exact R0 | exact R1]. }
  apply (round_double_le_int _ 100).
  - split; [lia | reflexivity].
  - lra.
  - change (inject_Z 100) with 100%Q. lra.
Qed.

Lemma percent_of_zero (total : Z) : percent_of 0 total = 0%Q.
Proof.
  unfold percent_of. destruct (Z.ltb_spec 0 total) as [Ht|Ht]; [|reflexivity].
  destruct total as [|p|p]; try lia. reflexivity.
Qed.


(** In a partition proper, with distinct group names and no student
    listed twice, [has_friend_in_group] is co-location. *)
Lemma has_friend_in_group_colocated (groups : Groups) (x : string)
      (friends : list string) :
  Dict.wf groups -> NoDup (members_of groups) ->
  (has_friend_in_group groups x friends = true
   <-> exists f g m, In f friends /\ In (g, m) groups /\ In x m /\ In f m).
Proof.
  intros Hwf Hnd. unfold has_friend_in_group. rewrite existsb_exists.
  split.
  - intros (f & Hf & H).
    destruct (group_of groups f) as [gf|] eqn:Ef; [|discriminate].
    destruct (group_of groups x) as [g|] eqn:Ex; [|discriminate].
    apply String.eqb_eq in H. subst gf.
    apply group_of_In in Ef as (mf & Hinf & Hfm).
    apply group_of_In in Ex as (mx & Hinx & Hxm).
    pose proof (DictFacts.wf_get_In _ _ _ Hwf Hinf) as G1.
    pose proof (DictFacts.wf_get_In _ _ _ Hwf Hinx) as G2.
    rewrite G1 in G2. injection G2 as ->.
    exists f, g, mx. auto.
  - intros (f & g & m & Hf & Hin & Hxm & Hfm).
    exists f. split; [exact Hf|].
    assert (Hg : forall y, In y m -> group_of groups y = Some g).
    { intros y Hy.
      assert (Hp : placed groups y = true).
      { apply contains_In, members_of_In. eauto. }
      rewrite group_of_placed in Hp.
      destruct (group_of groups y) as [g'|] eqn:E; [|discriminate].
      apply group_of_In in E as (m' & Hin' & Hy').
      pose proof (NoDup_members_unique groups y _ _ _ _ Hnd Hin' Hy' Hin Hy).
      congruence. }
    rewrite (Hg f Hfm), (Hg x Hxm). apply String.eqb_refl.
Qed.

(** The rounding model computes what binary64 arithmetic computes:
    for all counts up to 40 the percentage equals the value of
    [(success / total) * 100] on the floating-point numbers of the
    kernel. *)
Lemma percent_of_matches_binary64 :
  forallb percent_agrees (count_pairs 40) = true.
Proof. vm_compute. reflexivity. Qed.



(** * Friends outside the population *)

Lemma get_prune (population : list string) (student_to_friends : Friends)
      (x : string) :
  Dict.get_default (prune population student_to_friends) x []
  = filter (contains population) (Dict.get_default student_to_friends x []).
Proof.
  unfold Dict.get_default, prune.
  induction student_to_friends as [|[k fr] rest IH]; [reflexivity|].
  simpl. destruct (String.eqb k x); [reflexivity | exact IH].
Qed.

Lemma filter_prune (population members friends : list string) :
  incl members population ->
  filter (contains members) (filter (contains population) friends)
  = filter (contains members) friends.
Proof.
  intros Hincl. induction friends as [|f friends IH]; [reflexivity|].
  simpl. destruct (contains population f) eqn:Ep; simpl.
  - now rewrite IH.
  - destruct (contains members f) eqn:Em; [|exact IH].
    apply contains_In, Hincl, contains_In in Em. congruence.
Qed.

(** A friend outside the population adds nothing to any score. *)
Lemma group_score_prune (population : list string)
      (student_to_friends : Friends) (x : string) (members : list string) :
  incl members population ->
  group_score (prune population student_to_friends) x members
  = group_score student_to_friends x members.
Proof.
  intros Hincl. unfold group_score, friend_score.
  now rewrite get_prune, filter_prune.
Qed.

Lemma choose_group_prune (population : list string)
      (student_to_friends : Friends) (student_to_group : Dict.t string)
      (groups : Groups) (x : string) :
  incl (members_of groups) population ->
  choose_group (prune population student_to_friends) student_to_group groups x
  = choose_group student_to_friends student_to_group groups x.
Proof.
  intros Hincl. unfold choose_group, Dict.items.
  apply fold_left_ext_in. intros best [g m] Hin.
  unfold choose_step. rewrite group_score_prune; [reflexivity|].
  intros y Hy. apply Hincl, members_of_In. eauto.
Qed.

Lemma assign_student_members (student_to_friends : Friends)
      (st st' : Groups * Dict.t string) (x : string) :
  assign_student student_to_friends st x = Ok st' ->
  incl (members_of (fst st')) (x :: members_of (fst st)).
Proof.
  destruct st as [groups s2g]. intros E.
  destruct (assign_student_cases student_to_friends groups s2g x)
    as [[E' _]|(k & m & Hget & _ & E')]; rewrite E' in E; injection E as <-.
  - simpl. now apply incl_tl.
  - simpl. intros y Hy.
    apply (Permutation_in _ (members_of_append groups k m x Hget)). exact Hy.
Qed.

Lemma assign_in_order_prune (population students : list string)
      (student_to_friends : Friends) (num_groups : Z) :
  incl students population ->
  assign_in_order students (prune population student_to_friends) num_groups
  = assign_in_order students student_to_friends num_groups.
Proof.
  intros Hincl. unfold assign_in_order. f_equal.
  apply (foldM_ext_in _ _
           (fun st => incl (members_of (fst st)) population)).
  - intros [groups s2g] x _ HP. unfold assign_student.
    now rewrite choose_group_prune.
  - intros st x st' Hx HP E. apply assign_student_members in E.
    + intros y Hy. apply E in Hy as [<-|Hy]; [now apply Hincl | now apply HP].
  - simpl. rewrite init_groups_members. intros y [].
Qed.

Lemma has_friend_in_group_prune (population : list string) (groups : Groups)
      (x : string) (friends : list string) :
  incl (members_of groups) population ->
  has_friend_in_group groups x (filter (contains population) friends)
  = has_friend_in_group groups x friends.
Proof.
  intros Hincl. unfold has_friend_in_group.
  induction friends as [|f friends IH]; [reflexivity|].
  simpl. destruct (contains population f) eqn:Ep; simpl.
  - now rewrite IH.
  - rewrite IH.
    destruct (group_of groups f) as [gf|] eqn:Ef; [|reflexivity].
    apply group_of_In in Ef as (m & Hin & Hf).
    assert (In f population) by (apply Hincl, members_of_In; eauto).
    apply contains_In in H. congruence.
Qed.

Lemma counts_prune (population : list string) (groups : Groups)
      (student_to_friends : Friends) :
  incl (members_of groups) population ->
  count_evaluated groups (prune population student_to_friends)
  = count_evaluated groups student_to_friends
  /\ count_success groups (prune population student_to_friends)
     = count_success groups student_to_friends.
Proof.
  intros Hincl. unfold count_evaluated, count_success, prune, len.
  induction student_to_friends as [|[x fr] rest [IH1 IH2]]; [now split|].
  cbn [map filter fst snd].
  rewrite has_friend_in_group_prune by assumption.
  destruct (placed groups x); cbn [andb].
  - destruct (has_friend_in_group groups x fr); cbn [List.length];
      rewrite !Nat2Z.inj_succ; split; lia.
  - split; assumption.
Qed.

(** C8: friends that are not in the population are harmless.
    Assignment and evaluation return normally whatever the preference
    lists mention; such a friend adds nothing to the score of any group
    drawn from the population, so the assignment is the one obtained from
    the preference lists with these friends removed; and the evaluation of
    any partition of the population is the one obtained from the pruned
    lists, so such a friend never completes a match. *)
Theorem absent_friends_are_harmless
        (Rng : Type) (shuffle : Rng -> list string -> list string * Rng)
        (g : Rng) (students : list string) (student_to_friends : Friends)
        (num_groups : Z) (groups : Groups) :
  (forall g l, Permutation l (fst (shuffle g l))) ->
  incl (members_of groups) students ->
  (exists r,
      assign_students_to_groups shuffle g students student_to_friends
                                num_groups = Ok r
      /\ assign_students_to_groups shuffle g students
                                   (prune students student_to_friends)
                                   num_groups = Ok r)
  /\ (forall x members,
         incl members students ->
         group_score student_to_friends x members
         = group_score (prune students student_to_friends) x members)
  /\ (exists r,
         evaluate_friend_success groups student_to_friends = Ok r
         /\ evaluate_friend_success groups (prune students student_to_friends)
            = Ok r)
  /\ (forall x friends,
         has_friend_in_group groups x friends
         = has_friend_in_group groups x (filter (contains students) friends)).
Proof.
  intros Hperm Hincl. split; [|split; [|split]].
  - destruct (assign_students_to_groups_eq Rng shuffle g students
                student_to_friends num_groups) as (gs & Ein & E).
    destruct (assign_students_to_groups_eq Rng shuffle g students
                (prune students student_to_friends) num_groups)
      as (gs' & Ein' & E').
    rewrite assign_in_order_prune in Ein'.
    + rewrite Ein in Ein'. injection Ein' as <-. eauto.
    + intros y Hy.
      apply (Permutation_in _ (Permutation_sym (Hperm g students))). exact Hy.
  - intros x members Hm. symmetry. now apply group_score_prune.
  - rewrite !evaluate_friend_success_eq.
    destruct (counts_prune students groups student_to_friends Hincl)
      as [-> ->]. eauto.
  - intros x friends. symmetry. now apply has_friend_in_group_prune.
Qed.

Lemma absent_friends_are_harmless_witness :
  (exists r,
      assign_students_to_groups rotate_shuffle 1%nat abc
                                [("A", ["Zed"; "B"]); ("C", ["Yan"])] 2 = Ok r
      /\ assign_students_to_groups rotate_shuffle 1%nat abc
           (prune abc [("A", ["Zed"; "B"]); ("C", ["Yan"])]) 2 = Ok r)
  /\ (forall x members,
         incl members abc ->
         group_score [("A", ["Zed"; "B"]); ("C", ["Yan"])] x members
         = group_score (prune abc [("A", ["Zed"; "B"]); ("C", ["Yan"])])
                       x members)
  /\ (exists r,
         evaluate_friend_success skew_210
                                 [("A", ["Zed"; "B"]); ("C", ["Yan"])] = Ok r
         /\ evaluate_friend_success skew_210
              (prune abc [("A", ["Zed"; "B"]); ("C", ["Yan"])]) = Ok r)
  /\ (forall x friends,
         has_friend_in_group skew_210 x friends
         = has_friend_in_group skew_210 x (filter (contains abc) friends)).
Proof.
  apply (absent_friends_are_harmless nat rotate_shuffle).
  - exact rotate_shuffle_Permutation.
  - simpl. unfold abc. intros y Hy. exact Hy.
Defined.

(** * The search driver *)

Lemma Qgtb_true (a b : Q) : Qgtb a b = true <-> (b < a)%Q.
Proof.
  unfold Qgtb. rewrite negb_true_iff. split.
  - intros H. apply Qnot_le_lt. intros Hle.
    apply Qle_bool_iff in Hle. congruence.
  - intros H. destruct (Qle_bool a b) eqn:E; [|reflexivity].
    apply Qle_bool_iff in E. exfalso. eapply Qlt_not_le; eauto.
Qed.

Lemma Qgtb_false (a b : Q) : Qgtb a b = false <-> (a <= b)%Q.
Proof.
  unfold Qgtb. rewrite negb_false_iff. apply Qle_bool_iff.
Qed.

(** The record is replaced, whole, exactly when the new percentage is
    strictly greater. *)
Lemma update_max_cases (best curr : values) :
  ((val_percent best < val_percent curr)%Q /\ update_max best curr = curr)
  \/ ((val_percent curr <= val_percent best)%Q /\ update_max best curr = best).
Proof.
  unfold update_max.
  destruct (Qgtb (val_percent curr) (val_percent best)) eqn:E.
  - left. split; [now apply Qgtb_true|]. now destruct curr.
  - right. split; [now apply Qgtb_false | reflexivity].
Qed.

Lemma best_of_ge_start (vs : list values) (best : values) :
  (val_percent best <= val_percent (best_of vs best))%Q.
Proof.
  revert best. induction vs as [|c vs IH]; intros best; [apply Qle_refl|].
  cbn [best_of fold_left]. fold (best_of vs (update_max best c)).
  eapply Qle_trans; [|apply IH].
  destruct (update_max_cases best c) as [[H ->]|[H ->]];
    [now apply Qlt_le_weak | apply Qle_refl].
Qed.

Lemma best_of_ge_all (vs : list values) (best v : values) :
  In v vs -> (val_percent v <= val_percent (best_of vs best))%Q.
Proof.
  revert best. induction vs as [|c vs IH]; intros best; [intros []|].
  cbn [best_of fold_left]. fold (best_of vs (update_max best c)).
  intros [->|Hin]; [|now apply IH].
  eapply Qle_trans; [|apply best_of_ge_start].
  destruct (update_max_cases best v) as [[H ->]|[H ->]];
    [apply Qle_refl | exact H].
Qed.

(** The final record is the starting one, or the record of the first
    trial that reaches the final percentage. *)
Lemma best_of_first (vs : list values) (best : values) :
  best_of vs best = best
  \/ exists i v,
      nth_error vs i = Some v
      /\ best_of vs best = v
      /\ (val_percent best < val_percent v)%Q
      /\ forall j v', (j < i)%nat -> nth_error vs j = Some v' ->
                      (val_percent v' < val_percent v)%Q.
Proof.
  revert best. induction vs as [|c vs IH]; intros best; [now left|].
  cbn [best_of fold_left]. fold (best_of vs (update_max best c)).
  destruct (update_max_cases best c) as [[Hlt ->]|[Hle ->]].
  - destruct (IH c) as [E|(i & v & Hn & E & Hcv & Hfirst)].
    + right. exists O, c. repeat split; auto. intros j v' Hj. lia.
    + right. exists (S i), v. repeat split; auto.
      * eapply Qlt_trans; eauto.
      * intros [|j] v' Hj Hv'.
        -- injection Hv' as <-. exact Hcv.
        -- apply (Hfirst j); [lia | exact Hv'].
  - destruct (IH best) as [E|(i & v & Hn & E & Hbv & Hfirst)]; [now left|].
    right. exists (S i), v. repeat split; auto.
    intros [|j] v' Hj Hv'.
    + injection Hv' as <-. eapply Qle_lt_trans; eauto.
    + apply (Hfirst j); [lia | exact Hv'].
Qed.

Section SearchFacts.
Variable Rng : Type.
Variable shuffle : Rng -> list string -> list string * Rng.

(** The loop of run_n_times is the sequence of its trials, folded with
    [update_max]; the index of the loop is not used. *)
Lemma search_loop_eq (file : list row) (num_groups : Z) (l : list Z) :
  forall (g : Rng) (best curr : values),
    match run_trials shuffle g file num_groups (List.length l) with
    | Ok (g', ts) =>
        exists curr',
          foldM (run_n_times_step shuffle file num_groups) l (g, best, curr)
          = Ok (g', best_of (map values_of_trial ts) best, curr')
    | Raise e =>
        foldM (run_n_times_step shuffle file num_groups) l (g, best, curr)
        = Raise e
    | Timeout =>
        foldM (run_n_times_step shuffle file num_groups) l (g, best, curr)
        = Timeout
    end.
Proof.
  induction l as [|i l IH]; intros g best curr.
  - simpl. eauto.
  - cbn [foldM run_trials List.length]. unfold run_n_times_step at 1 3 5.
    destruct (run_smart_assignment shuffle g file num_groups)
      as [[g1 t]| |]; cbn [bind]; try reflexivity.
    specialize (IH g1 (update_max best (values_of_trial t))
                   (values_of_trial t)).
    destruct (run_trials shuffle g1 file num_groups (List.length l))
      as [[g' ts]| |]; cbn [bind]; try exact IH.
Qed.

Lemma run_n_times_search_eq (g : Rng) (file : list row) (num_groups n : Z) :
  run_n_times_search shuffle g file num_groups n
  = ('(g', ts) <- run_trials shuffle g file num_groups (Z.to_nat n) ;;
     Ok (g', best_of (map values_of_trial ts) initial_values)).
Proof.
  unfold run_n_times_search.
  pose proof (search_loop_eq file num_groups (range n) g initial_values
                             initial_values) as H.
  rewrite length_range in H.
  destruct (run_trials shuffle g file num_groups (Z.to_nat n))
    as [[g' ts]| |]; cbn [bind].
  - destruct H as (curr' & ->). reflexivity.
  - now rewrite H.
  - now rewrite H.
Qed.

(** What a trial returns, when it returns. *)
Lemma run_smart_assignment_inv (g g' : Rng) (file : list row)
      (num_groups : Z) (t : trial) :
  run_smart_assignment shuffle g file num_groups = Ok (g', t) ->
  exists groups student_to_friends,
    t = (percent_of (count_success groups student_to_friends)
                    (count_evaluated groups student_to_friends),
         groups, student_to_friends,
         count_success groups student_to_friends,
         count_evaluated groups student_to_friends).
Proof.
  unfold run_smart_assignment.
  destruct (load_students file) as [students stf].
  destruct (shuffle g students) as [students1 g1].
  destruct (assign_students_to_groups shuffle g1 students1 stf num_groups)
    as [[[g2 students2] assigned]| |]; cbn [bind]; try discriminate.
  destruct (floordiv (len students2) num_groups) as [target| |];
    cbn [bind]; try discriminate.
  destruct (balance_groups assigned target) as [groups| |];
    cbn [bind]; try discriminate.
  rewrite evaluate_friend_success_eq. cbn [bind].
  intros [= <- <-]. eauto.
Qed.

Lemma run_trials_spec (file : list row) (num_groups : Z) (n : nat) :
  forall (g g' : Rng) (ts : list trial),
    run_trials shuffle g file num_groups n = Ok (g', ts) ->
    List.length ts = n
    /\ forall t, In t ts -> (0 <= trial_percent t)%Q.
Proof.
  induction n as [|n IH]; intros g g' ts; cbn [run_trials].
  - intros [= <- <-]. split; [reflexivity | intros t []].
  - destruct (run_smart_assignment shuffle g file num_groups)
      as [[g1 t]| |] eqn:E1; cbn [bind]; try discriminate.
    destruct (run_trials shuffle g1 file num_groups n)
      as [[g2 ts']| |] eqn:E2; cbn [bind]; try discriminate.
    intros [= <- <-]. destruct (IH _ _ _ E2) as [Hlen Hpos].
    split; [simpl; now rewrite Hlen|].
    intros t' [<-|Hin]; [|now apply Hpos].
    apply run_smart_assignment_inv in E1 as (groups & stf & ->).
    cbn [trial_percent]. apply percent_of_nonneg.
    apply count_success_bounds.
Qed.

End SearchFacts.

Lemma val_percent_of_trial (t : trial) :
  val_percent (values_of_trial t) = trial_percent t.
Proof. now destruct t as [[[[p gs] stf] s] n]. Qed.

(** * Degenerate configurations *)

Lemma assign_no_groups (student_to_friends : Friends) (students : list string)
      (student_to_group : Dict.t string) :
  foldM (assign_student student_to_friends) students ([], student_to_group)
  = Ok ([], student_to_group).
Proof.
  induction students as [|x students IH]; [reflexivity|].
  cbn [foldM]. unfold assign_student at 1, choose_group. simpl. exact IH.
Qed.

Lemma assign_in_order_nonpos (students : list string)
      (student_to_friends : Friends) (num_groups : Z) :
  num_groups <= 0 ->
  assign_in_order students student_to_friends num_groups = Ok [].
Proof.
  intros H. unfold assign_in_order.
  rewrite init_groups_nonpos by assumption. now rewrite assign_no_groups.
Qed.

(** When the exit test holds at once, the dictionary is returned as it
    is. *)
Lemma balance_groups_stop (groups : Groups) (target_size : Z) :
  filter (is_overfilled groups target_size) (Dict.keys groups) = []
  \/ filter (is_underfilled groups target_size) (Dict.keys groups) = [] ->
  balance_groups groups target_size = Ok groups.
Proof.
  intros H. unfold balance_groups, balance_fuel. cbn [balance_loop].
  unfold balance_step.
  rewrite overfilled_eq, underfilled_eq by apply incl_refl. cbn [bind].
  destruct H as [-> | ->]; [reflexivity|].
  now destruct (filter (is_overfilled groups target_size) (Dict.keys groups)).
Qed.

Lemma placed_nobody (groups : Groups) (x : string) :
  members_of groups = [] -> placed groups x = false.
Proof. unfold placed. now intros ->. Qed.

Lemma counts_nobody (groups : Groups) (student_to_friends : Friends) :
  members_of groups = [] ->
  count_evaluated groups student_to_friends = 0
  /\ count_success groups student_to_friends = 0.
Proof.
  intros H. unfold count_evaluated, count_success.
  induction student_to_friends as [|[x fr] rest [IH1 IH2]]; [now split|].
  cbn [filter fst snd]. rewrite placed_nobody by assumption. now split.
Qed.

Lemma evaluate_nobody (groups : Groups) (student_to_friends : Friends) :
  members_of groups = [] ->
  evaluate_friend_success groups student_to_friends = Ok (0%Q, 0, 0).
Proof.
  intros H. rewrite evaluate_friend_success_eq.
  now destruct (counts_nobody groups student_to_friends H) as [-> ->].
Qed.

Lemma init_groups_sizes (num_groups : Z) (g : string) :
  size_of (init_groups num_groups) g = 0.
Proof.
  unfold size_of, Dict.get_default. rewrite init_groups_eq.
  induction (range num_groups) as [|i l IH]; [reflexivity|].
  cbn [map Dict.get].
  destruct (String.eqb (group_name i) g); [reflexivity | exact IH].
Qed.

Lemma balance_init_groups (num_groups : Z) :
  balance_groups (init_groups num_groups) 0 = Ok (init_groups num_groups).
Proof.
  apply balance_groups_stop. left.
  induction (Dict.keys (init_groups num_groups)) as [|g l IH]; [reflexivity|].
  simpl. unfold is_overfilled at 1. rewrite init_groups_sizes. exact IH.
Qed.

Section Degenerate.
Variable Rng : Type.
Variable shuffle : Rng -> list string -> list string * Rng.

Lemma run_smart_assignment_nonpos (g : Rng) (file : list row)
      (num_groups : Z) :
  num_groups <= 0 ->
  run_smart_assignment shuffle g file num_groups
  = if num_groups =? 0 then Raise ZeroDivisionError
    else Ok (rng_after_trial shuffle g (fst (load_students file)),
             (0%Q, [], snd (load_students file), 0, 0)).
Proof.
  intros H. unfold run_smart_assignment, rng_after_trial.
  destruct (load_students file) as [students stf]. cbn [fst snd].
  destruct (shuffle g students) as [students1 g1]. cbn [fst snd].
  unfold assign_students_to_groups.
  destruct (shuffle g1 students1) as [students2 g2]. cbn [fst snd].
  rewrite assign_in_order_nonpos by assumption. cbn [bind].
  unfold floordiv. destruct (num_groups =? 0); [reflexivity|]. cbn [bind].
  rewrite balance_groups_stop by (now left). cbn [bind].
  rewrite evaluate_nobody by reflexivity. reflexivity.
Qed.

Lemma run_n_times_search_nonpos (g : Rng) (file : list row)
      (num_groups n : Z) :
  n <= 0 ->
  run_n_times_search shuffle g file num_groups n = Ok (g, initial_values).
Proof.
  intros H. unfold run_n_times_search. now rewrite range_nonpos.
Qed.

Hypothesis shuffle_Permutation :
  forall g l, Permutation l (fst (shuffle g l)).

Lemma shuffle_nil (g : Rng) : fst (shuffle g []) = [].
Proof. apply Permutation_nil, shuffle_Permutation. Qed.

(** A trial on the empty spreadsheet. *)
Lemma run_smart_assignment_empty (g : Rng) (num_groups : Z) :
  num_groups <> 0 ->
  run_smart_assignment shuffle g [] num_groups
  = Ok (rng_after_trial shuffle g [],
        (0%Q, init_groups num_groups, [], 0, 0)).
Proof.
  intros H. unfold run_smart_assignment, rng_after_trial. cbn [load_students fold_left].
  pose proof (shuffle_nil g) as E1.
  destruct (shuffle g []) as [students1 g1]. cbn [fst snd] in *. subst.
  unfold assign_students_to_groups.
  pose proof (shuffle_nil g1) as E2.
  destruct (shuffle g1 []) as [students2 g2]. cbn [fst snd] in *. subst.
  unfold assign_in_order. cbn [foldM bind].
  unfold floordiv. destruct (Z.eqb_spec num_groups 0); [contradiction|].
  cbn [bind]. change (len [] / num_groups) with (0 / num_groups).
  rewrite Z.div_0_l by assumption.
  rewrite balance_init_groups. cbn [bind].
  rewrite evaluate_nobody by apply init_groups_members. reflexivity.
Qed.

Lemma run_trials_empty (num_groups : Z) (n : nat) (g : Rng) :
  num_groups <> 0 ->
  exists g' ts,
    run_trials shuffle g [] num_groups n = Ok (g', ts)
    /\ Forall (fun t => t = (0%Q, init_groups num_groups, [], 0, 0)) ts.
Proof.
  intros H. revert g. induction n as [|n IH]; intros g; cbn [run_trials].
  - eauto.
  - rewrite run_smart_assignment_empty by assumption. cbn [bind].
    destruct (IH (rng_after_trial shuffle g [])) as (g' & ts & -> & Hall).
    cbn [bind]. eauto.
Qed.

Lemma best_of_all_zero (ts : list trial) (num_groups : Z) :
  Forall (fun t => t = (0%Q, init_groups num_groups, [], 0, 0)) ts ->
  best_of (map values_of_trial ts) initial_values = initial_values.
Proof.
  induction 1 as [|t ts -> _ IH]; [reflexivity|]. exact IH.
Qed.

End Degenerate.

(** C7, as stated, fails: nothing validates the configuration.  With
    a group count of -1 a trial returns normally, with no groups and the
    metrics 0, 0, 0. *)
Lemma configuration_check_counterexample :
  run_smart_assignment rotate_shuffle 0%nat demo_file (-1)
  = Ok (2%nat,
        (0%Q, [], [("A", ["B"]); ("B", ["A"; "Z"]); ("C", ["A"])], 0, 0)).
Proof. reflexivity. Qed.

(** C7, amended: the pipeline checks neither argument.  With a negative
    group count run_smart_assignment returns normally, with an empty
    dictionary of groups, 0 successes out of 0 and percentage 0; with a
    group count of 0 it raises ZeroDivisionError, from the division that
    computes the target size, after the assignment has run.  With a trial
    count of zero or less the loop of run_n_times runs no trial and the
    best-so-far record keeps its initial values. *)
Theorem configuration_is_not_checked
        (Rng : Type) (shuffle : Rng -> list string -> list string * Rng)
        (g : Rng) (file : list row) (num_groups n : Z) :
  (num_groups < 0 ->
   run_smart_assignment shuffle g file num_groups
   = Ok (rng_after_trial shuffle g (fst (load_students file)),
         (0%Q, [], snd (load_students file), 0, 0)))
  /\ (num_groups = 0 ->
      run_smart_assignment shuffle g file num_groups
      = Raise ZeroDivisionError)
  /\ (n <= 0 ->
      run_n_times_search shuffle g file num_groups n
      = Ok (g, initial_values)).
Proof.
  split; [|split].
  - intros H. rewrite run_smart_assignment_nonpos by lia.
    destruct (Z.eqb_spec num_groups 0); [lia | reflexivity].
  - intros ->. now rewrite run_smart_assignment_nonpos.
  - apply run_n_times_search_nonpos.
Qed.

Lemma configuration_is_not_checked_witness :
  run_smart_assignment rotate_shuffle 0%nat demo_file (-2)
  = Ok (rng_after_trial rotate_shuffle 0%nat (fst (load_students demo_file)),
        (0%Q, [], snd (load_students demo_file), 0, 0))
  /\ run_smart_assignment rotate_shuffle 0%nat demo_file 0
     = Raise ZeroDivisionError
  /\ run_n_times_search rotate_shuffle 0%nat demo_file 2 0
     = Ok (0%nat, initial_values).
Proof.
  split; [|split].
  - apply (configuration_is_not_checked nat rotate_shuffle 0%nat demo_file
             (-2) 0). lia.
  - apply (configuration_is_not_checked nat rotate_shuffle 0%nat demo_file
             0 0). reflexivity.
  - apply (configuration_is_not_checked nat rotate_shuffle 0%nat demo_file
             2 0). lia.
Defined.

(** C9: on an empty spreadsheet every trial returns normally with 0
    successes out of 0 and percentage 0, over groups that are all empty.
    No trial scores strictly above the initial percentage 0, so the
    best-so-far record is never replaced: its groups stay [None], and the
    export of the best groups raises AttributeError.  No partition is
    delivered. *)
Theorem empty_population_search
        (Rng : Type) (shuffle : Rng -> list string -> list string * Rng)
        (g : Rng) (num_groups n : Z) :
  (forall g l, Permutation l (fst (shuffle g l))) ->
  num_groups <> 0 ->
  (forall g0,
      run_smart_assignment shuffle g0 [] num_groups
      = Ok (rng_after_trial shuffle g0 [],
            (0%Q, init_groups num_groups, [], 0, 0)))
  /\ (exists g',
         run_n_times_search shuffle g [] num_groups n
         = Ok (g', initial_values))
  /\ val_groups initial_values = None
  /\ run_n_times shuffle g [] num_groups n = Raise AttributeError.
Proof.
  intros Hperm Hk.
  assert (Hsearch : exists g',
             run_n_times_search shuffle g [] num_groups n
             = Ok (g', initial_values)).
  { rewrite run_n_times_search_eq.
    destruct (run_trials_empty Rng shuffle Hperm num_groups (Z.to_nat n) g Hk)
      as (g' & ts & -> & Hall).
    cbn [bind]. rewrite (best_of_all_zero ts num_groups Hall). eauto. }
  split; [|split; [|split]].
  - intros g0. now apply run_smart_assignment_empty.
  - exact Hsearch.
  - reflexivity.
  - unfold run_n_times. destruct Hsearch as (g' & ->). reflexivity.
Qed.

Lemma empty_population_search_witness :
  (forall g0,
      run_smart_assignment rotate_shuffle g0 [] 9
      = Ok (rng_after_trial rotate_shuffle g0 [],
            (0%Q, init_groups 9, [], 0, 0)))
  /\ (exists g',
         run_n_times_search rotate_shuffle 0%nat [] 9 50
         = Ok (g', initial_values))
  /\ val_groups initial_values = None
  /\ run_n_times rotate_shuffle 0%nat [] 9 50 = Raise AttributeError.
Proof.
  apply (empty_population_search nat rotate_shuffle 0%nat 9 50).
  - exact rotate_shuffle_Permutation.
  - lia.
Defined.

(** * Further properties of the code *)

(** ** load_students *)

Lemma keys_set {V : Type} (d : Dict.t V) (k : string) (v : V) :
  Dict.keys (Dict.set d k v)
  = if Dict.mem d k then Dict.keys d else Dict.keys d ++ [k].
Proof.
  destruct (Dict.mem d k) eqn:E.
  - apply DictFacts.keys_set_present. now apply DictFacts.mem_In_keys.
  - rewrite DictFacts.set_absent.
    + unfold Dict.keys. now rewrite map_app.
    + intros H. apply DictFacts.mem_In_keys in H. congruence.
Qed.

Lemma wf_set {V : Type} (d : Dict.t V) (k : string) (v : V) :
  Dict.wf d -> Dict.wf (Dict.set d k v).
Proof.
  unfold Dict.wf. intros H. rewrite keys_set.
  destruct (Dict.mem d k) eqn:E; [exact H|].
  apply NoDup_app; [exact H | repeat constructor; intros [] |].
  intros a Ha [<-|[]]. apply DictFacts.mem_In_keys in Ha. congruence.
Qed.

Lemma In_set {V : Type} (d : Dict.t V) (k k' : string) (v v' : V) :
  In (k', v') (Dict.set d k v) -> (k' = k /\ v' = v) \/ In (k', v') d.
Proof.
  induction d as [|[k0 v0] d IH]; simpl.
  - intros [[= <- <-]|[]]. now left.
  - destruct (String.eqb_spec k0 k) as [->|Hne]; simpl.
    + intros [[= <- <-]|H]; [now left | right; now right].
    + intros [H|H]; [right; now left|].
      destruct (IH H) as [?|?]; [now left | right; now right].
Qed.

Lemma load_students_acc (file : list row) (students : list string)
      (d : Friends) :
  fold_left
    (fun (acc : list string * Friends) r =>
       let '(students, student_to_friends) := acc in
       (students ++ [row_student r],
        Dict.set student_to_friends (row_student r) (row_friends r)))
    file (students, d)
  = (students ++ map row_student file,
     fold_left (fun d r => Dict.set d (row_student r) (row_friends r))
               file d).
Proof.
  revert students d. induction file as [|r file IH]; intros students d.
  - simpl. now rewrite app_nil_r.
  - cbn [fold_left map]. rewrite IH. now rewrite <- app_assoc.
Qed.

Lemma load_students_eq (file : list row) :
  load_students file
  = (map row_student file,
     fold_left (fun d r => Dict.set d (row_student r) (row_friends r))
               file Dict.empty).
Proof. unfold load_students. now rewrite load_students_acc. Qed.

Lemma load_fold_facts (file : list row) (d : Friends) :
  let d' := fold_left (fun d r => Dict.set d (row_student r) (row_friends r))
                      file d in
  (Dict.wf d -> Dict.wf d')
  /\ (forall x, In x (Dict.keys d')
                <-> In x (Dict.keys d) \/ In x (map row_student file))
  /\ (forall x fr, In (x, fr) d' ->
                   In (x, fr) d
                   \/ exists r, In r file /\ row_student r = x
                                /\ row_friends r = fr)
  /\ (forall x, ~ In x (map row_student file) ->
                Dict.get d' x = Dict.get d x).
Proof.
  revert d. induction file as [|r file IH]; intros d; cbn [fold_left map].
  - repeat split; auto; simpl; tauto.
  - destruct (IH (Dict.set d (row_student r) (row_friends r)))
      as (Hwf & Hkeys & Hval & Hget).
    repeat split.
    + intros H. now apply Hwf, wf_set.
    + intros H. apply Hkeys in H as [H|H]; [|right; now right].
      rewrite keys_set in H.
      destruct (Dict.mem d (row_student r)); [now left|].
      apply in_app_or in H as [H|[<-|[]]]; [now left | right; now left].
    + intros [H|[<-|H]]; apply Hkeys.
      * left. rewrite keys_set.
        destruct (Dict.mem d (row_student r)); [exact H|].
        apply in_or_app. now left.
      * left. apply DictFacts.mem_In_keys.
        rewrite DictFacts.mem_set, String.eqb_refl. reflexivity.
      * now right.
    + intros x fr H. apply Hval in H as [H|(r' & Hr' & E1 & E2)].
      * apply In_set in H as [[-> ->]|H]; [|now left].
        right. exists r. repeat split. now left.
      * right. exists r'. repeat split; auto. now right.
    + intros x Hx. rewrite Hget by (intros H; apply Hx; now right).
      apply DictFacts.get_set_other. intros E. apply Hx. now left.
Qed.

Lemma row_friends_length (r : row) : (List.length (row_friends r) <= 2)%nat.
Proof.
  unfold row_friends. destruct (row_friend1 r), (row_friend2 r); simpl; lia.
Qed.

Lemma row_friends_In (r : row) (f : string) :
  In f (row_friends r) <-> row_friend1 r = Some f \/ row_friend2 r = Some f.
Proof.
  unfold row_friends. destruct (row_friend1 r), (row_friend2 r); simpl;
    split; intros H; intuition congruence.
Qed.

(** X1: load_students returns the students in the order of the rows,
    one entry per row, repeated when a student has several rows; the
    preference dictionary has one key per distinct student of the sheet
    and no other key. *)
Theorem load_students_students_and_keys (file : list row) :
  fst (load_students file) = map row_student file
  /\ Dict.wf (snd (load_students file))
  /\ (forall x, In x (Dict.keys (snd (load_students file)))
                <-> In x (fst (load_students file))).
Proof.
  rewrite load_students_eq. cbn [fst snd].
  destruct (load_fold_facts file Dict.empty) as (Hwf & Hkeys & _).
  split; [reflexivity|]. split; [apply Hwf; constructor|].
  intros x. rewrite Hkeys. simpl. tauto.
Qed.

(** X2: the friends recorded for a student are those of the last row
    of that student (an earlier row of the same student is overwritten);
    a recorded list holds the non-blank friend cells of its row, friend1
    before friend2, so at most two names. *)
Theorem load_students_last_row_wins (file : list row) :
  (forall before r after,
      file = before ++ r :: after ->
      ~ In (row_student r) (map row_student after) ->
      Dict.get (snd (load_students file)) (row_student r)
      = Some (row_friends r))
  /\ (forall x friends,
         In (x, friends) (snd (load_students file)) ->
         (List.length friends <= 2)%nat
         /\ exists r,
             In r file /\ row_student r = x
             /\ forall f, In f friends
                          <-> row_friend1 r = Some f \/ row_friend2 r = Some f).
Proof.
  rewrite load_students_eq. cbn [snd]. split.
  - intros before r after -> Hlast.
    rewrite fold_left_app. cbn [fold_left].
    destruct (load_fold_facts after
                (Dict.set (fold_left
                             (fun d r => Dict.set d (row_student r)
                                                  (row_friends r))
                             before Dict.empty)
                          (row_student r) (row_friends r)))
      as (_ & _ & _ & Hget).
    rewrite Hget by assumption. apply DictFacts.get_set_same.
  - intros x friends H.
    destruct (load_fold_facts file Dict.empty) as (_ & _ & Hval & _).
    apply Hval in H as [[]|(r & Hr & <- & <-)].
    split; [apply row_friends_length|].
    exists r. repeat split; auto; apply row_friends_In.
Qed.

Lemma load_students_last_row_wins_witness :
  Dict.get (snd (load_students twice_file)) "A" = Some ["C"].
Proof.
  destruct (load_students_last_row_wins twice_file) as [Hlast _].
  apply (Hlast
           [ {| row_student := "A"; row_friend1 := Some "B";
                row_friend2 := None |};
             {| row_student := "B"; row_friend1 := None;
                row_friend2 := None |} ]
           {| row_student := "A"; row_friend1 := None;
              row_friend2 := Some "C" |}
           []).
  - reflexivity.
  - simpl. tauto.
Defined.

(** ** The greedy choice *)

Section Greedy.
Variable student_to_friends : Friends.
Variable student_to_group : Dict.t string.
Variable student : string.
Hypothesis unassigned : Dict.mem student_to_group student = false.

Local Abbreviation sc := (group_score student_to_friends student) (only parsing).

(** The inner loop, from any starting best: either nothing beats the
    start, or the result is the first item whose score beats the start
    and everything before it, and no later item beats it. *)
Lemma choose_fold_argmax (items : list (string * list string))
      (best : option string * score) :
  (fold_left (choose_step student_to_friends student_to_group student)
             items best = best
   /\ forall g m, In (g, m) items -> score_gt (sc m) (snd best) = false)
  \/
  (exists before k m after,
      items = before ++ (k, m) :: after
      /\ fold_left (choose_step student_to_friends student_to_group student)
                   items best = (Some k, Fin (sc m))
      /\ score_gt (sc m) (snd best) = true
      /\ (forall g' m', In (g', m') before -> sc m' < sc m)
      /\ (forall g' m', In (g', m') after -> sc m' <= sc m)).
Proof.
  revert best. induction items as [|[g m] items IH]; intros best.
  - left. split; [reflexivity | intros g m []].
  - cbn [fold_left]. rewrite choose_step_unassigned by assumption.
    cbv zeta. destruct (score_gt (sc m) (snd best)) eqn:Egt.
    + right. destruct (IH (Some g, Fin (sc m)))
        as [[E Hall]|(before & k & m' & after & -> & E & Hgt & Hb & Ha)].
      * exists [], g, m, items. repeat split; auto.
        -- intros g' m' [].
        -- intros g' m' Hin. specialize (Hall g' m' Hin). simpl in Hall.
           apply Z.ltb_ge in Hall. exact Hall.
      * simpl in Hgt. apply Z.ltb_lt in Hgt.
        exists ((g, m) :: before), k, m', after. repeat split; auto.
        -- destruct best as [bg [|b]]; simpl in *; [reflexivity|].
           apply Z.ltb_lt in Egt. apply Z.ltb_lt. lia.
        -- intros g' m'' [[= <- <-]|Hin]; [exact Hgt | eapply Hb; eauto].
    + destruct (IH best)
        as [[E Hall]|(before & k & m' & after & -> & E & Hgt & Hb & Ha)].
      * left. split; [exact E|].
        intros g' m' [[= <- <-]|Hin]; [exact Egt | eapply Hall; eauto].
      * right. exists ((g, m) :: before), k, m', after. repeat split; auto.
        intros g' m'' [[= <- <-]|Hin]; [|eapply Hb; eauto].
        destruct best as [bg [|b]]; simpl in *; [discriminate|].
        apply Z.ltb_ge in Egt. apply Z.ltb_lt in Hgt. lia.
Qed.

Lemma choose_group_argmax (groups : Groups) :
  groups <> [] ->
  exists before k m after,
    groups = before ++ (k, m) :: after
    /\ choose_group student_to_friends student_to_group groups student
       = (Some k, Fin (sc m))
    /\ (forall g' m', In (g', m') before -> sc m' < sc m)
    /\ (forall g' m', In (g', m') after -> sc m' <= sc m).
Proof.
  intros Hne. unfold choose_group, Dict.items.
  destruct (choose_fold_argmax groups (None, NegInf))
    as [[_ Hall]|(before & k & m & after & E & Ef & _ & Hb & Ha)].
  - destruct groups as [|[g m] rest]; [congruence|].
    specialize (Hall g m (or_introl eq_refl)). discriminate.
  - exists before, k, m, after. auto.
Qed.

End Greedy.

Lemma wf_app_not_in {V : Type} (d1 d2 : Dict.t V) (k : string) (v : V) :
  Dict.wf (d1 ++ (k, v) :: d2) -> ~ In k (Dict.keys d1).
Proof.
  unfold Dict.wf, Dict.keys. rewrite map_app. simpl. intros H Hin.
  apply NoDup_remove_2 in H. apply H, in_or_app. now left.
Qed.

(** The placement of one unassigned student in a dictionary with
    distinct group names. *)
Lemma assign_student_argmax (student_to_friends : Friends) (groups : Groups)
      (student_to_group : Dict.t string) (student : string) :
  Dict.wf groups -> groups <> [] ->
  Dict.mem student_to_group student = false ->
  exists before k m after,
    groups = before ++ (k, m) :: after
    /\ (forall g' m', In (g', m') before ->
                      group_score student_to_friends student m'
                      < group_score student_to_friends student m)
    /\ (forall g' m', In (g', m') after ->
                      group_score student_to_friends student m'
                      <= group_score student_to_friends student m)
    /\ assign_student student_to_friends (groups, student_to_group) student
       = Ok (before ++ (k, m ++ [student]) :: after,
             Dict.set student_to_group student k).
Proof.
  intros Hwf Hne Hmem.
  destruct (choose_group_argmax student_to_friends student_to_group student
              Hmem groups Hne) as (before & k & m & after & -> & E & Hb & Ha).
  exists before, k, m, after. repeat split; auto.
  pose proof (wf_app_not_in _ _ _ _ Hwf) as Hk.
  unfold assign_student. rewrite E. cbn [fst].
  unfold Dict.getitem. rewrite DictFacts.get_middle by assumption.
  cbn [bind]. now rewrite DictFacts.set_middle.
Qed.

(** X3: the greedy step.  A student who is not yet assigned goes to
    the first group, in iteration order, whose score 10 * friends - size
    is maximal: every earlier group scores strictly less and no later
    group scores more.  The student is appended to that group's list; the
    other groups are unchanged.  A student who is already assigned (a
    repeated name) changes nothing. *)
Theorem assign_student_first_best_group
        (student_to_friends : Friends) (groups : Groups)
        (student_to_group : Dict.t string) (student : string) :
  Dict.wf groups -> groups <> [] ->
  (Dict.mem student_to_group student = true ->
   assign_student student_to_friends (groups, student_to_group) student
   = Ok (groups, student_to_group))
  /\ (Dict.mem student_to_group student = false ->
      exists before k m after,
        groups = before ++ (k, m) :: after
        /\ (forall g' m', In (g', m') before ->
                          group_score student_to_friends student m'
                          < group_score student_to_friends student m)
        /\ (forall g' m', In (g', m') after ->
                          group_score student_to_friends student m'
                          <= group_score student_to_friends student m)
        /\ assign_student student_to_friends (groups, student_to_group)
                          student
           = Ok (before ++ (k, m ++ [student]) :: after,
                 Dict.set student_to_group student k)).
Proof.
  intros Hwf Hne. split.
  - intros Hmem. unfold assign_student, choose_group.
    now rewrite choose_fold_assigned.
  - intros Hmem. now apply assign_student_argmax.
Qed.

Lemma assign_student_first_best_group_witness :
  exists before k m after,
    skew_210 = before ++ (k, m) :: after
    /\ (forall g' m', In (g', m') before ->
                      group_score abc_friends "D" m'
                      < group_score abc_friends "D" m)
    /\ (forall g' m', In (g', m') after ->
                      group_score abc_friends "D" m'
                      <= group_score abc_friends "D" m)
    /\ assign_student abc_friends (skew_210, build_student_to_group skew_210)
                      "D"
       = Ok (before ++ (k, m ++ ["D"]) :: after,
             Dict.set (build_student_to_group skew_210) "D" k).
Proof.
  apply (assign_student_first_best_group abc_friends skew_210
           (build_student_to_group skew_210) "D").
  - unfold Dict.wf. simpl. repeat constructor; simpl; intuition discriminate.
  - discriminate.
  - reflexivity.
Defined.

Lemma friend_score_pos (friends members : list string) :
  0 <= friend_score friends members
  /\ (0 < friend_score friends members
      <-> exists f, In f friends /\ In f members).
Proof.
  unfold friend_score. rewrite sum_ones. split; [apply len_nonneg|].
  unfold len. split.
  - destruct (filter (contains members) friends) as [|f l] eqn:E;
      [simpl; lia|].
    intros _. assert (H : In f (filter (contains members) friends))
      by (rewrite E; now left).
    apply filter_In in H as [Hf Hc]. exists f. split; [exact Hf|].
    now apply contains_In.
  - intros (f & Hf & Hm).
    assert (H : In f (filter (contains members) friends)).
    { apply filter_In. split; [exact Hf | now apply contains_In]. }
    destruct (filter (contains members) friends); [destruct H | simpl; lia].
Qed.

(** X4: friends attract.  If one of the student's chosen friends
    already sits in a group of fewer than ten members, the student,
    when placed, joins a group that contains at least one chosen
    friend: one shared preference outweighs any size difference below
    ten. *)
Theorem assign_student_joins_a_friend
        (student_to_friends : Friends) (groups : Groups)
        (student_to_group : Dict.t string) (student : string)
        (g0 : string) (m0 : list string) (f0 : string) :
  Dict.wf groups ->
  Dict.mem student_to_group student = false ->
  In (g0, m0) groups -> len m0 < 10 ->
  In f0 (Dict.get_default student_to_friends student []) -> In f0 m0 ->
  exists before k m after f,
    groups = before ++ (k, m) :: after
    /\ In f (Dict.get_default student_to_friends student [])
    /\ In f m
    /\ assign_student student_to_friends (groups, student_to_group) student
       = Ok (before ++ (k, m ++ [student]) :: after,
             Dict.set student_to_group student k).
Proof.
  intros Hwf Hmem Hin Hsmall Hf Hfm.
  destruct (assign_student_argmax student_to_friends groups student_to_group
              student Hwf) as (before & k & m & after & E & Hb & Ha & Ea);
    [intros ->; destruct Hin | exact Hmem |].
  assert (H0 : 0 < group_score student_to_friends student m0).
  { unfold group_score.
    destruct (friend_score_pos
                (Dict.get_default student_to_friends student []) m0)
      as [_ Hpos].
    assert (0 < friend_score
                  (Dict.get_default student_to_friends student []) m0)
      by (apply Hpos; eauto).
    lia. }
  assert (Hmax : group_score student_to_friends student m0
                 <= group_score student_to_friends student m).
  { rewrite E in Hin. apply in_app_or in Hin as [Hin|[[= <- <-]|Hin]].
    - apply Z.lt_le_incl. eapply Hb; eauto.
    - lia.
    - eapply Ha; eauto. }
  assert (Hpos : 0 < friend_score
                       (Dict.get_default student_to_friends student []) m).
  { unfold group_score in Hmax, H0. pose proof (len_nonneg m). lia. }
  apply friend_score_pos in Hpos as (f & Hf' & Hfm').
  exists before, k, m, after, f. auto.
Qed.

Lemma assign_student_joins_a_friend_witness :
  exists before k m after f,
    skew_210 = before ++ (k, m) :: after
    /\ In f (Dict.get_default [("D", ["C"])] "D" [])
    /\ In f m
    /\ assign_student [("D", ["C"])]
                      (skew_210, build_student_to_group skew_210) "D"
       = Ok (before ++ (k, m ++ ["D"]) :: after,
             Dict.set (build_student_to_group skew_210) "D" k).
Proof.
  apply (assign_student_joins_a_friend [("D", ["C"])] skew_210
           (build_student_to_group skew_210) "D" "Group2" ["C"] "C").
  - unfold Dict.wf. simpl. repeat constructor; simpl; intuition discriminate.
  - reflexivity.
  - simpl. tauto.
  - vm_compute. reflexivity.
  - simpl. tauto.
  - simpl. tauto.
Defined.

(** ** Placement without usable preferences *)

Lemma foldM_invariant_in {A S : Type} (body : S -> A -> result S)
      (I : S -> Prop) (l : list A) :
  (forall s x, In x l -> I s -> exists s', body s x = Ok s' /\ I s') ->
  forall s, I s -> exists s', foldM body l s = Ok s' /\ I s'.
Proof.
  induction l as [|x l IH]; intros Hbody s HI; simpl; [eauto|].
  destruct (Hbody s x (or_introl eq_refl) HI) as (s1 & -> & HI1). simpl.
  apply IH; [|exact HI1]. intros s0 y Hy. apply Hbody. now right.
Qed.

Lemma group_score_no_friend (student_to_friends : Friends) (x : string)
      (members : list string) :
  (forall f, In f (Dict.get_default student_to_friends x []) ->
             ~ In f members) ->
  group_score student_to_friends x members = - len members.
Proof.
  intros H. unfold group_score.
  destruct (friend_score_pos (Dict.get_default student_to_friends x [])
                             members) as [Hnn Hpos].
  assert (~ 0 < friend_score (Dict.get_default student_to_friends x [])
                             members).
  { intros Hlt. apply Hpos in Hlt as (f & Hf & Hm). now apply (H f). }
  lia.
Qed.

Lemma wf_same_keys {V : Type} (d d' : Dict.t V) :
  Dict.keys d' = Dict.keys d -> Dict.wf d -> Dict.wf d'.
Proof. unfold Dict.wf. now intros ->. Qed.

Lemma assign_student_even (students : list string)
      (student_to_friends : Friends) (st : Groups * Dict.t string)
      (x : string) :
  (forall f, In f (Dict.get_default student_to_friends x []) ->
             ~ In f students) ->
  In x students ->
  Dict.wf (fst st) /\ incl (members_of (fst st)) students
  /\ even_sizes (fst st) ->
  exists st',
    assign_student student_to_friends st x = Ok st'
    /\ Dict.wf (fst st') /\ incl (members_of (fst st')) students
    /\ even_sizes (fst st').
Proof.
  destruct st as [groups s2g]. cbn [fst].
  intros Hno Hx (Hwf & Hincl & Heven).
  destruct (Dict.mem s2g x) eqn:Hmem.
  { exists (groups, s2g). split; [|auto].
    unfold assign_student, choose_group. now rewrite choose_fold_assigned. }
  destruct groups as [|item rest] eqn:Eg.
  { exists ([], s2g). split; [reflexivity | auto]. }
  rewrite <- Eg in *.
  destruct (assign_student_argmax student_to_friends groups s2g x Hwf)
    as (before & k & m & after & E & Hb & Ha & Ea);
    [rewrite Eg; discriminate | exact Hmem |].
  exists (before ++ (k, m ++ [x]) :: after, Dict.set s2g x k).
  split; [exact Ea|]. cbn [fst].
  assert (Hscore : forall g' m', In (g', m') groups ->
                     group_score student_to_friends x m' = - len m').
  { intros g' m' Hin. apply group_score_no_friend.
    intros f Hf Hm. apply (Hno f Hf). apply Hincl, members_of_In. eauto. }
  assert (Hmin : forall g' m', In (g', m') groups -> len m <= len m').
  { intros g' m' Hin.
    pose proof (Hscore g' m' Hin) as S1.
    assert (S2 : group_score student_to_friends x m = - len m).
    { apply (Hscore k). rewrite E. apply in_or_app. right. now left. }
    rewrite E in Hin. apply in_app_or in Hin as [Hin|[[= <- <-]|Hin]].
    - specialize (Hb _ _ Hin). lia.
    - lia.
    - specialize (Ha _ _ Hin). lia. }
  assert (Hold : forall g' m', In (g', m') (before ++ (k, m ++ [x]) :: after) ->
                   (g' = k /\ m' = m ++ [x]) \/ In (g', m') groups).
  { intros g' m' Hin. rewrite E.
    apply in_app_or in Hin as [Hin|[[= <- <-]|Hin]].
    - right. apply in_or_app. now left.
    - now left.
    - right. apply in_or_app. right. now right. }
  assert (Hkm : In (k, m) groups).
  { rewrite E. apply in_or_app. right. now left. }
  split; [|split].
  - eapply wf_same_keys; [|exact Hwf]. rewrite E.
    unfold Dict.keys. now rewrite !map_app.
  - intros y Hy. rewrite !members_of_app, !members_of_cons in Hy.
    assert (Hy' : x = y \/ In y (members_of groups)).
    { rewrite E, !members_of_app, !members_of_cons.
      rewrite !in_app_iff in Hy |- *.
      destruct Hy as [Hy|[Hy|Hy]]; [tauto | | tauto].
      apply in_app_or in Hy as [Hy|[Hy|[]]]; tauto. }
    destruct Hy' as [<-|Hy']; [exact Hx | now apply Hincl].
  - intros g1 m1 g2 m2 H1 H2.
    apply Hold in H1 as [[-> ->]|H1], H2 as [[-> ->]|H2].
    + lia.
    + rewrite len_app. unfold len at 2. simpl.
      specialize (Hmin _ _ H2). lia.
    + rewrite len_app. unfold len at 3. simpl.
      specialize (Heven _ _ _ _ H1 Hkm). lia.
    + eapply Heven; eauto.
Qed.

(** X5: without usable preferences the greedy pass deals the students
    out evenly.  When no student names a fellow student as a friend,
    every group score is minus the group size, each student goes to the
    first smallest group, and in the result any two group sizes differ by
    at most one. *)
Theorem assign_in_order_even_without_friends
        (students : list string) (student_to_friends : Friends)
        (num_groups : Z) :
  (forall x f, In x students ->
               In f (Dict.get_default student_to_friends x []) ->
               ~ In f students) ->
  exists groups,
    assign_in_order students student_to_friends num_groups = Ok groups
    /\ even_sizes groups
    /\ forall g1 m1 g2 m2,
        In (g1, m1) groups -> In (g2, m2) groups -> len m1 <= len m2 + 1.
Proof.
  intros Hno. unfold assign_in_order.
  destruct (foldM_invariant_in (assign_student student_to_friends)
              (fun st => Dict.wf (fst st)
                         /\ incl (members_of (fst st)) students
                         /\ even_sizes (fst st))
              students) with (s := (init_groups num_groups, @Dict.empty string))
    as ([groups s2g] & E & _ & _ & Heven).
  - intros st x Hx HI. apply (assign_student_even students); auto.
    intros f Hf. now apply (Hno x).
  - cbn [fst]. split; [apply init_groups_wf|]. split.
    + rewrite init_groups_members. intros y [].
    + intros g1 m1 g2 m2 H1 H2. rewrite init_groups_eq in H1, H2.
      apply in_map_iff in H1 as (i & [= <- <-] & _).
      apply in_map_iff in H2 as (j & [= <- <-] & _). unfold len. simpl. lia.
  - rewrite E. cbn [bind fst] in *. exists groups. auto.
Qed.

Lemma assign_in_order_even_without_friends_witness :
  exists groups,
    assign_in_order ["A"; "B"; "C"; "D"; "E"] [("A", ["Zed"])] 3 = Ok groups
    /\ even_sizes groups
    /\ forall g1 m1 g2 m2,
        In (g1, m1) groups -> In (g2, m2) groups -> len m1 <= len m2 + 1.
Proof.
  apply (assign_in_order_even_without_friends
           ["A"; "B"; "C"; "D"; "E"] [("A", ["Zed"])] 3).
  intros x f Hx Hf Hin. simpl in Hx.
  destruct Hx as [<-|[<-|[<-|[<-|[<-|[]]]]]]; vm_compute in Hf;
    try contradiction.
  destruct Hf as [<-|[]]. simpl in Hin. intuition discriminate.
Defined.

(** X6: whatever the students and preferences, the dictionary
    returned by assign_students_to_groups has the keys Group1, ...,
    GroupN in this order, one per requested group, including the groups
    that stay empty; for a group count of zero or less it has no key. *)
Theorem assign_students_to_groups_names
        (Rng : Type) (shuffle : Rng -> list string -> list string * Rng)
        (g : Rng) (students : list string) (student_to_friends : Friends)
        (num_groups : Z) :
  exists g' students' groups,
    assign_students_to_groups shuffle g students student_to_friends num_groups
    = Ok (g', students', groups)
    /\ Dict.keys groups = map group_name (range num_groups)
    /\ List.length groups = Z.to_nat num_groups
    /\ Dict.wf groups
    /\ (forall i j, group_name i = group_name j -> i = j).
Proof.
  destruct (assign_students_to_groups_eq Rng shuffle g students
              student_to_friends num_groups) as (groups & Ein & E).
  destruct (assign_in_order_spec (fst (shuffle g students)) student_to_friends
              num_groups) as (groups' & Ein' & Hk & _).
  rewrite Ein in Ein'. injection Ein' as <-.
  exists (snd (shuffle g students)), (fst (shuffle g students)), groups.
  split; [exact E|].
  assert (Hkeys : Dict.keys groups = map group_name (range num_groups)).
  { rewrite Hk, init_groups_eq. unfold Dict.keys. rewrite map_map.
    apply map_ext. reflexivity. }
  split; [exact Hkeys|]. split.
  - rewrite <- (length_map fst groups). fold (Dict.keys groups).
    now rewrite Hkeys, length_map, length_range.
  - split; [|apply group_name_inj].
    eapply wf_same_keys; [exact Hk | apply init_groups_wf].
Qed.

(** ** More on balancing *)

Lemma settled_refl (T : Z) (m : list string) : settled T m m.
Proof. now left. Qed.

Lemma settled_after_donor (T : Z) (m1 m' : list string) (s : string) :
  T + 1 <= len m1 -> settled T m1 m' -> settled T (m1 ++ [s]) m'.
Proof.
  intros Hlen [->|[(removed & Hne & -> & Hb)|(added & Hne & -> & Hb)]].
  - right. left. exists [s]. repeat split; [discriminate | assumption].
  - right. left. exists (removed ++ [s]). repeat split.
    + intros H. apply app_eq_nil in H as [_ H]. discriminate.
    + now rewrite <- app_assoc.
    + assumption.
  - exfalso. rewrite len_app in Hb. pose proof (len_nonneg added). lia.
Qed.

Lemma settled_after_receiver (T : Z) (m m' : list string) (s : string) :
  len (m ++ [s]) <= T -> settled T (m ++ [s]) m' -> settled T m m'.
Proof.
  intros Hlen [->|[(removed & Hne & E & Hb)|(added & Hne & -> & Hb)]].
  - right. right. exists [s]. repeat split; [discriminate | assumption].
  - exfalso. rewrite E, len_app in Hlen. pose proof (len_nonneg removed). lia.
  - right. right. exists ([s] ++ added). repeat split.
    + discriminate.
    + now rewrite <- app_assoc.
    + exact Hb.
Qed.

Lemma balance_loop_settled (fuel : nat) :
  forall (groups : Groups) (group_list : list string) (target_size : Z)
         (groups' : Groups),
    incl group_list (Dict.keys groups) ->
    balance_loop fuel groups group_list target_size = Ok groups' ->
    forall k m, Dict.get groups k = Some m ->
                exists m', Dict.get groups' k = Some m'
                           /\ settled target_size m m'.
Proof.
  induction fuel as [|fuel IH];
    intros groups group_list T groups' Hincl E k m Hget; [discriminate|].
  cbn [balance_loop] in E.
  destruct (balance_step_cases groups group_list T Hincl)
    as [[Es _]|(donor & receiver & rest & student & rm
                & Hd & Hr & Ho & Hu & Hne & Es)];
    rewrite Es in E; cbn [bind] in E.
  - injection E as <-. exists m. split; [exact Hget | apply settled_refl].
  - destruct (balance_move groups donor receiver rest rm student T
                Hd Hr Ho Hu Hne) as (Hk & _ & _).
    assert (Hincl' : incl group_list
                          (Dict.keys (Dict.set (Dict.set groups donor rest)
                                               receiver (rm ++ [student]))))
      by now rewrite Hk.
    specialize (IH _ group_list T groups' Hincl' E k).
    rewrite len_app in Ho. unfold len at 2 in Ho. simpl in Ho.
    destruct (String.eqb_spec receiver k) as [<-|Hrk].
    + rewrite DictFacts.get_set_same in IH.
      destruct (IH _ eq_refl) as (m' & Hm' & Hs).
      rewrite Hr in Hget. injection Hget as <-.
      exists m'. split; [exact Hm'|].
      apply (settled_after_receiver T rm m' student); [|exact Hs].
      rewrite len_app. unfold len at 2. simpl. lia.
    + rewrite DictFacts.get_set_other in IH by assumption.
      destruct (String.eqb_spec donor k) as [<-|Hdk].
      * rewrite DictFacts.get_set_same in IH.
        destruct (IH _ eq_refl) as (m' & Hm' & Hs).
        rewrite Hd in Hget. injection Hget as <-.
        exists m'. split; [exact Hm'|].
        apply settled_after_donor; [lia | exact Hs].
      * rewrite DictFacts.get_set_other in IH by assumption.
        now apply IH.
Qed.

Lemma filter_all_false {A : Type} (p : A -> bool) (l : list A) :
  (forall x, In x l -> p x = false) -> filter p l = [].
Proof.
  induction l as [|x l IH]; intros H; [reflexivity|].
  simpl. rewrite (H x) by now left. apply IH. intros y Hy. apply H. now right.
Qed.

(** X7: balancing loses nobody and renames nothing.  For every
    dictionary of groups and every target size, balance_groups returns a
    dictionary with the same keys in the same order whose member lists,
    put together, are a rearrangement of those of the input. *)
Theorem balance_groups_keeps_keys_and_members
        (groups : Groups) (target_size : Z) :
  exists groups',
    balance_groups groups target_size = Ok groups'
    /\ Dict.keys groups' = Dict.keys groups
    /\ Permutation (members_of groups') (members_of groups)
    /\ len (members_of groups') = len (members_of groups).
Proof.
  destruct (balance_groups_spec groups target_size)
    as (g' & E & Hk & Hp & _).
  exists g'. repeat split; auto.
  unfold len. now rewrite (Permutation_length Hp).
Qed.

(** X8: balancing is idempotent.  A dictionary that passes the exit
    test (no group above target + 1, or no group below target) is
    returned unchanged, and the result of balance_groups always passes
    it: balancing a balanced result again with the same target changes
    nothing. *)
Theorem balance_groups_idempotent (groups : Groups) (target_size : Z) :
  exists groups',
    balance_groups groups target_size = Ok groups'
    /\ balance_groups groups' target_size = Ok groups'
    /\ ((forall g, In g (Dict.keys groups) ->
                   is_overfilled groups target_size g = false)
        \/ (forall g, In g (Dict.keys groups) ->
                      is_underfilled groups target_size g = false) ->
        groups' = groups).
Proof.
  destruct (balance_groups_spec groups target_size)
    as (g' & E & Hk & Hp & Hexit).
  exists g'. split; [exact E|]. split; [now apply balance_groups_stop|].
  intros Hstop.
  assert (Ok g' = Ok groups) as [= ->]; [|reflexivity].
  rewrite <- E. apply balance_groups_stop.
  destruct Hstop as [H|H]; [left|right]; apply filter_all_false; exact H.
Qed.

(** X9: what balancing does to each group.  A group that starts
    with at most target + 1 members never loses a member, and one that
    starts with at least target members never gains one; so a group whose
    size is target or target + 1 keeps its list exactly.  Members leave
    from, and arrive at, the end of a list; a group that gave members away
    still has at least target + 1, and one that received members has at
    most target. *)
Theorem balance_groups_per_group (groups : Groups) (target_size : Z) :
  exists groups',
    balance_groups groups target_size = Ok groups'
    /\ forall k m,
        Dict.get groups k = Some m ->
        exists m',
          Dict.get groups' k = Some m'
          /\ (m' = m
              \/ (exists removed,
                     removed <> [] /\ m = m' ++ removed
                     /\ target_size + 1 <= len m')
              \/ (exists added,
                     added <> [] /\ m' = m ++ added
                     /\ len m' <= target_size))
          /\ (target_size <= len m <= target_size + 1 -> m' = m)
          /\ (len m <= target_size + 1 -> exists added, m' = m ++ added)
          /\ (target_size <= len m -> exists removed, m = m' ++ removed).
Proof.
  destruct (balance_groups_spec groups target_size) as (g' & E & _).
  exists g'. split; [exact E|]. intros k m Hget.
  unfold balance_groups in E.
  destruct (balance_loop_settled _ _ _ _ _ (incl_refl _) E k m Hget)
    as (m' & Hm' & Hs).
  exists m'. split; [exact Hm'|]. split; [exact Hs|].
  destruct Hs as [->|[(removed & Hne & -> & Hb)|(added & Hne & -> & Hb)]].
  - repeat split; auto; intros _; exists []; now rewrite app_nil_r.
  - assert (0 < len removed).
    { unfold len. destruct removed; [congruence | simpl; lia]. }
    rewrite len_app. repeat split.
    + intros Hr. lia.
    + intros Hr. lia.
    + intros _. eauto.
  - assert (0 < len added).
    { unfold len. destruct added; [congruence | simpl; lia]. }
    rewrite len_app in Hb. repeat split.
    + intros Hr. lia.
    + intros _. eauto.
    + intros Hr. lia.
Qed.

Lemma balance_groups_per_group_witness :
  exists groups',
    balance_groups skew_401 1 = Ok groups'
    /\ Dict.get groups' "Group3" = Some ["E"]
    /\ (exists removed, ["A"; "B"; "C"; "D"] = ["A"; "B"; "C"] ++ removed)
    /\ Dict.get groups' "Group1" = Some ["A"; "B"; "C"].
Proof.
  destruct (balance_groups_per_group skew_401 1) as (g' & E & H).
  exists g'. split; [exact E|].
  destruct (H "Group3" ["E"] eq_refl) as (m3 & H3 & _ & Hsame & _).
  rewrite (Hsame ltac:(vm_compute; split; discriminate)) in H3.
  split; [exact H3|].
  split; [exists ["D"]; reflexivity|].
  vm_compute in E. injection E as <-. reflexivity.
Defined.

(** ** More on the evaluator *)

Lemma count_evaluated_le (groups : Groups) (student_to_friends : Friends) :
  count_evaluated groups student_to_friends <= len student_to_friends.
Proof.
  unfold count_evaluated, len.
  apply inj_le, filter_length_le.
Qed.

(** X10: the figures of the evaluator are bounded.  For every
    dictionary of groups and every preference mapping it returns
    0 <= success <= total <= number of preference entries, and a
    percentage between 0 and 100. *)
Theorem evaluate_friend_success_bounds (groups : Groups)
        (student_to_friends : Friends) :
  exists percent success total,
    evaluate_friend_success groups student_to_friends
    = Ok (percent, success, total)
    /\ 0 <= success <= total
    /\ total <= len student_to_friends
    /\ (0 <= percent <= 100)%Q.
Proof.
  rewrite evaluate_friend_success_eq.
  pose proof (count_success_bounds groups student_to_friends) as Hb.
  do 3 eexists. split; [reflexivity|]. split; [exact Hb|].
  split; [apply count_evaluated_le|]. split.
  - apply percent_of_nonneg. lia.
  - now apply percent_of_le_100.
Qed.

Lemma group_of_partition (groups : Groups) (x g : string) :
  partition groups ->
  (group_of groups x = Some g <-> exists m, In (g, m) groups /\ In x m).
Proof.
  intros [Hwf Hnd]. split; [apply group_of_In|].
  intros (m & Hin & Hx).
  assert (Hp : placed groups x = true).
  { apply contains_In, members_of_In. eauto. }
  rewrite group_of_placed in Hp.
  destruct (group_of groups x) as [g'|] eqn:E; [|discriminate].
  apply group_of_In in E as (m' & Hin' & Hx').
  pose proof (NoDup_members_unique groups x _ _ _ _ Hnd Hin' Hx' Hin Hx).
  congruence.
Qed.

(** X11: the student-to-group index built by the evaluator.  In a
    partition proper a student is mapped to a group exactly when that
    group lists the student, and is absent from the index exactly when no
    group does.  When a student is listed by several groups, the index
    keeps the last of them in iteration order. *)
Theorem build_student_to_group_lookup (groups : Groups) (x : string) :
  (partition groups ->
   forall g, Dict.get (build_student_to_group groups) x = Some g
             <-> exists m, In (g, m) groups /\ In x m)
  /\ (Dict.get (build_student_to_group groups) x = None
      <-> ~ In x (members_of groups))
  /\ (forall before g m after,
         groups = before ++ (g, m) :: after ->
         In x m -> ~ In x (members_of after) ->
         Dict.get (build_student_to_group groups) x = Some g).
Proof.
  rewrite get_student_to_group. split; [|split].
  - intros Hp g. now apply group_of_partition.
  - pose proof (group_of_placed groups x) as Hp. unfold placed in Hp.
    rewrite <- contains_false, Hp.
    destruct (group_of groups x); split; congruence.
  - intros before g m after -> Hx Hn.
    induction before as [|[g0 m0] before IH]; cbn [app group_of].
    + assert (E : group_of after x = None).
      { pose proof (group_of_placed after x) as Hp. unfold placed in Hp.
        apply contains_false in Hn. rewrite Hn in Hp.
        now destruct (group_of after x). }
      rewrite E. apply contains_In in Hx. now rewrite Hx.
    + now rewrite IH.
Qed.

Lemma build_student_to_group_lookup_witness :
  Dict.get (build_student_to_group fixture_groups) "C" = Some "G2"
  <-> exists m, In ("G2", m) fixture_groups /\ In "C" m.
Proof.
  destruct (build_student_to_group_lookup fixture_groups "C") as [H _].
  apply H. split.
  - unfold Dict.wf. simpl. repeat constructor; simpl; intuition discriminate.
  - simpl. repeat constructor; simpl; intuition discriminate.
Defined.

(** ** export_assignments_to_excel *)

Lemma export_rows_loop (student_to_friends : Friends) (group : string)
      (members l : list string) (rows : list export_row) :
  foldM
    (fun rows student =>
       match Some student_to_friends with
       | None => Raise AttributeError
       | Some student_to_friends =>
           let friends := Dict.get_default student_to_friends student [] in
           let friends_in_group := filter (contains members) friends in
           Ok (rows ++ [{| exp_group := group;
                           exp_student := student;
                           exp_friends_chosen := String.concat ", " friends;
                           exp_friends_in_group :=
                             String.concat ", " friends_in_group;
                           exp_success :=
                             match friends_in_group with
                             | [] => false
                             | _ => true
                             end |}])
       end)
    l rows
  = Ok (rows ++ map (export_row_for student_to_friends group members) l).
Proof.
  revert rows. induction l as [|x l IH]; intros rows; cbn [foldM map].
  - now rewrite app_nil_r.
  - cbn [bind]. rewrite IH. unfold export_row_for at 2.
    now rewrite <- app_assoc.
Qed.

Lemma export_rows_of_group_eq (student_to_friends : Friends)
      (group : string) (members : list string) (rows : list export_row) :
  export_rows_of_group (Some student_to_friends) rows (group, members)
  = Ok (rows ++ map (export_row_for student_to_friends group members) members).
Proof. unfold export_rows_of_group. apply export_rows_loop. Qed.

Lemma export_eq (groups : Groups) (student_to_friends : Friends)
      (rows : list export_row) :
  foldM (export_rows_of_group (Some student_to_friends)) groups rows
  = Ok (rows ++ flat_map
                  (fun item => map (export_row_for student_to_friends
                                      (fst item) (snd item)) (snd item))
                  groups).
Proof.
  revert rows.
  induction groups as [|[g m] groups IH]; intros rows;
    cbn [foldM flat_map fst snd].
  - now rewrite app_nil_r.
  - rewrite export_rows_of_group_eq. cbn [bind]. rewrite IH.
    now rewrite <- app_assoc.
Qed.

Lemma export_rows_eq (groups : Groups) (student_to_friends : Friends) :
  export_rows (Some groups) (Some student_to_friends)
  = Ok (flat_map
          (fun item => map (export_row_for student_to_friends
                              (fst item) (snd item)) (snd item))
          groups).
Proof. unfold export_rows, Dict.items. now rewrite export_eq. Qed.

Lemma export_rows_students (groups : Groups) (student_to_friends : Friends) :
  map exp_student
      (flat_map
         (fun item => map (export_row_for student_to_friends
                             (fst item) (snd item)) (snd item))
         groups)
  = members_of groups.
Proof.
  unfold members_of, Dict.values.
  induction groups as [|[g m] groups IH]; [reflexivity|].
  cbn [flat_map map List.concat fst snd]. rewrite map_app, IH.
  f_equal. rewrite map_map. cbn [exp_student export_row_for].
  apply map_id.
Qed.

(** The sort. *)
Lemma insert_row_Permutation (r : export_row) (l : list export_row) :
  Permutation (insert_row r l) (r :: l).
Proof.
  induction l as [|x l IH]; [reflexivity|]. cbn [insert_row].
  destruct (row_le x r); [|reflexivity].
  rewrite IH. apply perm_swap.
Qed.

Lemma sort_values_acc_Permutation (rows sorted : list export_row) :
  Permutation (fold_left (fun sorted r => insert_row r sorted) rows sorted)
              (sorted ++ rows).
Proof.
  revert sorted. induction rows as [|r rows IH]; intros sorted.
  - now rewrite app_nil_r.
  - cbn [fold_left]. rewrite IH, insert_row_Permutation.
    now rewrite <- Permutation_middle.
Qed.

Lemma sort_values_Permutation (rows : list export_row) :
  Permutation (sort_values rows) rows.
Proof. apply (sort_values_acc_Permutation rows []). Qed.

Lemma row_le_total (r1 r2 : export_row) :
  row_le r1 r2 = false -> row_le r2 r1 = true.
Proof.
  unfold row_le.
  rewrite (String.compare_antisym (exp_group r2) (exp_group r1)).
  destruct (String.compare (exp_group r1) (exp_group r2)); cbn [CompOpp];
    try congruence.
  intros H. destruct (String.leb_total (exp_student r1) (exp_student r2));
    congruence.
Qed.

Lemma insert_row_Sorted (r : export_row) (l : list export_row) :
  Sorted.Sorted (fun a b => row_le a b = true) l ->
  Sorted.Sorted (fun a b => row_le a b = true) (insert_row r l).
Proof.
  induction l as [|x l IH]; intros Hs; cbn [insert_row].
  - repeat constructor.
  - inversion Hs as [|? ? Hl Hhd]; subst.
    destruct (row_le x r) eqn:E.
    + constructor; [now apply IH|].
      destruct l as [|y l]; cbn [insert_row].
      * now constructor.
      * destruct (row_le y r); constructor; [|exact E].
        now inversion Hhd.
    + constructor; [exact Hs|]. constructor. now apply row_le_total.
Qed.

Lemma sort_values_Sorted (rows : list export_row) :
  Sorted.Sorted (fun a b => row_le a b = true) (sort_values rows).
Proof.
  unfold sort_values.
  assert (H : forall sorted,
             Sorted.Sorted (fun a b => row_le a b = true) sorted ->
             Sorted.Sorted (fun a b => row_le a b = true)
               (fold_left (fun sorted r => insert_row r sorted) rows sorted)).
  { induction rows as [|r rows IH]; intros sorted Hs; [exact Hs|].
    cbn [fold_left]. now apply IH, insert_row_Sorted. }
  apply H. constructor.
Qed.

(** The two ways in which the export of a groups dictionary ends. *)
Lemma export_cases (groups : Groups) (student_to_friends : Friends) :
  (members_of groups = []
   /\ export_assignments_to_excel (Some groups) (Some student_to_friends)
      = Raise KeyError)
  \/ (members_of groups <> []
      /\ export_assignments_to_excel (Some groups) (Some student_to_friends)
         = Ok (sort_values
                 (flat_map
                    (fun item => map (export_row_for student_to_friends
                                        (fst item) (snd item)) (snd item))
                    groups))).
Proof.
  unfold export_assignments_to_excel. rewrite export_rows_eq. cbn [bind].
  pose proof (export_rows_students groups student_to_friends) as E.
  destruct (flat_map _ groups) as [|r rows].
  - left. split; [now rewrite <- E | reflexivity].
  - right. split; [|reflexivity]. rewrite <- E. discriminate.
Qed.

Lemma export_students (groups : Groups) (student_to_friends : Friends) :
  members_of groups <> [] ->
  exists rows,
    export_assignments_to_excel (Some groups) (Some student_to_friends)
    = Ok rows
    /\ Permutation (map exp_student rows) (members_of groups).
Proof.
  intros Hne.
  destruct (export_cases groups student_to_friends) as [[E _]|[_ E]];
    [contradiction|].
  eexists. split; [exact E|].
  rewrite (sort_values_Permutation _).
  now rewrite export_rows_students.
Qed.

(** X12: what the export builds.  With None for the groups the call
    raises AttributeError.  With a groups dictionary in which no group has
    a member the list of rows is empty, and sorting the frame made of it
    raises KeyError.  Otherwise the call builds one row per listed student
    and returns these rows sorted by group name and then by student, both
    as strings.  Each row carries the name of a group that lists its
    student, and is marked successful exactly when one of the friends the
    student chose is in that group's list; a student without an entry in
    the preferences gets a row marked unsuccessful. *)
Theorem export_rows_spec (groups : Groups) (student_to_friends : Friends) :
  export_assignments_to_excel None (Some student_to_friends)
  = Raise AttributeError
  /\ (members_of groups = [] ->
      export_assignments_to_excel (Some groups) (Some student_to_friends)
      = Raise KeyError)
  /\ (members_of groups <> [] ->
      exists rows,
        export_assignments_to_excel (Some groups) (Some student_to_friends)
        = Ok rows
        /\ Permutation (map exp_student rows) (members_of groups)
        /\ Sorted.Sorted (fun a b => row_le a b = true) rows
        /\ forall r,
            In r rows ->
            exists m,
              In (exp_group r, m) groups
              /\ In (exp_student r) m
              /\ (exp_success r = true
                  <-> exists f,
                      In f (Dict.get_default student_to_friends
                                             (exp_student r) [])
                      /\ In f m)
              /\ (Dict.get student_to_friends (exp_student r) = None ->
                  exp_success r = false)).
Proof.
  split; [reflexivity|].
  destruct (export_cases groups student_to_friends) as [[Hnil E]|[Hne E]];
    (split; [intros H; try contradiction; try exact E | intros H]);
    [contradiction|].
  eexists. split; [exact E|]. split.
  - rewrite (sort_values_Permutation _). now rewrite export_rows_students.
  - split; [apply sort_values_Sorted|].
    intros r Hr.
    apply (Permutation_in _ (sort_values_Permutation _)) in Hr.
    apply in_flat_map in Hr as ([g m] & Hin & Hr).
    cbn [fst snd] in Hr. apply in_map_iff in Hr as (x & <- & Hx).
    exists m. cbn [exp_group exp_student exp_success export_row_for].
    split; [exact Hin|]. split; [exact Hx|]. split.
    + split.
      * destruct (filter (contains m)
                         (Dict.get_default student_to_friends x []))
          as [|f l] eqn:Ef; [discriminate|]. intros _.
        assert (Hf : In f (filter (contains m)
                             (Dict.get_default student_to_friends x [])))
          by (rewrite Ef; now left).
        apply filter_In in Hf as [Hf Hc]. exists f.
        split; [exact Hf | now apply contains_In].
      * intros (f & Hf & Hm).
        assert (Hf' : In f (filter (contains m)
                              (Dict.get_default student_to_friends x []))).
        { apply filter_In. split; [exact Hf | now apply contains_In]. }
        destruct (filter (contains m)
                         (Dict.get_default student_to_friends x []));
          [destruct Hf' | reflexivity].
    + intros Hnone. unfold Dict.get_default. now rewrite Hnone.
Qed.

Lemma export_rows_spec_witness :
  exists rows,
    export_assignments_to_excel (Some fixture_groups) (Some fixture_friends)
    = Ok rows
    /\ Permutation (map exp_student rows) (members_of fixture_groups)
    /\ Sorted.Sorted (fun a b => row_le a b = true) rows
    /\ forall r,
        In r rows ->
        exists m,
          In (exp_group r, m) fixture_groups
          /\ In (exp_student r) m
          /\ (exp_success r = true
              <-> exists f,
                  In f (Dict.get_default fixture_friends (exp_student r) [])
                  /\ In f m)
          /\ (Dict.get fixture_friends (exp_student r) = None ->
              exp_success r = false).
Proof.
  destruct (export_rows_spec fixture_groups fixture_friends) as (_ & _ & H).
  apply H. discriminate.
Defined.

(** ** The export and the evaluator agree *)

Lemma NoDup_keys_filter {V : Type} (p : string * V -> bool) (d : Dict.t V) :
  Dict.wf d -> NoDup (map fst (filter p d)).
Proof.
  unfold Dict.wf, Dict.keys. induction d as [|[k v] d IH]; simpl; intros H.
  - constructor.
  - inversion H as [|? ? Hn Hnd]; subst.
    destruct (p (k, v)); [|now apply IH].
    simpl. constructor; [|now apply IH].
    intros Hin. apply Hn. apply in_map_iff in Hin as ([k' v'] & E & Hin).
    simpl in E. subst k'. apply filter_In in Hin as [Hin _].
    change k with (fst (k, v')). now apply in_map.
Qed.

(** Counting the students of a duplicate-free list that have an entry
    in a dictionary and satisfy [P], from either side. *)
Lemma count_agree {V : Type} (members : list string) (d : Dict.t V)
      (P : string -> bool) :
  NoDup members -> Dict.wf d ->
  List.length (filter (fun x => Dict.mem d x && P x)%bool members)
  = List.length
      (filter (fun item => contains members (fst item) && P (fst item))%bool
              d).
Proof.
  intros Hnd Hwf.
  rewrite <- (length_map fst (filter _ d)).
  apply Permutation_length, NoDup_Permutation.
  - now apply NoDup_filter.
  - now apply NoDup_keys_filter.
  - intros x. rewrite filter_In, in_map_iff. split.
    + intros [Hx Hp]. apply andb_true_iff in Hp as [Hm Hp].
      apply DictFacts.mem_In_keys, DictFacts.In_keys_get in Hm as (v & Hv).
      exists (x, v). split; [reflexivity|]. apply filter_In.
      split; [now apply DictFacts.get_In|]. cbn [fst].
      apply andb_true_iff. split; [now apply contains_In | exact Hp].
    + intros ([k v] & E & Hin). simpl in E. subst k.
      apply filter_In in Hin as [Hin Hp]. cbn [fst] in Hp.
      apply andb_true_iff in Hp as [Hc Hp]. split; [now apply contains_In|].
      apply andb_true_iff. split; [|exact Hp].
      apply DictFacts.mem_In_keys. change x with (fst (x, v)).
      now apply in_map.
Qed.

Lemma export_success_eq (groups : Groups) (student_to_friends : Friends)
      (g : string) (m : list string) (x : string) :
  partition groups -> In (g, m) groups -> In x m ->
  exp_success (export_row_for student_to_friends g m x)
  = has_friend_in_group groups x
      (Dict.get_default student_to_friends x []).
Proof.
  intros [Hwf Hnd] Hin Hx. cbn [exp_success export_row_for].
  set (friends := Dict.get_default student_to_friends x []).
  destruct (has_friend_in_group groups x friends) eqn:E.
  - apply (has_friend_in_group_colocated groups x friends Hwf Hnd) in E
      as (f & g' & m' & Hf & Hin' & Hx' & Hfm).
    pose proof (NoDup_members_unique groups x _ _ _ _ Hnd Hin' Hx' Hin Hx)
      as Heq. injection Heq as -> ->.
    assert (H : In f (filter (contains m) friends)).
    { apply filter_In. split; [exact Hf | now apply contains_In]. }
    destruct (filter (contains m) friends); [destruct H | reflexivity].
  - destruct (filter (contains m) friends) as [|f l] eqn:Ef; [reflexivity|].
    assert (H : In f (filter (contains m) friends)) by (rewrite Ef; now left).
    apply filter_In in H as [Hf Hc]. apply contains_In in Hc.
    assert (E' : has_friend_in_group groups x friends = true).
    { apply (has_friend_in_group_colocated groups x friends Hwf Hnd).
      exists f, g, m. auto. }
    congruence.
Qed.

Lemma export_success_count (groups : Groups) (student_to_friends : Friends) :
  partition groups ->
  forall gs, incl gs groups ->
  List.length
    (filter exp_success
       (flat_map (fun item => map (export_row_for student_to_friends
                                     (fst item) (snd item)) (snd item)) gs))
  = List.length
      (filter (fun x => has_friend_in_group groups x
                          (Dict.get_default student_to_friends x []))
              (members_of gs)).
Proof.
  intros Hp gs. induction gs as [|[g m] gs IH]; intros Hincl; [reflexivity|].
  cbn [flat_map fst snd]. rewrite members_of_cons.
  rewrite !filter_app, !length_app.
  rewrite IH by (intros y Hy; apply Hincl; now right). f_equal.
  assert (Hin : In (g, m) groups) by (apply Hincl; now left).
  assert (H : forall l, incl l m ->
            List.length (filter exp_success
                           (map (export_row_for student_to_friends g m) l))
            = List.length
                (filter (fun x => has_friend_in_group groups x
                                    (Dict.get_default student_to_friends x []))
                        l)).
  { induction l as [|x l IHl]; intros Hl; [reflexivity|].
    cbn [map filter].
    rewrite (export_success_eq groups student_to_friends g m x Hp Hin)
      by (apply Hl; now left).
    destruct (has_friend_in_group groups x _); cbn [List.length];
      rewrite IHl by (intros y Hy; apply Hl; now right); reflexivity. }
  apply H, incl_refl.
Qed.

Lemma has_friend_needs_entry (groups : Groups) (student_to_friends : Friends)
      (x : string) :
  has_friend_in_group groups x (Dict.get_default student_to_friends x [])
  = true ->
  Dict.mem student_to_friends x = true.
Proof.
  unfold Dict.get_default, Dict.mem.
  destruct (Dict.get student_to_friends x); [reflexivity | discriminate].
Qed.

Lemma filter_Permutation {A : Type} (p : A -> bool) (l l' : list A) :
  Permutation l l' -> Permutation (filter p l) (filter p l').
Proof.
  induction 1 as [|x l l' _ IH|x y l|l l' l'' _ IH1 _ IH2]; simpl.
  - constructor.
  - destruct (p x); [now constructor | exact IH].
  - destruct (p x), (p y); try reflexivity. apply perm_swap.
  - now transitivity (filter p l').
Qed.

(** X13: the export re-derives the evaluator's figure.  For a
    partition proper with at least one student and a preference
    dictionary, the number of exported rows marked successful equals the
    success count returned by evaluate_friend_success. *)
Theorem export_agrees_with_evaluator (groups : Groups)
        (student_to_friends : Friends) :
  partition groups -> Dict.wf student_to_friends ->
  members_of groups <> [] ->
  exists rows percent success total,
    export_assignments_to_excel (Some groups) (Some student_to_friends)
    = Ok rows
    /\ evaluate_friend_success groups student_to_friends
       = Ok (percent, success, total)
    /\ len (filter exp_success rows) = success.
Proof.
  intros Hp Hwf Hne.
  destruct (export_cases groups student_to_friends) as [[E _]|[_ E]];
    [contradiction|].
  rewrite E, evaluate_friend_success_eq.
  do 4 eexists. split; [reflexivity|]. split; [reflexivity|].
  unfold count_success, len. f_equal.
  rewrite (Permutation_length
             (filter_Permutation exp_success _ _ (sort_values_Permutation _))).
  rewrite (export_success_count groups student_to_friends Hp groups
             (incl_refl _)).
  set (P := fun x => has_friend_in_group groups x
                       (Dict.get_default student_to_friends x [])).
  rewrite (filter_ext P (fun x => Dict.mem student_to_friends x && P x)%bool).
  - rewrite (count_agree (members_of groups) student_to_friends P
               (proj2 Hp) Hwf).
    f_equal. apply filter_ext_in.
    intros [x fr] Hin. cbn [fst snd]. unfold placed, P. f_equal.
    unfold Dict.get_default.
    now rewrite (DictFacts.wf_get_In _ _ _ Hwf Hin).
  - intros x. unfold P.
    destruct (has_friend_in_group groups x
                (Dict.get_default student_to_friends x [])) eqn:E'.
    + now rewrite (has_friend_needs_entry _ _ _ E').
    + now rewrite andb_false_r.
Qed.

Lemma export_agrees_with_evaluator_witness :
  exists rows percent success total,
    export_assignments_to_excel (Some fixture_groups) (Some fixture_friends)
    = Ok rows
    /\ evaluate_friend_success fixture_groups fixture_friends
       = Ok (percent, success, total)
    /\ len (filter exp_success rows) = success.
Proof.
  apply (export_agrees_with_evaluator fixture_groups fixture_friends).
  - split.
    + unfold Dict.wf. simpl.
      repeat constructor; simpl; intuition discriminate.
    + simpl. repeat constructor; simpl; intuition discriminate.
  - unfold Dict.wf. simpl. repeat constructor; simpl; intuition discriminate.
  - discriminate.
Defined.

(** ** The whole pipeline *)

Lemma filter_all_true {A : Type} (p : A -> bool) (l : list A) :
  (forall x, In x l -> p x = true) -> filter p l = l.
Proof.
  induction l as [|x l IH]; intros H; [reflexivity|].
  simpl. rewrite (H x) by now left. f_equal. apply IH.
  intros y Hy. apply H. now right.
Qed.

Section PipelineFacts.
Variable Rng : Type.
Variable shuffle : Rng -> list string -> list string * Rng.
Hypothesis shuffle_Permutation :
  forall g l, Permutation l (fst (shuffle g l)).

Lemma run_smart_assignment_ok (g : Rng) (file : list row) (num_groups : Z) :
  1 <= num_groups ->
  exists g' t,
    run_smart_assignment shuffle g file num_groups = Ok (g', t)
    /\ trial_of file num_groups t.
Proof.
  intros Hk. unfold run_smart_assignment, trial_of.
  rewrite load_students_eq. cbn [snd].
  set (stf := fold_left _ file Dict.empty).
  pose proof (shuffle_Permutation g (map row_student file)) as P1.
  destruct (shuffle g (map row_student file)) as [students1 g1].
  cbn [fst] in P1.
  destruct (assign_students_to_groups_eq Rng shuffle g1 students1 stf
              num_groups) as (assigned & Ein & ->).
  destruct (assign_in_order_spec (fst (shuffle g1 students1)) stf num_groups)
    as (assigned' & Ein' & Hkeys & Hnd & Hsub & Hsup).
  rewrite Ein in Ein'. injection Ein' as <-.
  pose proof (shuffle_Permutation g1 students1) as P2.
  cbn [bind]. unfold floordiv.
  destruct (Z.eqb_spec num_groups 0) as [|_]; [lia|]. cbn [bind].
  destruct (balance_groups_spec assigned
              (len (fst (shuffle g1 students1)) / num_groups))
    as (groups & -> & Hkb & Hpb & _).
  cbn [bind]. rewrite evaluate_friend_success_eq. cbn [bind].
  do 2 eexists. split; [reflexivity|]. exists groups.
  split; [reflexivity|]. split; [|split; [split|]].
  - rewrite Hkb, Hkeys, init_groups_eq. unfold Dict.keys.
    rewrite map_map. now apply map_ext.
  - eapply wf_same_keys; [exact Hkb|].
    eapply wf_same_keys; [exact Hkeys | apply init_groups_wf].
  - eapply Permutation_NoDup; [symmetry; exact Hpb | exact Hnd].
  - intros x. split; intros Hx.
    + apply (Permutation_in _ (Permutation_sym P1)).
      apply (Permutation_in _ (Permutation_sym P2)).
      apply Hsub. apply (Permutation_in _ Hpb). exact Hx.
    + apply (Permutation_in _ (Permutation_sym Hpb)).
      apply Hsup; [exact Hk|].
      apply (Permutation_in _ P2). apply (Permutation_in _ P1). exact Hx.
Qed.

Lemma run_trials_ok (file : list row) (num_groups : Z) (n : nat) (g : Rng) :
  1 <= num_groups ->
  exists g' ts,
    run_trials shuffle g file num_groups n = Ok (g', ts)
    /\ List.length ts = n
    /\ Forall (trial_of file num_groups) ts.
Proof.
  intros Hk. revert g. induction n as [|n IH]; intros g; cbn [run_trials].
  - exists g, []. auto.
  - destruct (run_smart_assignment_ok g file num_groups Hk)
      as (g1 & t & -> & Ht). cbn [bind].
    destruct (IH g1) as (g' & ts & -> & Hlen & Hall). cbn [bind].
    exists g', (t :: ts). repeat split; [simpl; now rewrite Hlen|].
    now constructor.
Qed.

End PipelineFacts.

Lemma trial_of_total (file : list row) (num_groups : Z) (t : trial) :
  trial_of file num_groups t ->
  exists percent groups success,
    t = (percent, groups, snd (load_students file), success,
         len (snd (load_students file)))
    /\ 0 <= success <= len (snd (load_students file))
    /\ (0 <= percent <= 100)%Q
    /\ percent = percent_of success (len (snd (load_students file))).
Proof.
  intros (groups & -> & Hkeys & Hp & Hmem).
  assert (Ht : count_evaluated groups (snd (load_students file))
               = len (snd (load_students file))).
  { unfold count_evaluated. f_equal. apply filter_all_true.
    intros [x fr] Hin. cbn [fst]. unfold placed. apply contains_In, Hmem.
    rewrite load_students_eq in Hin. cbn [snd] in Hin.
    destruct (load_fold_facts file Dict.empty) as (_ & Hk & _).
    assert (Hx : In x (Dict.keys
                         (fold_left (fun d r => Dict.set d (row_student r)
                                                          (row_friends r))
                                    file Dict.empty))).
    { change x with (fst (x, fr)). now apply in_map. }
    apply Hk in Hx as [[]|Hx]. exact Hx. }
  pose proof (count_success_bounds groups (snd (load_students file))) as Hb.
  rewrite Ht in *.
  do 3 eexists. split; [reflexivity|]. split; [exact Hb|]. split; [|reflexivity].
  split; [apply percent_of_nonneg; lia | now apply percent_of_le_100].
Qed.

(** X14: one trial, end to end.  For a group count of at least 1
    run_smart_assignment never raises.  It returns the groups Group1 to
    GroupN, with distinct names and no student listed twice, whose members
    are exactly the students of the sheet; the preference dictionary as
    loaded; a total equal to the number of distinct students; a success
    count between 0 and the total; and the percentage computed from these
    two, between 0 and 100. *)
Theorem run_smart_assignment_end_to_end
        (Rng : Type) (shuffle : Rng -> list string -> list string * Rng)
        (g : Rng) (file : list row) (num_groups : Z) :
  (forall g l, Permutation l (fst (shuffle g l))) ->
  1 <= num_groups ->
  exists g' percent groups success,
    run_smart_assignment shuffle g file num_groups
    = Ok (g', (percent, groups, snd (load_students file), success,
               len (snd (load_students file))))
    /\ Dict.keys groups = map group_name (range num_groups)
    /\ partition groups
    /\ (forall x, In x (members_of groups) <-> In x (map row_student file))
    /\ 0 <= success <= len (snd (load_students file))
    /\ percent = percent_of success (len (snd (load_students file)))
    /\ (0 <= percent <= 100)%Q.
Proof.
  intros Hperm Hk.
  destruct (run_smart_assignment_ok Rng shuffle Hperm g file num_groups Hk)
    as (g' & t & E & Ht).
  destruct (trial_of_total _ _ _ Ht) as (p & groups & s & -> & Hs & Hp & Ep).
  destruct Ht as (groups' & Et & Hkeys & Hpart & Hmem).
  cbv zeta in Et. injection Et as _ <- _.
  exists g', p, groups, s. auto 10.
Qed.

Lemma run_smart_assignment_end_to_end_witness :
  exists g' percent groups success,
    run_smart_assignment rotate_shuffle 0%nat twice_file 2
    = Ok (g', (percent, groups, snd (load_students twice_file), success,
               len (snd (load_students twice_file))))
    /\ Dict.keys groups = map group_name (range 2)
    /\ partition groups
    /\ (forall x, In x (members_of groups)
                  <-> In x (map row_student twice_file))
    /\ 0 <= success <= len (snd (load_students twice_file))
    /\ percent = percent_of success (len (snd (load_students twice_file)))
    /\ (0 <= percent <= 100)%Q.
Proof.
  apply (run_smart_assignment_end_to_end nat rotate_shuffle).
  - exact rotate_shuffle_Permutation.
  - lia.
Defined.

(** ** run_n_times as a whole *)

Lemma trial_of_fields (file : list row) (num_groups : Z) (t : trial) :
  trial_of file num_groups t ->
  exists groups,
    val_groups (values_of_trial t) = Some groups
    /\ val_student_to_friends (values_of_trial t)
       = Some (snd (load_students file))
    /\ partition groups
    /\ (forall x, In x (members_of groups) <-> In x (map row_student file)).
Proof.
  intros (groups & -> & _ & Hp & Hmem). exists groups. auto.
Qed.

Lemma trial_of_scored (file : list row) (num_groups : Z) (t : trial) :
  trial_of file num_groups t -> (0 < trial_percent t)%Q ->
  exists groups,
    val_groups (values_of_trial t) = Some groups
    /\ members_of groups <> [].
Proof.
  intros (groups & -> & _) Hpos. exists groups. split; [reflexivity|].
  intros Hnil. cbn [trial_percent] in Hpos.
  destruct (counts_nobody groups (snd (load_students file)) Hnil) as [_ E].
  rewrite E, percent_of_zero in Hpos. now apply Qlt_irrefl in Hpos.
Qed.

(** The two ways in which run_n_times ends, for a group count of at
    least 1. *)
Lemma run_n_times_ends
      (Rng : Type) (shuffle : Rng -> list string -> list string * Rng)
      (g : Rng) (file : list row) (num_groups n : Z) :
  (forall g l, Permutation l (fst (shuffle g l))) ->
  1 <= num_groups ->
  exists g' ts,
    run_trials shuffle g file num_groups (Z.to_nat n) = Ok (g', ts)
    /\ List.length ts = Z.to_nat n
    /\ Forall (trial_of file num_groups) ts
    /\ ((run_n_times_search shuffle g file num_groups n
         = Ok (g', initial_values)
         /\ run_n_times shuffle g file num_groups n = Raise AttributeError
         /\ forall t, In t ts -> (trial_percent t == 0)%Q)
        \/ (exists i t groups rows,
               nth_error ts i = Some t
               /\ (0 < trial_percent t)%Q
               /\ (forall t', In t' ts ->
                              (trial_percent t' <= trial_percent t)%Q)
               /\ (forall j t', (j < i)%nat -> nth_error ts j = Some t' ->
                                (trial_percent t' < trial_percent t)%Q)
               /\ run_n_times_search shuffle g file num_groups n
                  = Ok (g', values_of_trial t)
               /\ val_groups (values_of_trial t) = Some groups
               /\ run_n_times shuffle g file num_groups n
                  = Ok (values_of_trial t, rows)
               /\ Permutation (map exp_student rows) (members_of groups)
               /\ NoDup (members_of groups)
               /\ forall x, In x (members_of groups)
                            <-> In x (map row_student file))).
Proof.
  intros Hperm Hk.
  destruct (run_trials_ok Rng shuffle Hperm file num_groups (Z.to_nat n) g Hk)
    as (g' & ts & Et & Hlen & Hall).
  exists g', ts. split; [exact Et|]. split; [exact Hlen|].
  split; [exact Hall|].
  destruct (run_trials_spec Rng shuffle _ _ _ _ _ _ Et) as [_ Hpos].
  unfold run_n_times. rewrite run_n_times_search_eq, Et. cbn [bind].
  assert (Hge : forall t, In t ts ->
                  (trial_percent t
                   <= val_percent (best_of (map values_of_trial ts)
                                           initial_values))%Q).
  { intros t Hin. rewrite <- val_percent_of_trial.
    apply best_of_ge_all. now apply in_map. }
  destruct (best_of_first (map values_of_trial ts) initial_values)
    as [E0|(i & v & Hn & Ev & Hlt & Hearlier)].
  - left. rewrite E0 in *. split; [reflexivity|]. split; [reflexivity|].
    intros t Hin. apply Qle_antisym; [now apply Hge | now apply Hpos].
  - right. rewrite Ev in *. rewrite nth_error_map in Hn.
    destruct (nth_error ts i) as [t|] eqn:Hi; [|discriminate].
    injection Hn as <-. pose proof (nth_error_In _ _ Hi) as Hin.
    rewrite Forall_forall in Hall.
    rewrite val_percent_of_trial in Hlt, Hge.
    change (val_percent initial_values) with 0%Q in Hlt.
    destruct (trial_of_fields _ _ _ (Hall t Hin))
      as (groups & Hg & Hs & [Hwf Hnd] & Hmem).
    destruct (trial_of_scored _ _ _ (Hall t Hin) Hlt) as (groups' & Hg' & Hne).
    rewrite Hg in Hg'. injection Hg' as <-.
    rewrite Hg, Hs.
    destruct (export_students groups (snd (load_students file)) Hne)
      as (rows & -> & Hrows).
    cbn [bind]. exists i, t, groups, rows.
    repeat split; auto.
    + intros j t' Hj Hj'. rewrite <- !val_percent_of_trial.
      apply (Hearlier j); [exact Hj|].
      rewrite nth_error_map, Hj'. reflexivity.
    + now apply Hmem.
    + now apply Hmem.
Qed.

(** X15: how run_n_times ends.  For a group count of at least 1 no
    trial raises, and exactly one of two things happens.  If some trial
    scores above 0, the call returns the record of a trial of maximal
    percentage together with the exported rows, one row per student of the
    sheet and no student twice.  If every trial scores 0, the best-so-far
    record is never filled and the call raises AttributeError at the
    export. *)
Theorem run_n_times_outcome
        (Rng : Type) (shuffle : Rng -> list string -> list string * Rng)
        (g : Rng) (file : list row) (num_groups n : Z) :
  (forall g l, Permutation l (fst (shuffle g l))) ->
  1 <= num_groups ->
  exists g' ts,
    run_trials shuffle g file num_groups (Z.to_nat n) = Ok (g', ts)
    /\ ((run_n_times shuffle g file num_groups n = Raise AttributeError
         /\ forall t, In t ts -> (trial_percent t == 0)%Q)
        \/ (exists t groups rows,
               In t ts
               /\ (0 < trial_percent t)%Q
               /\ (forall t', In t' ts ->
                              (trial_percent t' <= trial_percent t)%Q)
               /\ val_groups (values_of_trial t) = Some groups
               /\ run_n_times shuffle g file num_groups n
                  = Ok (values_of_trial t, rows)
               /\ Permutation (map exp_student rows) (members_of groups)
               /\ NoDup (map exp_student rows)
               /\ forall x, In x (map exp_student rows)
                            <-> In x (map row_student file))).
Proof.
  intros Hperm Hk.
  destruct (run_n_times_ends Rng shuffle g file num_groups n Hperm Hk)
    as (g' & ts & Et & _ & _
        & [(_ & E & Hz)
          |(i & t & groups & rows & Hi & Hpos & Hmax & _ & _ & Hg & E
            & Hrows & Hnd & Hmem)]).
  - exists g', ts. split; [exact Et|]. left. auto.
  - exists g', ts. split; [exact Et|]. right. exists t, groups, rows.
    split; [eapply nth_error_In; eauto|].
    repeat split; auto.
    + eapply Permutation_NoDup; [symmetry; exact Hrows | exact Hnd].
    + intros Hx. apply Hmem. apply (Permutation_in _ Hrows). exact Hx.
    + intros Hx. apply (Permutation_in _ (Permutation_sym Hrows)).
      now apply Hmem.
Qed.

Lemma run_n_times_outcome_witness :
  exists g' ts,
    run_trials rotate_shuffle 0%nat demo_file 2 (Z.to_nat 3) = Ok (g', ts)
    /\ ((run_n_times rotate_shuffle 0%nat demo_file 2 3
         = Raise AttributeError
         /\ forall t, In t ts -> (trial_percent t == 0)%Q)
        \/ (exists t groups rows,
               In t ts
               /\ (0 < trial_percent t)%Q
               /\ (forall t', In t' ts ->
                              (trial_percent t' <= trial_percent t)%Q)
               /\ val_groups (values_of_trial t) = Some groups
               /\ run_n_times rotate_shuffle 0%nat demo_file 2 3
                  = Ok (values_of_trial t, rows)
               /\ Permutation (map exp_student rows) (members_of groups)
               /\ NoDup (map exp_student rows)
               /\ forall x, In x (map exp_student rows)
                            <-> In x (map row_student demo_file))).
Proof.
  apply (run_n_times_outcome nat rotate_shuffle).
  - exact rotate_shuffle_Permutation.
  - lia.
Defined.

Lemma count_success_no_friends (groups : Groups)
      (student_to_friends : Friends) :
  (forall x fr, In (x, fr) student_to_friends -> fr = []) ->
  count_success groups student_to_friends = 0.
Proof.
  intros H. unfold count_success.
  rewrite filter_all_false; [reflexivity|].
  intros [x fr] Hin. cbn [fst snd]. rewrite (H x fr Hin).
  apply andb_false_r.
Qed.

(** On a sheet without any friend every trial scores 0. *)
Lemma trial_without_friends (file : list row) (num_groups : Z) (t : trial) :
  (forall r, In r file -> row_friend1 r = None /\ row_friend2 r = None) ->
  trial_of file num_groups t -> trial_percent t = 0%Q.
Proof.
  intros Hblank (gs & -> & _). cbn [trial_percent].
  rewrite count_success_no_friends; [apply percent_of_zero|].
  intros x fr Hfr. rewrite load_students_eq in Hfr. cbn [snd] in Hfr.
  destruct (load_fold_facts file Dict.empty) as (_ & _ & Hval & _).
  apply Hval in Hfr as [[]|(r & Hr & _ & <-)].
  destruct (Hblank r Hr) as [H1 H2]. unfold row_friends.
  now rewrite H1, H2.
Qed.

(** X16: a sheet on which nobody names a friend.  When every friend
    cell is blank, every trial scores 0, whatever the number of trials and
    for any group count of at least 1; run_n_times then raises
    AttributeError instead of reporting a grouping. *)
Theorem run_n_times_without_friends
        (Rng : Type) (shuffle : Rng -> list string -> list string * Rng)
        (g : Rng) (file : list row) (num_groups n : Z) :
  (forall g l, Permutation l (fst (shuffle g l))) ->
  1 <= num_groups ->
  (forall r, In r file -> row_friend1 r = None /\ row_friend2 r = None) ->
  run_n_times shuffle g file num_groups n = Raise AttributeError.
Proof.
  intros Hperm Hk Hblank.
  destruct (run_n_times_ends Rng shuffle g file num_groups n Hperm Hk)
    as (g' & ts & Et & _ & Hall
        & [(_ & E & _)|(i & t & groups & rows & Hi & Hpos & _)]);
    [exact E|].
  exfalso. rewrite Forall_forall in Hall.
  rewrite (trial_without_friends file num_groups t Hblank) in Hpos.
  - now apply Qlt_irrefl in Hpos.
  - apply Hall. eapply nth_error_In; eauto.
Qed.

Lemma run_n_times_without_friends_witness :
  run_n_times rotate_shuffle 0%nat lonely_file 2 5 = Raise AttributeError.
Proof.
  apply (run_n_times_without_friends nat rotate_shuffle).
  - exact rotate_shuffle_Permutation.
  - lia.
  - intros r [<-|[<-|[]]]; split; reflexivity.
Defined.

(** C5: the best-so-far record of run_n_times.  The record is
    replaced, whole, exactly when the percentage of the new trial is
    strictly greater than the stored one.  For a group count of at least 1
    every trial returns, and: if some trial scores above 0, the search
    ends with the record of the first trial that reaches the maximal
    percentage, every earlier trial scored strictly less and no trial
    scored more, and run_n_times returns that record; if every trial
    scores 0, the maximum observed is 0 and the first trial reached it,
    but no trial is stored: the record keeps its initial value without
    groups, and run_n_times raises AttributeError. *)
Theorem run_n_times_best_tracking
        (Rng : Type) (shuffle : Rng -> list string -> list string * Rng)
        (g : Rng) (file : list row) (num_groups n : Z) :
  (forall g l, Permutation l (fst (shuffle g l))) ->
  1 <= num_groups ->
  (forall stored curr,
      ((val_percent stored < val_percent curr)%Q
       /\ update_max stored curr = curr)
      \/ ((val_percent curr <= val_percent stored)%Q
          /\ update_max stored curr = stored))
  /\ exists g' ts,
      run_trials shuffle g file num_groups (Z.to_nat n) = Ok (g', ts)
      /\ List.length ts = Z.to_nat n
      /\ ((exists i t rows,
              nth_error ts i = Some t
              /\ (0 < trial_percent t)%Q
              /\ (forall t', In t' ts ->
                             (trial_percent t' <= trial_percent t)%Q)
              /\ (forall j t', (j < i)%nat -> nth_error ts j = Some t' ->
                               (trial_percent t' < trial_percent t)%Q)
              /\ run_n_times_search shuffle g file num_groups n
                 = Ok (g', values_of_trial t)
              /\ run_n_times shuffle g file num_groups n
                 = Ok (values_of_trial t, rows))
          \/ ((forall t, In t ts -> (trial_percent t == 0)%Q)
              /\ run_n_times_search shuffle g file num_groups n
                 = Ok (g', initial_values)
              /\ val_groups initial_values = None
              /\ (forall t, In t ts -> initial_values <> values_of_trial t)
              /\ run_n_times shuffle g file num_groups n
                 = Raise AttributeError)).
Proof.
  intros Hperm Hk. split; [apply update_max_cases|].
  destruct (run_n_times_ends Rng shuffle g file num_groups n Hperm Hk)
    as (g' & ts & Et & Hlen & _
        & [(Es & E & Hz)
          |(i & t & groups & rows & Hi & Hpos & Hmax & Hfirst & Es & _ & E
            & _)]).
  - exists g', ts. split; [exact Et|]. split; [exact Hlen|]. right.
    repeat split; auto.
    intros t _ H. now destruct t as [[[[p gs] stf] s] tot].
  - exists g', ts. split; [exact Et|]. split; [exact Hlen|]. left.
    exists i, t, rows. auto 10.
Qed.

Lemma run_n_times_best_tracking_witness :
  exists g' ts,
    run_trials rotate_shuffle 0%nat lonely_file 9 (Z.to_nat 50) = Ok (g', ts)
    /\ List.length ts = Z.to_nat 50
    /\ (forall t, In t ts -> (trial_percent t == 0)%Q)
    /\ run_n_times_search rotate_shuffle 0%nat lonely_file 9 50
       = Ok (g', initial_values)
    /\ val_groups initial_values = None
    /\ run_n_times rotate_shuffle 0%nat lonely_file 9 50
       = Raise AttributeError.
Proof.
  destruct (run_n_times_best_tracking nat rotate_shuffle 0%nat lonely_file
              9 50 rotate_shuffle_Permutation ltac:(lia))
    as (_ & g' & ts & Et & Hlen
        & [(i & t & rows & Hi & Hpos & _)|(Hz & Es & Hn & _ & E)]).
  - exfalso.
    destruct (run_trials_ok nat rotate_shuffle rotate_shuffle_Permutation
                lonely_file 9 (Z.to_nat 50) 0%nat ltac:(lia))
      as (g'' & ts' & Et' & _ & Hall).
    rewrite Et in Et'. injection Et' as <- <-.
    rewrite Forall_forall in Hall.
    rewrite (trial_without_friends lonely_file 9 t) in Hpos.
    + now apply Qlt_irrefl in Hpos.
    + intros r [<-|[<-|[]]]; split; reflexivity.
    + apply Hall. eapply nth_error_In; eauto.
  - exists g', ts. auto 10.
Defined.

(** ** build_friend_graph *)

Lemma has_edge_sym (G : graph) (u v : string) :
  has_edge G u v = has_edge G v u.
Proof.
  unfold has_edge. induction (graph_edges G) as [|e l IH]; [reflexivity|].
  cbn [existsb]. rewrite IH. f_equal. apply orb_comm.
Qed.

Lemma has_edge_In (G : graph) (u v : string) :
  has_edge G u v = true
  <-> In (u, v) (graph_edges G) \/ In (v, u) (graph_edges G).
Proof.
  unfold has_edge. rewrite existsb_exists. split.
  - intros ([a b] & Hin & H). cbn [fst snd] in H.
    apply orb_true_iff in H as [H|H]; apply andb_true_iff in H as [H1 H2];
      apply String.eqb_eq in H1, H2; subst; auto.
  - intros [H|H]; eexists; (split; [exact H|]); cbn [fst snd];
      rewrite !String.eqb_refl; [reflexivity | apply orb_true_r].
Qed.

Lemma add_node_nodes (G : graph) (n x : string) :
  In x (graph_nodes (add_node G n)) <-> x = n \/ In x (graph_nodes G).
Proof.
  unfold add_node, has_node.
  destruct (contains (graph_nodes G) n) eqn:E.
  - apply contains_In in E. split; [auto | intros [->|H]; auto].
  - cbn [graph_nodes]. rewrite in_app_iff. simpl.
    split; intros H; intuition congruence.
Qed.

Lemma add_node_edges (G : graph) (n : string) :
  graph_edges (add_node G n) = graph_edges G.
Proof. unfold add_node. now destruct (has_node G n). Qed.

Lemma has_edge_add_node (G : graph) (n a b : string) :
  has_edge (add_node G n) a b = has_edge G a b.
Proof. unfold has_edge. now rewrite add_node_edges. Qed.

Lemma add_edge_nodes (G : graph) (u v x : string) :
  In x (graph_nodes (add_edge G u v))
  <-> x = u \/ x = v \/ In x (graph_nodes G).
Proof.
  unfold add_edge.
  destruct (has_edge (add_node (add_node G u) v) u v); cbn [graph_nodes];
    rewrite !add_node_nodes; tauto.
Qed.

Lemma add_edge_edges (G : graph) (u v a b : string) :
  has_edge (add_edge G u v) a b = true
  <-> (a = u /\ b = v) \/ (a = v /\ b = u) \/ has_edge G a b = true.
Proof.
  unfold add_edge.
  destruct (has_edge (add_node (add_node G u) v) u v) eqn:E.
  - rewrite !has_edge_In, !add_node_edges in *.
    split; [tauto|]. intros [[-> ->]|[[-> ->]|H]]; tauto.
  - rewrite !has_edge_In. cbn [graph_edges].
    rewrite !add_node_edges, !in_app_iff. simpl.
    split; intros H; intuition congruence.
Qed.

(** The graph after the edges of one student. *)
Lemma add_edges_facts (student : string) (friends : list string) (G : graph) :
  let G' := fold_left (fun G friend => add_edge G student friend) friends G in
  (forall x, In x (graph_nodes G')
             <-> In x (graph_nodes G)
                 \/ (friends <> [] /\ x = student) \/ In x friends)
  /\ (forall a b, has_edge G' a b = true
                  <-> has_edge G a b = true
                      \/ (a = student /\ In b friends)
                      \/ (b = student /\ In a friends)).
Proof.
  revert G. induction friends as [|f friends IH]; intros G; cbn [fold_left].
  - split; intros; simpl; tauto.
  - destruct (IH (add_edge G student f)) as [Hn He]. split.
    + intros x. rewrite Hn, add_edge_nodes. simpl.
      split; intros H.
      * destruct H as [[->|[->|H]]|[[_ ->]|H]]; auto.
        -- right. left. split; [discriminate | reflexivity].
        -- right. left. split; [discriminate | reflexivity].
      * destruct H as [H|[[_ ->]|[->|H]]]; auto.
    + intros a b. rewrite He, add_edge_edges. simpl.
      split; intros H.
      * destruct H as [[[-> ->]|[[-> ->]|H]]|[[-> H]|[-> H]]]; auto.
      * destruct H as [H|[[-> [->|H]]|[-> [->|H]]]]; auto.
Qed.

Lemma build_friend_graph_facts (student_to_friends : Friends)
      (students : list string) (G : graph) :
  let G' := fold_left
              (fun G student =>
                 let G := add_node G student in
                 fold_left (fun G friend => add_edge G student friend)
                           (Dict.get_default student_to_friends student []) G)
              students G in
  (forall x, In x (graph_nodes G')
             <-> In x (graph_nodes G) \/ In x students
                 \/ exists s, In s students
                              /\ In x (Dict.get_default student_to_friends
                                                        s []))
  /\ (forall a b, has_edge G' a b = true
                  <-> has_edge G a b = true
                      \/ (In a students
                          /\ In b (Dict.get_default student_to_friends a []))
                      \/ (In b students
                          /\ In a (Dict.get_default student_to_friends b []))).
Proof.
  revert G. induction students as [|s students IH]; intros G; cbn [fold_left].
  - split; intros; simpl; [|tauto].
    split; [auto | intros [H|[[]|(s & [] & _)]]; exact H].
  - cbv zeta.
    destruct (IH (fold_left (fun G friend => add_edge G s friend)
                            (Dict.get_default student_to_friends s [])
                            (add_node G s))) as [Hn He].
    destruct (add_edges_facts s (Dict.get_default student_to_friends s [])
                              (add_node G s)) as [Hn1 He1].
    cbv zeta in Hn1, He1. split.
    + intros x. rewrite Hn, Hn1, add_node_nodes. simpl. split; intros H.
      * destruct H as [[[->|H]|[[_ ->]|H]]|[H|(s' & Hs' & H)]]; eauto 6.
      * destruct H as [H|[[->|H]|(s' & [->|Hs'] & H)]]; eauto 6.
    + intros a b. rewrite He, He1, has_edge_add_node.
      simpl. split; intros H.
      * destruct H as [[H|[[-> H]|[-> H]]]|[[H1 H2]|[H1 H2]]]; auto 6.
      * destruct H as [H|[[[->|H1] H2]|[[->|H1] H2]]]; auto 6.
Qed.

(** X17: the friendship graph.  Its nodes are the students together
    with every friend named by a student, also a friend who is not on the
    sheet; two nodes are joined exactly when one of them is a student who
    named the other, and the relation is symmetric. *)
Theorem build_friend_graph_spec (students : list string)
        (student_to_friends : Friends) :
  let G := build_friend_graph students student_to_friends in
  (forall x, has_node G x = true
             <-> In x students
                 \/ exists s, In s students
                              /\ In x (Dict.get_default student_to_friends
                                                        s []))
  /\ (forall a b, has_edge G a b = true
                  <-> (In a students
                       /\ In b (Dict.get_default student_to_friends a []))
                      \/ (In b students
                          /\ In a (Dict.get_default student_to_friends b [])))
  /\ (forall a b, has_edge G a b = has_edge G b a)
  /\ (forall a b, has_edge G a b = true ->
                  has_node G a = true /\ has_node G b = true).
Proof.
  cbv zeta. unfold build_friend_graph.
  destruct (build_friend_graph_facts student_to_friends students empty_graph)
    as [Hn He]. cbv zeta in Hn, He.
  assert (Hnode : forall x,
             has_node (fold_left
                         (fun G student =>
                            let G := add_node G student in
                            fold_left (fun G friend => add_edge G student friend)
                              (Dict.get_default student_to_friends student [])
                              G) students empty_graph) x = true
             <-> In x students
                 \/ exists s, In s students
                              /\ In x (Dict.get_default student_to_friends
                                                        s [])).
  { intros x. unfold has_node. rewrite contains_In, Hn. simpl. tauto. }
  assert (Hedge : forall a b,
             has_edge (fold_left
                         (fun G student =>
                            let G := add_node G student in
                            fold_left (fun G friend => add_edge G student friend)
                              (Dict.get_default student_to_friends student [])
                              G) students empty_graph) a b = true
             <-> (In a students
                  /\ In b (Dict.get_default student_to_friends a []))
                 \/ (In b students
                     /\ In a (Dict.get_default student_to_friends b []))).
  { intros a b. rewrite He. unfold has_edge at 1. simpl.
    split; [intros [H|H]; [discriminate | exact H] | auto]. }
  split; [exact Hnode|]. split; [exact Hedge|].
  split; [intros a b; apply has_edge_sym|].
  intros a b H. apply Hedge in H. rewrite !Hnode.
  destruct H as [[H1 H2]|[H1 H2]]; split; eauto.
Qed.
